(** * SlopJS request dispatch: a shallow embedding of [Slop] and its proofs

    The development follows the class [Slop] of the framework: the path
    matcher [matchPath], the registration operations ([addRoute], [use],
    [useRouter]) and the dispatcher [handleRequest] with its continuation
    [next].  Definitions come first, theorems afterwards. *)

From Stdlib Require Import ZArith Ascii String List Lia.
From stdpp Require Import gmap strings list fin_maps.
Import ListNotations.

Local Open Scope string_scope.
Local Open Scope list_scope.

(** ** JavaScript string primitives used by the source *)

Module JsString.

(** [s.startsWith(p)]. *)
Fixpoint startsWith (p s : string) : bool :=
  match p with
  | EmptyString => true
  | String a p' =>
      match s with
      | EmptyString => false
      | String b s' => if Ascii.eqb a b then startsWith p' s' else false
      end
  end.

(** [s.substring(1)]. *)
Definition substring1 (s : string) : string :=
  match s with
  | EmptyString => EmptyString
  | String _ s' => s'
  end.

(** [s.split("/")]: the result always holds at least one segment, the
    empty string splits into one empty segment. *)
Fixpoint split_slash (s : string) : list string :=
  match s with
  | EmptyString => [EmptyString]
  | String c s' =>
      if Ascii.eqb c "/" then EmptyString :: split_slash s'
      else match split_slash s' with
           | [] => [String c EmptyString]
           | seg :: segs => String c seg :: segs
           end
  end.

End JsString.

(** ** Path matcher *)

(** [interface PathMatchResult]. The parameter object is used as a map from
    names to strings. *)
Record PathMatchResult := {
  matched : bool;
  params : gmap string string;
}.

Definition unmatched : PathMatchResult := {| matched := false; params := ∅ |}.

(** [params[paramName] = value] on the plain object [params].  The map
    holds the properties of the object itself.  Under every name but one
    the assignment creates or replaces such a property; under the name
    [__proto__] it reaches the setter inherited from [Object.prototype],
    which ignores a string, and the object is left as it was. *)
Definition assign (paramName value : string) (params : gmap string string)
    : gmap string string :=
  if String.eqb paramName "__proto__" then params else <[paramName := value]> params.

(** The [for] loop of [matchPath], from index [i] on: [routeParts] and
    [actualParts] are the segments not yet visited and [acc] is the
    [params] object built so far.  The caller has checked that both arrays
    have the same length. *)
Fixpoint matchSegments (routeParts actualParts : list string)
    (acc : gmap string string) : PathMatchResult :=
  match routeParts, actualParts with
  | [], _ => {| matched := true; params := acc |}
  | r :: routeParts', a :: actualParts' =>
      if JsString.startsWith ":" r then
        matchSegments routeParts' actualParts' (assign (JsString.substring1 r) a acc)
      else if negb (String.eqb r a) then unmatched
      else matchSegments routeParts' actualParts' acc
  | _ :: _, [] => unmatched
  end.

(** [Slop.matchPath(actualPath, routePath)]. *)
Definition matchPath (actualPath routePath : string) : PathMatchResult :=
  if String.eqb routePath actualPath then {| matched := true; params := ∅ |}
  else
    let routeParts := JsString.split_slash routePath in
    let actualParts := JsString.split_slash actualPath in
    if negb (Nat.eqb (length routeParts) (length actualParts)) then unmatched
    else matchSegments routeParts actualParts ∅.

(** *** The four-step algorithm of the specification

    Written after the words of the design document, independently of the
    loop above: equality is the fast path, then both strings are cut into
    segments, a difference in the number of segments is a failure, every
    pair of segments has to agree, and the bindings of the named segments
    are collected, a later binding of a name replacing an earlier one. *)

Definition isParamSegment (routeSeg : string) : bool :=
  JsString.startsWith ":" routeSeg.

Definition segmentAgrees (pair : string * string) : bool :=
  isParamSegment pair.1 || String.eqb pair.1 pair.2.

Definition segmentBinding (pair : string * string) : list (string * string) :=
  if isParamSegment pair.1 then [(JsString.substring1 pair.1, pair.2)] else [].

Definition bindingsOf (pairs : list (string * string)) : list (string * string) :=
  concat (map segmentBinding pairs).

(** The bindings [bs] written into the parameter object [acc] one after
    the other. *)
Definition bindAll (acc : gmap string string) (bs : list (string * string))
    : gmap string string :=
  fold_left (fun m b => <[b.1 := b.2]> m) bs acc.

Definition matchPath_reference (actualPath routePattern : string) : PathMatchResult :=
  if decide (actualPath = routePattern) then {| matched := true; params := ∅ |}
  else
    let pairs := zip (JsString.split_slash routePattern) (JsString.split_slash actualPath) in
    if decide (length (JsString.split_slash routePattern)
               = length (JsString.split_slash actualPath)) then
      if forallb segmentAgrees pairs
      then {| matched := true; params := list_to_map (rev (bindingsOf pairs)) |}
      else unmatched
    else unmatched.

(** The bindings [bs] assigned to the parameter object [acc] one after
    the other, as the loop of [matchPath] assigns them. *)
Definition assignAll (acc : gmap string string) (bs : list (string * string))
    : gmap string string :=
  fold_left (fun m b => assign b.1 b.2 m) bs acc.

(** No segment of the pattern is the parameter segment [:__proto__]. *)
Definition protoFree (routePattern : string) : Prop :=
  ∀ seg, seg ∈ JsString.split_slash routePattern → seg ≠ ":__proto__".

(** *** Repeated parameter names

    What the loop does when a name occurs more than once in a pattern, as
    a property of one call: whenever the segments agree, the actual
    segment at the rightmost occurrence of a name is the value bound to
    that name. *)
Definition segmentsAgree (actualPath routePath : string) : Prop :=
  let routeParts := JsString.split_slash routePath in
  let actualParts := JsString.split_slash actualPath in
  length routeParts = length actualParts
  ∧ ∀ i r a, routeParts !! i = Some r → actualParts !! i = Some a →
      isParamSegment r = false → r = a.

(** The match succeeds and binds [name] to the actual segment at the
    rightmost position at which the pattern has the segment [:name]. *)
Definition bindsLast (actualPath routePath name : string) : Prop :=
  let routeParts := JsString.split_slash routePath in
  let actualParts := JsString.split_slash actualPath in
  ∀ i a,
    routeParts !! i = Some (String ":" name) →
    actualParts !! i = Some a →
    (∀ j, (i < j)%nat → routeParts !! j ≠ Some (String ":" name)) →
    matched (matchPath actualPath routePath) = true
    ∧ params (matchPath actualPath routePath) !! name = Some a.

Definition lastBindingWins (actualPath routePath : string) : Prop :=
  ∀ name, bindsLast actualPath routePath name.

(** ** Data model *)

(** The message of a JavaScript [Error] object.  Every error object is
    truthy, so [err?: Error] is an [option Error]. *)
Definition Error := string.

(** [type HttpBody]: [null], text, a plain object (kept as its JSON text)
    or binary data. *)
Inductive HttpBody :=
| BodyNull
| BodyText (text : string)
| BodyRecord (json : string)
| BodyBinary (bytes : list Byte.byte).

(** [body === null]. *)
Definition isNull (b : HttpBody) : bool :=
  match b with
  | BodyNull => true
  | _ => false
  end.

(** [type HttpMethod]. *)
Inductive HttpMethod := GET | POST | PUT | DELETE | PATCH.

Definition methodName (m : HttpMethod) : string :=
  match m with
  | GET => "GET"
  | POST => "POST"
  | PUT => "PUT"
  | DELETE => "DELETE"
  | PATCH => "PATCH"
  end.

(** [interface SlopRequest]. *)
Module SlopRequest.
Record t := mk {
  method : string;
  url : string;
  headers : gmap string string;
  path : string;
  params : gmap string string;
  query : gmap string string;
  body : HttpBody;
}.
End SlopRequest.

(** [interface SlopResponse]: the three data fields; the methods of the
    object are the instructions of [Code] below. *)
Module SlopResponse.
Record t := mk {
  statusCode : Z;
  headers : gmap string string;
  body : HttpBody;
}.
End SlopResponse.

(** The platform [Response] handed back to the adapter. *)
Module Response.
Record t := mk {
  status : Z;
  headers : gmap string string;
  body : HttpBody;
}.
End Response.

(** The platform [Request] as [handleRequest] reads it: [pathname] and
    [searchParams] are those of [new URL(request.url)], [payload] is what
    the body parsing block leaves in [req.body] ([null] when there is no
    body or when parsing fails). *)
Module Request.
Record t := mk {
  method : string;
  url : string;
  headers : gmap string string;
  pathname : string;
  searchParams : gmap string string;
  payload : HttpBody;
}.
End Request.

(** *** Handlers

    A handler is a JavaScript function over [(req, res, next)].  It is
    embedded as the tree of what it does with its three arguments: it may
    look at [req] and [res], call the methods of [res], call the
    continuation and wait for it, return, or throw.  [Await err k onReject]
    is [next(err).then(() => k, e => onReject(e))]: the handler goes on
    with [k] when the continuation fulfils and with [onReject e] when it
    rejects with [e]; [return next(err)] and a bare [await next(err)] are
    [Await err Return Throw].  Handlers that drop the promise of [next]
    without waiting for it are outside this embedding, and so are
    [redirect], which leaves the body alone, and [sendFile], which reads
    the file system. *)
Inductive Code :=
| Return
| Throw (e : Error)
| Status (code : Z) (k : Code)
| Send (b : HttpBody) (k : Code)
| Json (text : string) (k : Code)
| End_ (data : option HttpBody) (k : Code)
| Observe (k : SlopRequest.t → SlopResponse.t → Code)
| Await (err : option Error) (k : Code) (onReject : Error → Code).

(** [type RouteHandler] and [type ErrorHandler]. *)
Definition RouteHandler := Code.
Definition ErrorHandler := Error → Code.

(** [interface Route]. *)
Module Route.
Record t := mk {
  method : HttpMethod;
  path : string;
  handlers : list RouteHandler;
}.
End Route.

(** [interface Middleware], with the kind of handler the list it is stored
    in holds. *)
Module Middleware.
Record t (H : Type) := mk {
  path : string;
  handler : H;
}.
Arguments mk {H} _ _.
Arguments path {H} _.
Arguments handler {H} _.
End Middleware.

(** The three private fields of [class Slop]. *)
Record Slop := {
  routes : list Route.t;
  middleware : list (Middleware.t RouteHandler);
  errorHandlers : list (Middleware.t ErrorHandler);
}.

(** ** Registration *)

(** [new Slop()] and [Slop.Router()]. *)
Definition Router : Slop :=
  {| routes := []; middleware := []; errorHandlers := [] |}.

(** [addRoute(method, path, handlers)]. *)
Definition addRoute (method : HttpMethod) (path : string)
    (handlers : list RouteHandler) (this : Slop) : Slop :=
  {| routes := routes this ++ [Route.mk method path handlers];
     middleware := middleware this;
     errorHandlers := errorHandlers this |}.

Definition get := addRoute GET.
Definition post := addRoute POST.
Definition put := addRoute PUT.
Definition delete_ := addRoute DELETE.
Definition patch := addRoute PATCH.

(** A function given to [use]: [handler.length === 4] tells an error
    handler from a normal one. *)
Inductive Registered :=
| Arity3 (h : RouteHandler)
| Arity4 (h : ErrorHandler).

(** One turn of the loop of [use]. *)
Definition useOne (path : string) (this : Slop) (h : Registered) : Slop :=
  match h with
  | Arity4 eh =>
      {| routes := routes this;
         middleware := middleware this;
         errorHandlers := errorHandlers this ++ [Middleware.mk path eh] |}
  | Arity3 rh =>
      {| routes := routes this;
         middleware := middleware this ++ [Middleware.mk path rh];
         errorHandlers := errorHandlers this |}
  end.

(** [use(pathOrHandler, ...handlers)]: without a path the filter is ["*"]. *)
Definition use (pathOrHandler : string + Registered) (handlers : list Registered)
    (this : Slop) : Slop :=
  match pathOrHandler with
  | inr h => fold_left (useOne "*") (h :: handlers) this
  | inl path => fold_left (useOne path) handlers this
  end.

(** *** Mounting, over a store of engines

    [useRouter] reads the lists of [router] while it pushes onto the lists
    of [this], and both are references: the engines live in a store and
    the two loops look the array of [router] up again at every turn, as
    the array iterator of [for ... of] does.  [fuel] bounds the number of
    turns. *)
Definition Ref := nat.

(** [path === "/" ? p : `${path}${p}`]. *)
Definition fullPath (path p : string) : string :=
  if String.eqb path "/" then p else (path ++ p)%string.

(** [this.routes.push(route)]. *)
Definition pushRoute (route : Route.t) (this : Slop) : Slop :=
  {| routes := routes this ++ [route];
     middleware := middleware this;
     errorHandlers := errorHandlers this |}.

(** [this.middleware.push(mw)]. *)
Definition pushMiddleware (mw : Middleware.t RouteHandler) (this : Slop) : Slop :=
  {| routes := routes this;
     middleware := middleware this ++ [mw];
     errorHandlers := errorHandlers this |}.

(** [{ ...route, path: fullPath }]. *)
Definition mountedRoute (path : string) (route : Route.t) : Route.t :=
  Route.mk (Route.method route) (fullPath path (Route.path route)) (Route.handlers route).

(** [{ ...mw, path: fullPath }]. *)
Definition mountedMiddleware (path : string) (mw : Middleware.t RouteHandler)
    : Middleware.t RouteHandler :=
  Middleware.mk (fullPath path (Middleware.path mw)) (Middleware.handler mw).

(** [for (const route of router.routes)], from index [i] on. *)
Fixpoint mountRoutes (fuel i : nat) (this : Ref) (path : string) (router : Ref)
    (σ : gmap Ref Slop) : option (gmap Ref Slop) :=
  match fuel with
  | O => None
  | S fuel' =>
      child ← σ !! router;
      match routes child !! i with
      | None => Some σ
      | Some route =>
          mountRoutes fuel' (S i) this path router
            (alter (pushRoute (mountedRoute path route)) this σ)
      end
  end.

(** [for (const mw of router.middleware)], from index [i] on. *)
Fixpoint mountMiddleware (fuel i : nat) (this : Ref) (path : string) (router : Ref)
    (σ : gmap Ref Slop) : option (gmap Ref Slop) :=
  match fuel with
  | O => None
  | S fuel' =>
      child ← σ !! router;
      match middleware child !! i with
      | None => Some σ
      | Some mw =>
          mountMiddleware fuel' (S i) this path router
            (alter (pushMiddleware (mountedMiddleware path mw)) this σ)
      end
  end.

(** [this.useRouter(path, router)]; [None] when a loop has not come to its
    end within [fuel] turns, or when [router] is not an engine of the
    store. *)
Definition useRouter (fuel : nat) (this : Ref) (path : string) (router : Ref)
    (σ : gmap Ref Slop) : option (gmap Ref Slop) :=
  σ' ← mountRoutes fuel 0 this path router σ;
  mountMiddleware fuel 0 this path router σ'.

(** A later registration on the engine at [this]. *)
Definition addRouteAt (this : Ref) (method : HttpMethod) (path : string)
    (handlers : list RouteHandler) (σ : gmap Ref Slop) : gmap Ref Slop :=
  alter (addRoute method path handlers) this σ.

(** ** Dispatch *)

(** What the dispatcher has invoked so far.  The journal is not a field of
    the source: it is kept next to [req] and [res] so that the order of
    invocations can be stated. *)
Inductive Event :=
| InvokeMiddleware (i : nat)
| InvokeRoute (i j : nat)
| InvokeError (i : nat)
| Continue (err : option Error).

(** The objects one dispatch works on, and the call stack.  [depth] is
    the number of handler chains of the matched route that lie on the
    stack: [next] calls the first handler of the route before it waits for
    anything, so a handler that calls [next()] before it has waited for
    anything itself nests one chain in the other, and what runs after an
    [await] runs in a job of its own, on an empty stack. *)
Record Dispatch := {
  req : SlopRequest.t;
  res : SlopResponse.t;
  journal : list Event;
  depth : nat;
}.

(** How an awaited call ends: the promise fulfils, rejects, or has not
    settled when the fuel given is used up; [Diverged] holds the state
    reached by then. *)
Inductive Outcome :=
| Returned (s : Dispatch)
| Thrown (e : Error) (s : Dispatch)
| Diverged (s : Dispatch).

Definition record (ev : Event) (s : Dispatch) : Dispatch :=
  {| req := req s; res := res s; journal := journal s ++ [ev]; depth := depth s |}.

Definition withRes (r : SlopResponse.t) (s : Dispatch) : Dispatch :=
  {| req := req s; res := r; journal := journal s; depth := depth s |}.

(** [req.params = pathMatch.params]. *)
Definition bindParams (ps : gmap string string) (s : Dispatch) : Dispatch :=
  {| req := SlopRequest.mk (SlopRequest.method (req s)) (SlopRequest.url (req s))
              (SlopRequest.headers (req s)) (SlopRequest.path (req s)) ps
              (SlopRequest.query (req s)) (SlopRequest.body (req s));
     res := res s;
     journal := journal s;
     depth := depth s |}.

(** One more handler chain on the stack. *)
Definition enter (s : Dispatch) : Dispatch :=
  {| req := req s; res := res s; journal := journal s; depth := S (depth s) |}.

(** The state as the code behind an [await] finds it: on an empty stack. *)
Definition unwind (s : Dispatch) : Dispatch :=
  {| req := req s; res := res s; journal := journal s; depth := 0 |}.

(** The [RangeError] of a call for which the stack has no room. *)
Definition stackOverflow : Error := "Maximum call stack size exceeded".

(** [res.status(code)]. *)
Definition status (code : Z) (r : SlopResponse.t) : SlopResponse.t :=
  SlopResponse.mk code (SlopResponse.headers r) (SlopResponse.body r).

(** [res.send(body)]. *)
Definition send (b : HttpBody) (r : SlopResponse.t) : SlopResponse.t :=
  SlopResponse.mk (SlopResponse.statusCode r) (SlopResponse.headers r) b.

(** [res.json(data)], [text] being [JSON.stringify(data)]. *)
Definition json (text : string) (r : SlopResponse.t) : SlopResponse.t :=
  SlopResponse.mk (SlopResponse.statusCode r)
    (<["content-type" := "application/json"]> (SlopResponse.headers r))
    (BodyText text).

(** [res.end(data)]. *)
Definition end_ (data : option HttpBody) (r : SlopResponse.t) : SlopResponse.t :=
  match data with
  | Some b => send b r
  | None => r
  end.

(** Running a handler against the continuation [next].  The caller
    waits for the handler ([await] at lines 477, 502 and 510), so the
    state a handler ends in is the state its caller goes on with, on an
    empty stack; the handler itself calls [next] on the stack as it stands
    and goes on behind its own [await] on an empty one. *)
Fixpoint exec (next : option Error → Dispatch → Outcome) (c : Code) (s : Dispatch)
    : Outcome :=
  match c with
  | Return => Returned (unwind s)
  | Throw e => Thrown e (unwind s)
  | Status code k => exec next k (withRes (status code (res s)) s)
  | Send b k => exec next k (withRes (send b (res s)) s)
  | Json text k => exec next k (withRes (json text (res s)) s)
  | End_ data k => exec next k (withRes (end_ data (res s)) s)
  | Observe k => exec next (k (req s) (res s)) s
  | Await err k onReject =>
      match next err (record (Continue err) s) with
      | Returned s' => exec next k (unwind s')
      | Thrown e s' => exec next (onReject e) (unwind s')
      | Diverged s' => Diverged s'
      end
  end.

(** [() => Promise.resolve()]. *)
Definition noop : option Error → Dispatch → Outcome := fun _ s => Returned s.

(** [filter === "*" || path.startsWith(filter)]. *)
Definition prefixMatches (filter path : string) : bool :=
  String.eqb filter "*" || JsString.startsWith filter path.

Definition bodyIsNull (s : Dispatch) : bool := isNull (SlopResponse.body (res s)).

(** The loop over [this.errorHandlers] in [next], from index [i] on:
    [inl] when a [return] or an exception leaves the loop, [inr] when the
    loop runs to its end. *)
Fixpoint errorLoop (i : nat) (ehs : list (Middleware.t ErrorHandler)) (path : string)
    (err : Error) (s : Dispatch) : Outcome + Dispatch :=
  match ehs with
  | [] => inr s
  | eh :: ehs' =>
      if prefixMatches (Middleware.path eh) path then
        match exec noop (Middleware.handler eh err) (record (InvokeError i) s) with
        | Returned s' =>
            if bodyIsNull s' then errorLoop (S i) ehs' path err s'
            else inl (Returned s')
        | other => inl other
        end
      else errorLoop (S i) ehs' path err s
  end.

(** The branch [if (err)] of [next]. *)
Definition errorPhase (ehs : list (Middleware.t ErrorHandler)) (path : string)
    (err : Error) (s : Dispatch) : Outcome :=
  match errorLoop 0 ehs path err s with
  | inl o => o
  | inr s' => Thrown err s'
  end.

(** The loop over [this.routes] in [next], from index [i] on: the index,
    the route and the parameters of the first route that fits. *)
Fixpoint findRoute (i : nat) (rs : list Route.t) (method path : string)
    : option (nat * Route.t * gmap string string) :=
  match rs with
  | [] => None
  | route :: rs' =>
      if String.eqb (methodName (Route.method route)) method then
        let pathMatch := matchPath path (Route.path route) in
        if matched pathMatch then Some (i, route, params pathMatch)
        else findRoute (S i) rs' method path
      else findRoute (S i) rs' method path
  end.

(** The loop over [matchedRoute.handlers], from handler [j] of route [i] on. *)
Fixpoint runHandlers (next : option Error → Dispatch → Outcome) (i j : nat)
    (hs : list RouteHandler) (s : Dispatch) : Outcome :=
  match hs with
  | [] => Returned s
  | h :: hs' =>
      match exec next h (record (InvokeRoute i j) s) with
      | Returned s' =>
          if bodyIsNull s' then runHandlers next i (S j) hs' s' else Returned s'
      | other => other
      end
  end.

(** The continuation [next] of one dispatch; [method] and [path] are the
    constants of the enclosing [handleRequest].  The handlers of the
    matched route receive this same [next], so a handler chain can be
    entered again from within itself.

    [stack] is the number of nested handler chains the call stack of the
    engine has room for.  When that many lie on the stack, the call of
    the handler at line 502 raises the [RangeError] of the engine inside
    [next], whose promise rejects with it.  A chain entered again from
    behind an [await] starts on an empty stack; such chains may follow
    each other without end, and [fuel] bounds the number of chains that
    are entered within one another, on the stack or not: [Diverged] is
    the outcome cut off there. *)
Fixpoint next (stack : nat) (app : Slop) (method path : string) (fuel : nat)
    (err : option Error) (s : Dispatch) : Outcome :=
  match err with
  | Some e => errorPhase (errorHandlers app) path e s
  | None =>
      match findRoute 0 (routes app) method path with
      | None => Returned s
      | Some (i, route, ps) =>
          if (stack <=? depth s)%nat then Thrown stackOverflow (bindParams ps s)
          else
            match fuel with
            | O => Diverged (bindParams ps s)
            | S fuel' =>
                runHandlers (next stack app method path fuel') i 0 (Route.handlers route)
                  (enter (bindParams ps s))
            end
      end
  end.

(** The loop over [this.middleware], from index [i] on. *)
Fixpoint runMiddleware (next : option Error → Dispatch → Outcome) (i : nat)
    (mws : list (Middleware.t RouteHandler)) (path : string) (s : Dispatch) : Outcome :=
  match mws with
  | [] => Returned s
  | mw :: mws' =>
      if prefixMatches (Middleware.path mw) path then
        match exec next (Middleware.handler mw) (record (InvokeMiddleware i) s) with
        | Returned s' =>
            if bodyIsNull s' then runMiddleware next (S i) mws' path s' else Returned s'
        | other => other
        end
      else runMiddleware next (S i) mws' path s
  end.

(** [if (res.body === null) await next()]. *)
Definition routePhase (next : option Error → Dispatch → Outcome) (s : Dispatch) : Outcome :=
  if bodyIsNull s then next None s else Returned s.

(** The request and response objects built at the start of [handleRequest]. *)
Definition initial (request : Request.t) : Dispatch :=
  {| req := SlopRequest.mk (Request.method request) (Request.url request)
              (Request.headers request) (Request.pathname request) ∅
              (Request.searchParams request) (Request.payload request);
     res := SlopResponse.mk 200 ∅ BodyNull;
     journal := [];
     depth := 0 |}.

(** The handler chain of the [try] block: the middleware loop and the call
    of [next] that follows it. *)
Definition dispatch (stack fuel : nat) (app : Slop) (request : Request.t) : Outcome :=
  let method := Request.method request in
  let path := Request.pathname request in
  match runMiddleware (next stack app method path fuel) 0 (middleware app) path
          (initial request) with
  | Returned s => routePhase (next stack app method path fuel) s
  | other => other
  end.

(** *** The platform constructor [new Response(body, { status, headers })]

    After the Fetch standard: [status] is an [unsigned short]; a value
    outside 200..599 is a [RangeError], and a body together with a null
    body status is a [TypeError].  A string is sent as it is, with the
    type [text/plain;charset=UTF-8]; a plain object is first turned into
    a string, which is ["[object Object]"]; binary data has no type.  The
    type of the body becomes the header [content-type] unless the headers
    given have one. *)
Definition nullBodyStatus (st : Z) : bool :=
  (st =? 101)%Z || (st =? 103)%Z || (st =? 204)%Z || (st =? 205)%Z || (st =? 304)%Z.

Definition textPlain : string := "text/plain;charset=UTF-8".

(** The body as it is sent, and its type. *)
Definition extractBody (b : HttpBody) : HttpBody * option string :=
  match b with
  | BodyNull => (BodyNull, None)
  | BodyText text => (BodyText text, Some textPlain)
  | BodyRecord _ => (BodyText "[object Object]", Some textPlain)
  | BodyBinary bytes => (BodyBinary bytes, None)
  end.

Definition withContentType (type : option string) (hs : gmap string string)
    : gmap string string :=
  match type, hs !! "content-type" with
  | Some t, None => <["content-type" := t]> hs
  | _, _ => hs
  end.

Definition newResponse (b : HttpBody) (st : Z) (hs : gmap string string)
    : Response.t + Error :=
  let st16 := (st mod 65536)%Z in
  if (st16 <? 200)%Z || (599 <? st16)%Z then inr "RangeError"
  else if negb (isNull b) && nullBodyStatus st16 then inr "TypeError"
  else inl (Response.mk st16 (withContentType (extractBody b).2 hs) (extractBody b).1).

(** How the promise of [handleRequest] settles. *)
Inductive Settled :=
| Resolved (r : Response.t)
| Rejected (e : Error)
| Pending.

(** The [catch] block of [handleRequest]. *)
Definition internalError : Settled :=
  match newResponse (BodyText "Internal Server Error") 500 ∅ with
  | inl r => Resolved r
  | inr e => Rejected e
  end.

(** The two [return] statements of the [try] block; an exception of the
    constructor is caught by the [catch] block like any other. *)
Definition respond (s : Dispatch) : Settled :=
  let made :=
    if bodyIsNull s then newResponse (BodyText "Not Found") 404 ∅
    else newResponse (SlopResponse.body (res s)) (SlopResponse.statusCode (res s))
           (SlopResponse.headers (res s)) in
  match made with
  | inl r => Resolved r
  | inr _ => internalError
  end.

(** [Slop.handleRequest(request)]. *)
Definition handleRequest (stack fuel : nat) (app : Slop) (request : Request.t) : Settled :=
  match dispatch stack fuel app request with
  | Returned s => respond s
  | Thrown _ _ => internalError
  | Diverged _ => Pending
  end.

(** The two generic responses. *)
Definition notFound : Response.t :=
  Response.mk 404 {[ "content-type" := textPlain ]} (BodyText "Not Found").
Definition serverError : Response.t :=
  Response.mk 500 {[ "content-type" := textPlain ]} (BodyText "Internal Server Error").

(** ** Properties and engines used in the statements *)

(** A route fits a request: same method, matching pattern. *)
Definition fits (method path : string) (route : Route.t) : bool :=
  String.eqb (methodName (Route.method route)) method
  && matched (matchPath path (Route.path route)).

(** The state a call leaves: the state at its end, or the state reached
    when it was cut off. *)
Definition finalState (o : Outcome) : option Dispatch :=
  match o with
  | Returned s | Thrown _ s | Diverged s => Some s
  end.

Definition journalOf (o : Outcome) : list Event :=
  match finalState o with
  | Some s => journal s
  | None => []
  end.

(** A handler that answers with the value of the parameter [name]. *)
Definition echoParam (name : string) : RouteHandler :=
  Observe (fun r _ =>
    Send (BodyText (default "" (SlopRequest.params r !! name))) Return).

(** [app.get("/users/:id", ...); app.get("/users/me", ...)]. *)
Definition usersApp : Slop :=
  get "/users/me" [Send (BodyText "literal route") Return]
    (get "/users/:id" [echoParam "id"] Router).

Definition getRequest (path : string) : Request.t :=
  Request.mk "GET" ("http://localhost" ++ path)%string ∅ path ∅ BodyNull.

(** A finished call has only appended to the journal, and only events
    of the class [P]. *)
Definition appends (P : Event → Prop) (s : Dispatch) (o : Outcome) : Prop :=
  match finalState o with
  | Some s' => ∃ evs, journal s' = journal s ++ evs ∧ Forall P evs
  | None => True
  end.

(** Events other than the invocation of a middleware entry at index [n]
    or later. *)
Definition belowMiddleware (n : nat) (ev : Event) : Prop :=
  match ev with
  | InvokeMiddleware k => (k < n)%nat
  | _ => True
  end.

(** Events of the error phase: an error handler is invoked, or calls its
    continuation. *)
Definition errorPhaseEvent (ev : Event) : Prop :=
  match ev with
  | InvokeError _ | Continue _ => True
  | _ => False
  end.

(** A journal in which a route handler is invoked only after some handler
    has called [next()]. *)
Definition guarded (evs : list Event) : Prop :=
  ∀ i j, InvokeRoute i j ∈ evs → Continue None ∈ evs.

Definition guardedGrowth (s : Dispatch) (o : Outcome) : Prop :=
  match finalState o with
  | Some s' => ∃ evs, journal s' = journal s ++ evs ∧ guarded evs
  | None => True
  end.

(** The middleware loop of the dispatch of [request] reaches the entry [mw]
    that follows the entries [pre], in state [s1], and the handler of [mw]
    returns in state [s2]. *)
Definition invokedAt (stack fuel : nat) (app : Slop) (request : Request.t)
    (pre : list (Middleware.t RouteHandler)) (mw : Middleware.t RouteHandler)
    (post : list (Middleware.t RouteHandler)) (s1 s2 : Dispatch) : Prop :=
  let method := Request.method request in
  let path := Request.pathname request in
  middleware app = pre ++ mw :: post
  ∧ runMiddleware (next stack app method path fuel) 0 pre path (initial request)
    = Returned s1
  ∧ bodyIsNull s1 = true
  ∧ prefixMatches (Middleware.path mw) path = true
  ∧ exec (next stack app method path fuel) (Middleware.handler mw)
      (record (InvokeMiddleware (length pre)) s1) = Returned s2.

(** The same, for a handler of [mw] that ends in the exception [e]. *)
Definition rejectedAt (stack fuel : nat) (app : Slop) (request : Request.t)
    (pre : list (Middleware.t RouteHandler)) (mw : Middleware.t RouteHandler)
    (post : list (Middleware.t RouteHandler)) (s1 : Dispatch) (e : Error) (s2 : Dispatch)
    : Prop :=
  let method := Request.method request in
  let path := Request.pathname request in
  middleware app = pre ++ mw :: post
  ∧ runMiddleware (next stack app method path fuel) 0 pre path (initial request)
    = Returned s1
  ∧ bodyIsNull s1 = true
  ∧ prefixMatches (Middleware.path mw) path = true
  ∧ exec (next stack app method path fuel) (Middleware.handler mw)
      (record (InvokeMiddleware (length pre)) s1) = Thrown e s2.

(** First responder wins, as the design document words it: once a
    middleware entry has set the body, no later entry and no route handler
    is ever invoked in that dispatch, which resolves with that response. *)
Definition firstResponderWins (stack fuel : nat) (app : Slop) (request : Request.t)
    : Prop :=
  ∀ pre mw post s1 s2,
    invokedAt stack fuel app request pre mw post s1 s2 →
    bodyIsNull s2 = false →
    (∀ k, InvokeMiddleware k ∈ journalOf (dispatch stack fuel app request) →
          (k ≤ length pre)%nat)
    ∧ (∀ i j, InvokeRoute i j ∉ journalOf (dispatch stack fuel app request))
    ∧ handleRequest stack fuel app request = respond s2.

(** Advancement by the continuation only, as the design document words
    it: after a middleware handler that has neither called the
    continuation nor set a body, nothing more is invoked. *)
Definition continuationOnlyAdvance (stack fuel : nat) (app : Slop) (request : Request.t)
    : Prop :=
  ∀ pre mw post s1 s2,
    invokedAt stack fuel app request pre mw post s1 s2 →
    bodyIsNull s2 = true →
    journal s2 = journal s1 ++ [InvokeMiddleware (length pre)] →
    journalOf (dispatch stack fuel app request) = journal s2.

(** [app.use((req, res, next) => { res.send("A"); return next(); });
     app.get("/x", (req, res) => res.send("B"))]. *)
Definition answerThenContinue : Slop :=
  get "/x" [Send (BodyText "B") Return]
    (use (inr (Arity3 (Send (BodyText "A") (Await None Return Throw)))) [] Router).

(** [app.use((req, res, next) => {}); app.use((req, res) => res.send("B"))]. *)
Definition idleThenAnswer : Slop :=
  use (inr (Arity3 Return)) [Arity3 (Send (BodyText "B") Return)] Router.

(** The error handlers a journal shows as invoked, in order. *)
Definition invokedErrors (evs : list Event) : list nat :=
  omap (fun ev => match ev with InvokeError i => Some i | _ => None end) evs.

(** The indices, from [i] on, of the error handlers whose filter is ["*"]
    or a prefix of [path], in registration order. *)
Fixpoint matchingErrorHandlers (i : nat) (ehs : list (Middleware.t ErrorHandler))
    (path : string) : list nat :=
  match ehs with
  | [] => []
  | eh :: ehs' =>
      if prefixMatches (Middleware.path eh) path
      then i :: matchingErrorHandlers (S i) ehs' path
      else matchingErrorHandlers (S i) ehs' path
  end.

Definition continueEvent (ev : Event) : Prop :=
  match ev with
  | Continue _ => True
  | _ => False
  end.

(** The error phase ends the normal chain, as the design document words
    it: once a handler has called the continuation with an error, nothing
    but error handlers is invoked in that dispatch. *)
Definition errorStopsChain (stack fuel : nat) (app : Slop) (request : Request.t) : Prop :=
  ∀ before e after,
    journalOf (dispatch stack fuel app request) = before ++ Continue (Some e) :: after →
    Forall errorPhaseEvent after.

(** [app.use((req, res, next) => next(new Error("boom")).catch(() => {}));
     app.use((req, res) => res.send("B"))]. *)
Definition swallowThenAnswer : Slop :=
  use (inr (Arity3 (Await (Some "boom") Return (fun _ => Return))))
    [Arity3 (Send (BodyText "B") Return)] Router.

(** [app.use((req, res, next) => next());
     app.post("/users", (req, res) => res.status(201).json(...))]. *)
Definition loggedUsers : Slop :=
  post "/users" [Status 201 (Json "{}" Return)]
    (use (inr (Arity3 (Await None Return Throw))) [] Router).


(** [app.use((err, req, res, next) => { next(); });
     app.use((err, req, res, next) => res.status(500).json(...));
     app.use((err, req, res, next) => res.send("late"))]. *)
Definition threeErrorHandlers : Slop :=
  use (inr (Arity4 (fun _ => Await None Return Throw)))
    [Arity4 (fun _ => Status 500 (Json "{}" Return));
     Arity4 (fun _ => Send (BodyText "late") Return)] Router.

(** *** Kinds of handler code *)

(** Every path through the code ends in [throw]. *)
Inductive raises : Code → Prop :=
| raises_throw e : raises (Throw e)
| raises_status code k : raises k → raises (Status code k)
| raises_send b k : raises k → raises (Send b k)
| raises_json text k : raises k → raises (Json text k)
| raises_end data k : raises k → raises (End_ data k)
| raises_observe k : (∀ r s, raises (k r s)) → raises (Observe k)
| raises_await err k onReject :
    raises k → (∀ e, raises (onReject e)) → raises (Await err k onReject).

(** The code does not call the continuation. *)
Inductive settled : Code → Prop :=
| settled_return : settled Return
| settled_throw e : settled (Throw e)
| settled_status code k : settled k → settled (Status code k)
| settled_send b k : settled k → settled (Send b k)
| settled_json text k : settled k → settled (Json text k)
| settled_end data k : settled k → settled (End_ data k)
| settled_observe k : (∀ r s, settled (k r s)) → settled (Observe k).

(** The code never calls [next()] without an error. *)
Inductive leavesChain : Code → Prop :=
| leavesChain_return : leavesChain Return
| leavesChain_throw e : leavesChain (Throw e)
| leavesChain_status code k : leavesChain k → leavesChain (Status code k)
| leavesChain_send b k : leavesChain k → leavesChain (Send b k)
| leavesChain_json text k : leavesChain k → leavesChain (Json text k)
| leavesChain_end data k : leavesChain k → leavesChain (End_ data k)
| leavesChain_observe k : (∀ r s, leavesChain (k r s)) → leavesChain (Observe k)
| leavesChain_await e k onReject :
    leavesChain k → (∀ e', leavesChain (onReject e')) →
    leavesChain (Await (Some e) k onReject).

(** The code calls [next()] only before it has waited for anything: the
    first call of the continuation on a path may be one without an error,
    the calls behind it are not. *)
Inductive entersOnce : Code → Prop :=
| entersOnce_return : entersOnce Return
| entersOnce_throw e : entersOnce (Throw e)
| entersOnce_status code k : entersOnce k → entersOnce (Status code k)
| entersOnce_send b k : entersOnce k → entersOnce (Send b k)
| entersOnce_json text k : entersOnce k → entersOnce (Json text k)
| entersOnce_end data k : entersOnce k → entersOnce (End_ data k)
| entersOnce_observe k : (∀ r s, entersOnce (k r s)) → entersOnce (Observe k)
| entersOnce_await err k onReject :
    leavesChain k → (∀ e, leavesChain (onReject e)) →
    entersOnce (Await err k onReject).

(** The code calls none of [send], [json] and [end(data)]. *)
Inductive bodyless : Code → Prop :=
| bodyless_return : bodyless Return
| bodyless_throw e : bodyless (Throw e)
| bodyless_status code k : bodyless k → bodyless (Status code k)
| bodyless_end k : bodyless k → bodyless (End_ None k)
| bodyless_observe k : (∀ r s, bodyless (k r s)) → bodyless (Observe k)
| bodyless_await err k onReject :
    bodyless k → (∀ e, bodyless (onReject e)) → bodyless (Await err k onReject).

(** The code calls the continuation at most once, and before it sets a
    body; when the continuation rejects it throws, and it calls nothing
    behind the one call: [return next(err)], or [await next(err)]
    outside of [try] with no further call behind it. *)
Inductive forwards : Code → Prop :=
| forwards_return : forwards Return
| forwards_throw e : forwards (Throw e)
| forwards_status code k : forwards k → forwards (Status code k)
| forwards_send b k : settled k → forwards (Send b k)
| forwards_json text k : settled k → forwards (Json text k)
| forwards_end_data b k : settled k → forwards (End_ (Some b) k)
| forwards_end k : forwards k → forwards (End_ None k)
| forwards_observe k : (∀ r s, forwards (k r s)) → forwards (Observe k)
| forwards_await err k onReject :
    settled k → (∀ e, raises (onReject e) ∧ settled (onReject e)) →
    forwards (Await err k onReject).

Definition allForward (app : Slop) : Prop :=
  (∀ mw, mw ∈ middleware app → forwards (Middleware.handler mw))
  ∧ (∀ r h, r ∈ routes app → h ∈ Route.handlers r → forwards h).

(** No error handler whose filter applies to [path] sets a body. *)
Definition errorHandlersSetNoBody (app : Slop) (path : string) : Prop :=
  ∀ eh e, eh ∈ errorHandlers app → prefixMatches (Middleware.path eh) path = true →
          bodyless (Middleware.handler eh e).


(** A route handler calls [next()] only as the first handler of its
    route, and before it has waited for anything: the handler chain is
    entered again on the stack or not at all. *)
Definition reentersOnStack (app : Slop) : Prop :=
  ∀ r h hs, r ∈ routes app → Route.handlers r = h :: hs →
            entersOnce h ∧ ∀ h', h' ∈ hs → leavesChain h'.

(** The call has settled: it was not cut off. *)
Definition settles (o : Outcome) : Prop :=
  match o with
  | Diverged _ => False
  | _ => True
  end.

(** Events other than a call of the continuation with an error. *)
Definition calm (ev : Event) : Prop :=
  match ev with
  | Continue (Some _) => False
  | _ => True
  end.

(** A call that does not throw has seen no error signalled. *)
Definition quietReturn (s : Dispatch) (o : Outcome) : Prop :=
  ∀ s', o = Returned s' ∨ o = Diverged s' →
        ∃ evs, journal s' = journal s ++ evs ∧ Forall calm evs.

(** The total response guarantee, as the design document words it: the
    dispatch of every request ends in a response. *)
Definition answers (stack : nat) (app : Slop) (request : Request.t) : Prop :=
  ∃ fuel r, handleRequest stack fuel app request = Resolved r.

(** The unhandled error case, as the design document words it: when a
    handler has signalled an error and no error handler that matches sets
    a body, in particular when none is registered, the response has
    status 500. *)
Definition unhandledErrorIs500 (stack fuel : nat) (app : Slop) (request : Request.t)
    : Prop :=
  errorHandlersSetNoBody app (Request.pathname request) →
  (∃ e, Continue (Some e) ∈ journalOf (dispatch stack fuel app request)) →
  ∃ r, handleRequest stack fuel app request = Resolved r ∧ Response.status r = 500%Z.

(** [app.use((req, res, next) => next(new Error("boom")).catch(() => {}))]. *)
Definition swallowOnly : Slop :=
  use (inr (Arity3 (Await (Some "boom") Return (fun _ => Return)))) [] Router.

(** [app.use((err, req, res, next) => {});
     app.use((req, res, next) => { res.send("A"); return next(new Error("boom")); })]. *)
Definition answerThenSignal : Slop :=
  use (inr (Arity4 (fun _ => Return)))
    [Arity3 (Send (BodyText "A") (Await (Some "boom") Return Throw))] Router.

(** [app.use((err, req, res, next) => {});
     app.use(async (req, res, next) => { await next(); await next(new Error("late")); });
     app.get("/x", (req, res) => res.send("B"))]. *)
Definition signalAfterRoute : Slop :=
  get "/x" [Send (BodyText "B") Return]
    (use (inr (Arity4 (fun _ => Return)))
       [Arity3 (Await None (Await (Some "late") Return Throw) Throw)] Router).

(** [app.use((req, res, next) => next());
     app.get("/x", (req, res, next) => next(new Error("boom")))]. *)
Definition signalInRoute : Slop :=
  get "/x" [Await (Some "boom") Return Throw]
    (use (inr (Arity3 (Await None Return Throw))) [] Router).

(** [app.use((err, req, res, next) => { res.status(503); });
     app.get("/x", (req, res, next) => next(new Error("boom")))]. *)
Definition statusOnlyErrorHandler : Slop :=
  get "/x" [Await (Some "boom") Return Throw]
    (use (inr (Arity4 (fun _ => Status 503 Return))) [] Router).

(** [app.get("/x", (req, res, next) => next())]. *)
Definition callsItself : Slop :=
  get "/x" [Await None Return Throw] Router.

(** [app.get("/x", (req, res, next) => {}, (req, res, next) => next())]. *)
Definition idleThenAgain : Slop :=
  get "/x" [Return; Await None Return Throw] Router.

(** *** Requests that no handler answers *)

(** The mapping of a request without a route, as the design document
    words it: when no route fits and the body is null at the end, the
    handler chain has completed without an error and the response is the
    generic [Not Found]. *)
Definition unansweredIs404 (stack fuel : nat) (app : Slop) (request : Request.t) : Prop :=
  (∀ r, r ∈ routes app →
        fits (Request.method request) (Request.pathname request) r = false) →
  (∀ s, finalState (dispatch stack fuel app request) = Some s → bodyIsNull s = true) →
  (∃ s, dispatch stack fuel app request = Returned s)
  ∧ handleRequest stack fuel app request = Resolved notFound.

(** [app.use((req, res, next) => { throw new Error("boom"); })]. *)
Definition throwingOnly : Slop :=
  use (inr (Arity3 (Throw "boom"))) [] Router.



(** *** Mounting *)

(** The engine at [this] after [router] has been mounted under [path]. *)
Definition mounted (path : string) (parent child : Slop) : Slop :=
  {| routes := routes parent ++ map (mountedRoute path) (routes child);
     middleware := middleware parent ++ map (mountedMiddleware path) (middleware child);
     errorHandlers := errorHandlers parent |}.

(** Mounting, as the design document words it, for the engines at [this]
    and [router] of a store: the call returns, the parent has the copies
    appended and the child is what it was. *)
Definition mountAppends (σ : gmap Ref Slop) (this : Ref) (path : string) (router : Ref)
    : Prop :=
  ∀ parent child,
    σ !! this = Some parent → σ !! router = Some child →
    ∃ fuel σ', useRouter fuel this path router σ = Some σ'
               ∧ σ' !! this = Some (mounted path parent child)
               ∧ σ' !! router = Some child.

(** [const api = Slop.Router(); api.get("/ping", ...)]. *)
Definition pingRouter : Slop :=
  get "/ping" [Send (BodyText "pong") Return] Router.

(** ** Definitions for the properties beyond the claims *)

(** [segments.join("/")], the inverse of [split("/")]. *)
Fixpoint join_slash (segs : list string) : string :=
  match segs with
  | [] => ""
  | seg :: segs' =>
      match segs' with
      | [] => seg
      | _ :: _ => (seg ++ String "/" (join_slash segs'))%string
      end
  end.

(** [s.includes("/")]. *)
Fixpoint containsSlash (s : string) : bool :=
  match s with
  | EmptyString => false
  | String c s' => Ascii.eqb c "/" || containsSlash s'
  end.

(** The arguments of [use] after its first lines: the path filter and the
    handlers in the order in which the loop visits them. *)
Definition useFilter (pathOrHandler : string + Registered) : string :=
  match pathOrHandler with
  | inl path => path
  | inr _ => "*"
  end.

Definition useHandlers (pathOrHandler : string + Registered) (handlers : list Registered)
    : list Registered :=
  match pathOrHandler with
  | inl _ => handlers
  | inr h => h :: handlers
  end.

(** The entries a list of registered functions gives for each of the two
    lists. *)
Definition normalEntries (path : string) (hs : list Registered)
    : list (Middleware.t RouteHandler) :=
  omap (fun h => match h with
                 | Arity3 rh => Some (Middleware.mk path rh)
                 | Arity4 _ => None
                 end) hs.

Definition errorEntries (path : string) (hs : list Registered)
    : list (Middleware.t ErrorHandler) :=
  omap (fun h => match h with
                 | Arity4 eh => Some (Middleware.mk path eh)
                 | Arity3 _ => None
                 end) hs.

(** The middleware entries a journal shows as invoked, in order. *)
Definition invokedMiddleware (evs : list Event) : list nat :=
  omap (fun ev => match ev with InvokeMiddleware i => Some i | _ => None end) evs.

(** The indices, from [i] on, of the middleware entries whose filter
    applies to [path], in registration order. *)
Fixpoint matchingMiddleware (i : nat) (mws : list (Middleware.t RouteHandler))
    (path : string) : list nat :=
  match mws with
  | [] => []
  | mw :: mws' =>
      if prefixMatches (Middleware.path mw) path
      then i :: matchingMiddleware (S i) mws' path
      else matchingMiddleware (S i) mws' path
  end.

(** An invocation of a route handler is one of a handler of the route
    that the search of [next] finds for [method] and [path]. *)
Definition ofSelectedRoute (app : Slop) (method path : string) (ev : Event) : Prop :=
  match ev with
  | InvokeRoute i j =>
      ∃ route ps, findRoute 0 (routes app) method path = Some (i, route, ps)
                  ∧ (j < length (Route.handlers route))%nat
  | _ => True
  end.

(** A journal in which an error handler is invoked only after some
    handler has called the continuation with an error. *)
Definition signalled (evs : list Event) : Prop :=
  ∀ k, InvokeError k ∈ evs → ∃ e, Continue (Some e) ∈ evs.

Definition signalledGrowth (s : Dispatch) (o : Outcome) : Prop :=
  match finalState o with
  | Some s' => ∃ evs, journal s' = journal s ++ evs ∧ signalled evs
  | None => True
  end.

(** [app.use((err, req, res, next) => res.status(500).json(...));
     app.use((req, res, next) => { throw new Error("boom"); })]. *)
Definition throwingMiddleware : Slop :=
  use (inr (Arity4 (fun _ => Status 500 (Json "{}" Return))))
    [Arity3 (Throw "boom")] Router.

(** The same with [next(new Error("boom"))] in the place of [throw]. *)
Definition signallingMiddleware : Slop :=
  use (inr (Arity4 (fun _ => Status 500 (Json "{}" Return))))
    [Arity3 (Await (Some "boom") Return Throw)] Router.

(** ** The file methods of the response and the static file middleware *)

(** [res.sendFile(filePath)].  The three runtime branches have one shape:
    the file is read as text, the body is set to the text and the header
    [Content-Type] to a value found for the path; an exception on the way
    is caught and leaves status 404 and the body ["File not found"].
    [read] is the file system ([None] where reading throws) and
    [contentTypeOf] the value the branch finds ([file.type] under Bun, the
    look-up in [mimeTypes] under Deno and Node). *)
Definition sendFile (read : string → option string) (contentTypeOf : string → string)
    (filePath : string) (r : SlopResponse.t) : SlopResponse.t :=
  match read filePath with
  | Some text =>
      SlopResponse.mk (SlopResponse.statusCode r)
        (<["content-type" := contentTypeOf filePath]> (SlopResponse.headers r))
        (BodyText text)
  | None =>
      SlopResponse.mk 404 (SlopResponse.headers r) (BodyText "File not found")
  end.

(** How the handler made by [staticFiles] ends: with a plain [return], or
    with [return next()]. *)
Inductive Served :=
| Finished (r : SlopResponse.t)
| Continues (r : SlopResponse.t).

Definition servedResponse (o : Served) : SlopResponse.t :=
  match o with
  | Finished r | Continues r => r
  end.

(** [path.replace(/\/+/g, "/")]. *)
Fixpoint normalizePath (path : string) : string :=
  match path with
  | EmptyString => EmptyString
  | String c rest =>
      if Ascii.eqb c "/" && JsString.startsWith "/" rest then normalizePath rest
      else String c (normalizePath rest)
  end.

(** [\w]: an ASCII letter, a digit or the underscore. *)
Definition isWordChar (c : ascii) : bool :=
  let n := nat_of_ascii c in
  ((48 <=? n) && (n <=? 57) || (65 <=? n) && (n <=? 90)
   || (97 <=? n) && (n <=? 122) || (n =? 95))%nat.

Fixpoint allWordChars (s : string) : bool :=
  match s with
  | EmptyString => true
  | String c s' => isWordChar c && allWordChars s'
  end.

(** [/\.\w+$/.test(s)]. *)
Fixpoint hasExtension (s : string) : bool :=
  match s with
  | EmptyString => false
  | String c s' =>
      Ascii.eqb c "." && negb (String.eqb s' "") && allWordChars s' || hasExtension s'
  end.

(** [s.endsWith(suffix)]. *)
Fixpoint endsWith (suffix s : string) : bool :=
  String.eqb s suffix
  || match s with
     | EmptyString => false
     | String _ s' => endsWith suffix s'
     end.

(** The letters A to Z in lower case, as the flag [i] compares them. *)
Definition lowerAscii (c : ascii) : ascii :=
  let n := nat_of_ascii c in
  if ((65 <=? n) && (n <=? 90))%nat then ascii_of_nat (n + 32) else c.

Fixpoint lowerCase (s : string) : string :=
  match s with
  | EmptyString => EmptyString
  | String c s' => String (lowerAscii c) (lowerCase s')
  end.

Definition assetExtensions : list string :=
  ["js"; "css"; "png"; "jpg"; "jpeg"; "gif"; "ico"; "svg"; "json"; "woff"; "woff2";
   "ttf"; "eot"].

(** [s.match(/\.(js|css|...|eot)$/i)] is not [null]. *)
Fixpoint isAssetRequest (s : string) : bool :=
  match s with
  | EmptyString => false
  | String c s' =>
      Ascii.eqb c "." && existsb (String.eqb (lowerCase s')) assetExtensions
      || isAssetRequest s'
  end.

(** [cleanPath] of both variants of [staticFiles]. *)
Definition cleanPath (indexFile : string) (req : SlopRequest.t) : string :=
  let filePath := SlopRequest.path req in
  let filePath := if String.eqb filePath "/" then ("/" ++ indexFile)%string else filePath in
  JsString.substring1 filePath.

(** [pathsToTry]. *)
Definition pathsToTry (absDirectory indexFile : string) (spaMode : bool)
    (clean : string) : list string :=
  [normalizePath (absDirectory ++ "/" ++ clean)%string]
  ++ (if negb (hasExtension clean)
      then [normalizePath (absDirectory ++ "/" ++ clean
                           ++ (if endsWith "/" clean then "" else "/") ++ indexFile)%string]
      else [])
  ++ (if spaMode && negb (isAssetRequest clean)
      then [normalizePath (absDirectory ++ "/" ++ indexFile)%string]
      else []).

(** The loop over [pathsToTry]. *)
Fixpoint tryPaths (read : string → option string) (contentTypeOf : string → string)
    (paths : list string) (r : SlopResponse.t) : Served :=
  match paths with
  | [] => Continues r
  | pathToTry :: paths' =>
      let r' := sendFile read contentTypeOf pathToTry r in
      if negb (SlopResponse.statusCode r' =? 404)%Z then Finished r'
      else tryPaths read contentTypeOf paths' r'
  end.

(** The handler returned by [staticFiles(directory, { indexFile, spaMode })],
    [absDirectory] being the directory made absolute. *)
Definition staticFiles (read : string → option string) (contentTypeOf : string → string)
    (absDirectory indexFile : string) (spaMode : bool)
    (req : SlopRequest.t) (r : SlopResponse.t) : Served :=
  if negb (String.eqb (SlopRequest.method req) "GET") then Continues r
  else tryPaths read contentTypeOf
         (pathsToTry absDirectory indexFile spaMode (cleanPath indexFile req)) r.

(** The handler returned by the variant [staticFiles(directory, indexFile)].
    Its [catch] block is not reached: [sendFile] catches what it raises. *)
Definition staticFilesPlain (read : string → option string)
    (contentTypeOf : string → string) (absDirectory indexFile : string)
    (req : SlopRequest.t) (r : SlopResponse.t) : Served :=
  if negb (String.eqb (SlopRequest.method req) "GET") then Continues r
  else
    let fullPath := (absDirectory ++ "/" ++ cleanPath indexFile req)%string in
    let r' := sendFile read contentTypeOf fullPath r in
    if (SlopResponse.statusCode r' =? 404)%Z then Continues r' else Finished r'.

(** A directory that holds [index.html] and [app.js] only. *)
Definition webDirectory (filePath : string) : option string :=
  if String.eqb filePath "/srv/web/index.html" then Some "<html>"
  else if String.eqb filePath "/srv/web/app.js" then Some "js()"
  else None.

Definition getOf (path : string) : SlopRequest.t :=
  SlopRequest.mk "GET" ("http://localhost" ++ path)%string ∅ path ∅ ∅ BodyNull.

Definition freshResponse : SlopResponse.t := SlopResponse.mk 200 ∅ BodyNull.

(** [s.includes("//")]. *)
Fixpoint hasDoubleSlash (s : string) : bool :=
  match s with
  | EmptyString => false
  | String c rest => Ascii.eqb c "/" && JsString.startsWith "/" rest || hasDoubleSlash rest
  end.

(** The request object with its [params] replaced. *)
Definition withParams (ps : gmap string string) (q : SlopRequest.t) : SlopRequest.t :=
  SlopRequest.mk (SlopRequest.method q) (SlopRequest.url q) (SlopRequest.headers q)
    (SlopRequest.path q) ps (SlopRequest.query q) (SlopRequest.body q).

(** The request object of a dispatch is the one built at its start, with
    [params] empty or set to the parameters of the route selected. *)
Definition requestOf (app : Slop) (request : Request.t) (q : SlopRequest.t) : Prop :=
  q = req (initial request)
  ∨ ∃ i route ps,
      findRoute 0 (routes app) (Request.method request) (Request.pathname request)
      = Some (i, route, ps)
      ∧ q = withParams ps (req (initial request)).

(** ** Runtime selection *)









(** * Theorems *)

Arguments JsString.startsWith : simpl never.
Arguments String.eqb : simpl never.

(** ** The path matcher *)

Example split_slash_users : JsString.split_slash "/users/42" = [""; "users"; "42"]%string.
Proof. reflexivity. Qed.

Example matchPath_users_42 :
  matchPath "/users/42" "/users/:id" = {| matched := true; params := {[ "id" := "42" ]}%string |}.
Proof. reflexivity. Qed.

Example split_slash_empty : JsString.split_slash "" = [""]%string.
Proof. reflexivity. Qed.

Example split_slash_root : JsString.split_slash "/" = [""; ""]%string.
Proof. reflexivity. Qed.

Lemma split_slash_nonempty (s : string) : JsString.split_slash s ≠ [].
Proof.
  induction s as [|c s IH]; simpl; [discriminate|].
  destruct (Ascii.eqb c "/"); [discriminate|].
  destruct (JsString.split_slash s); [contradiction|discriminate].
Qed.

Lemma bindAll_list_to_map (bs : list (string * string)) :
  bindAll ∅ bs = list_to_map (rev bs).
Proof.
  unfold bindAll. rewrite <- fold_left_rev_right.
  induction (rev bs) as [|[k v] l IH]; simpl; [reflexivity|].
  now rewrite IH.
Qed.

Lemma assign_other paramName value params :
  paramName ≠ "__proto__" → assign paramName value params = <[paramName := value]> params.
Proof.
  intros Hne. unfold assign.
  destruct (String.eqb_spec paramName "__proto__"); [contradiction|reflexivity].
Qed.

Lemma assignAll_app acc bs1 bs2 :
  assignAll acc (bs1 ++ bs2) = assignAll (assignAll acc bs1) bs2.
Proof. unfold assignAll. apply fold_left_app. Qed.

Lemma assignAll_bindAll (bs : list (string * string)) : ∀ acc,
  "__proto__" ∉ bs.*1 → assignAll acc bs = bindAll acc bs.
Proof.
  induction bs as [|[k v] bs IH]; intros acc Hfree; [reflexivity|].
  simpl in Hfree. apply not_elem_of_cons in Hfree as [Hk Hfree].
  unfold assignAll, bindAll in *. simpl.
  rewrite assign_other by congruence. now apply IH.
Qed.

Lemma matchSegments_fold (routeParts actualParts : list string) acc :
  length routeParts = length actualParts →
  matchSegments routeParts actualParts acc =
    if forallb segmentAgrees (zip routeParts actualParts)
    then {| matched := true;
            params := assignAll acc (bindingsOf (zip routeParts actualParts)) |}
    else unmatched.
Proof.
  revert actualParts acc.
  induction routeParts as [|r rs IH]; intros [|a acts] acc Hlen; simpl in *;
    try discriminate; [reflexivity|].
  injection Hlen as Hlen.
  unfold bindingsOf in *; simpl.
  unfold segmentAgrees at 1, segmentBinding at 1, isParamSegment; simpl.
  destruct (JsString.startsWith ":" r) eqn:Hr; simpl.
  - rewrite (IH _ _ Hlen). reflexivity.
  - destruct (String.eqb r a); simpl; [|reflexivity].
    rewrite (IH _ _ Hlen). reflexivity.
Qed.

Lemma isParamSegment_shape (r : string) :
  isParamSegment r = true → r = String ":" (JsString.substring1 r).
Proof.
  unfold isParamSegment, JsString.startsWith.
  destruct r as [|c r]; [discriminate|].
  destruct (Ascii.eqb_spec ":" c) as [<-|]; [reflexivity|discriminate].
Qed.

Lemma bindingsOf_app ps1 ps2 :
  bindingsOf (ps1 ++ ps2) = bindingsOf ps1 ++ bindingsOf ps2.
Proof. unfold bindingsOf. now rewrite map_app, concat_app. Qed.

Lemma bindingsOf_key_origin ps name :
  name ∈ (bindingsOf ps).*1 →
  ∃ a, (String ":" name, a) ∈ ps.
Proof.
  induction ps as [|[r a] ps IH]; unfold bindingsOf; simpl.
  - intros H. inversion H.
  - rewrite fmap_app, elem_of_app. intros [H|H].
    + unfold segmentBinding in H. simpl in H.
      destruct (isParamSegment r) eqn:Hr; simpl in H; [|inversion H].
      apply list_elem_of_singleton in H. subst name.
      exists a. rewrite <- (isParamSegment_shape r Hr). left.
    + destruct (IH H) as [a' Ha']. exists a'. now right.
Qed.

Lemma protoFree_bindings actualPath routePattern :
  protoFree routePattern →
  "__proto__" ∉ (bindingsOf (zip (JsString.split_slash routePattern)
                               (JsString.split_slash actualPath))).*1.
Proof.
  intros Hfree Hin. apply bindingsOf_key_origin in Hin as [a Hin].
  apply list_elem_of_lookup in Hin as [i Hi].
  apply lookup_zip_with_Some in Hi as (r & a' & Heq & Hr & _).
  injection Heq as <- <-.
  apply (Hfree ":__proto__"); [|reflexivity].
  apply list_elem_of_lookup. now exists i.
Qed.

Lemma matchPath_is_reference (actualPath routePattern : string) :
  protoFree routePattern →
  matchPath actualPath routePattern = matchPath_reference actualPath routePattern.
Proof.
  intros Hfree. unfold matchPath, matchPath_reference.
  destruct (String.eqb_spec routePattern actualPath) as [->|Hne].
  - rewrite decide_True by reflexivity. reflexivity.
  - rewrite decide_False by congruence.
    destruct (Nat.eqb_spec (length (JsString.split_slash routePattern))
                (length (JsString.split_slash actualPath))) as [Hlen|Hlen]; simpl.
    + rewrite decide_True by assumption.
      rewrite matchSegments_fold by assumption.
      rewrite assignAll_bindAll by now apply protoFree_bindings.
      now rewrite bindAll_list_to_map.
    + now rewrite decide_False by assumption.
Qed.

Lemma matchPath_matched_is_reference (actualPath routePattern : string) :
  matched (matchPath actualPath routePattern)
  = matched (matchPath_reference actualPath routePattern).
Proof.
  unfold matchPath, matchPath_reference.
  destruct (String.eqb_spec routePattern actualPath) as [->|Hne].
  - rewrite decide_True by reflexivity. reflexivity.
  - rewrite decide_False by congruence.
    destruct (Nat.eqb_spec (length (JsString.split_slash routePattern))
                (length (JsString.split_slash actualPath))) as [Hlen|Hlen]; simpl.
    + rewrite decide_True by assumption.
      rewrite matchSegments_fold by assumption.
      now destruct (forallb _ _).
    + now rewrite decide_False by assumption.
Qed.

Lemma matchPath_unmatched_params (actualPath routePattern : string) :
  matched (matchPath actualPath routePattern) = false →
  params (matchPath actualPath routePattern) = ∅.
Proof.
  unfold matchPath.
  destruct (String.eqb routePattern actualPath); [discriminate|].
  destruct (Nat.eqb_spec (length (JsString.split_slash routePattern))
              (length (JsString.split_slash actualPath))) as [Hlen|Hlen]; simpl;
    [|reflexivity].
  rewrite matchSegments_fold by assumption.
  destruct (forallb _ _); simpl; [discriminate|reflexivity].
Qed.

(** C4. [matchPath] computes the four-step algorithm of the design
    document on every path and every pattern that has no segment
    [:__proto__]: equal strings match with no parameter; otherwise both
    are split on [/], a different number of segments is no match, the
    segments are compared pairwise, a segment starting with [:] binds the
    actual segment under its name, a literal segment has to be equal, and
    a mismatch gives no match and no parameter.  On every pair of strings
    the two agree on whether there is a match.  [/users/:id] matches
    [/users/42] with [{id: "42"}] and does not match [/users/42/profile].
    Under the name [__proto__] the code binds nothing where the algorithm
    binds the segment: [matchPath("/x", "/:__proto__")] is a match with
    no parameter. *)
Theorem matchPath_four_steps_but_for_proto :
  (∀ actualPath routePattern,
     protoFree routePattern →
     matchPath actualPath routePattern = matchPath_reference actualPath routePattern)
  ∧ (∀ actualPath routePattern,
       matched (matchPath actualPath routePattern)
       = matched (matchPath_reference actualPath routePattern))
  ∧ (∀ p, matchPath p p = {| matched := true; params := ∅ |})
  ∧ (∀ actualPath routePattern,
       matched (matchPath actualPath routePattern) = false →
       params (matchPath actualPath routePattern) = ∅)
  ∧ matchPath "/users/42" "/users/:id"
      = {| matched := true; params := {[ "id" := "42" ]}%string |}
  ∧ matchPath "/users/42/profile" "/users/:id" = unmatched
  ∧ matchPath "/x" "/:__proto__" = {| matched := true; params := ∅ |}
  ∧ matchPath_reference "/x" "/:__proto__"
      = {| matched := true; params := {[ "__proto__" := "x" ]}%string |}.
Proof.
  split; [exact matchPath_is_reference|].
  split; [exact matchPath_matched_is_reference|].
  split.
  { intros p. unfold matchPath. now rewrite String.eqb_refl. }
  split; [exact matchPath_unmatched_params|].
  repeat split; reflexivity.
Qed.

Lemma matchPath_four_steps_but_for_proto_witness :
  protoFree "/users/:id"
  ∧ matchPath "/users/42" "/users/:id" = matchPath_reference "/users/42" "/users/:id"
  ∧ params (matchPath "/users/42/profile" "/users/:id") = ∅.
Proof.
  assert (Hfree : protoFree "/users/:id").
  { intros seg Hseg.
    change (JsString.split_slash "/users/:id") with [""; "users"; ":id"]%string in Hseg.
    repeat (apply elem_of_cons in Hseg as [->|Hseg]; [discriminate|]).
    inversion Hseg. }
  split; [exact Hfree|]. split.
  - apply (proj1 matchPath_four_steps_but_for_proto). exact Hfree.
  - apply (proj1 (proj2 (proj2 (proj2 matchPath_four_steps_but_for_proto)))). reflexivity.
Defined.

(** *** Repeated names *)

Lemma assignAll_lookup_last acc bs1 name a bs2 :
  name ≠ "__proto__" →
  name ∉ bs2.*1 →
  assignAll acc (bs1 ++ (name, a) :: bs2) !! name = Some a.
Proof.
  intros Hname Hfresh. rewrite assignAll_app.
  generalize (assignAll acc bs1). intros m.
  change (assignAll (assign name a m) bs2 !! name = Some a).
  rewrite assign_other by assumption.
  assert (Hm : <[name := a]> m !! name = Some a) by apply lookup_insert_eq.
  revert Hm. generalize (<[name := a]> m). clear m.
  induction bs2 as [|[k v] bs2 IH]; intros m Hm; [exact Hm|].
  simpl in Hfresh. apply not_elem_of_cons in Hfresh as [Hk Hfresh].
  unfold assignAll in *. simpl. apply IH; [assumption|].
  unfold assign. simpl. destruct (String.eqb k "__proto__"); [exact Hm|].
  now rewrite lookup_insert_ne by congruence.
Qed.

Lemma segmentsAgree_forallb actualPath routePath :
  segmentsAgree actualPath routePath →
  forallb segmentAgrees
    (zip (JsString.split_slash routePath) (JsString.split_slash actualPath)) = true.
Proof.
  intros [_ Hlit]. apply forallb_forall. intros [r a] Hin.
  apply list_elem_of_In, list_elem_of_lookup in Hin as [i Hi].
  apply lookup_zip_with_Some in Hi as (r' & a' & Heq & Hr & Ha).
  injection Heq as <- <-.
  unfold segmentAgrees; simpl.
  destruct (isParamSegment r) eqn:Hp; [reflexivity|].
  rewrite (Hlit i r a Hr Ha Hp). simpl. apply String.eqb_refl.
Qed.

(** C9, as the code has it. Whenever the actual path is not the pattern
    string itself, has as many segments as the pattern and agrees with its
    literal segments, [matchPath] succeeds and binds every parameter name
    other than [__proto__] to the actual segment at the rightmost position
    where the name occurs in the pattern; earlier bindings of that name
    are overwritten. *)
Theorem matchPath_last_binding_wins (actualPath routePath name : string) :
  actualPath ≠ routePath →
  segmentsAgree actualPath routePath →
  name ≠ "__proto__" →
  bindsLast actualPath routePath name.
Proof.
  intros Hne Hagree Hname i a Hr Ha Hlast.
  pose proof (segmentsAgree_forallb _ _ Hagree) as Hall.
  destruct Hagree as [Hlen _].
  unfold matchPath.
  destruct (String.eqb_spec routePath actualPath) as [->|_]; [contradiction|].
  rewrite Hlen, Nat.eqb_refl. simpl.
  rewrite matchSegments_fold by assumption. rewrite Hall. simpl.
  split; [reflexivity|].
  set (ps := zip (JsString.split_slash routePath) (JsString.split_slash actualPath)) in *.
  assert (Hps : ps !! i = Some (String ":" name, a)).
  { unfold ps. apply lookup_zip_with_Some. eauto. }
  rewrite <- (take_drop_middle ps i _ Hps).
  rewrite bindingsOf_app.
  change ((String ":" name, a) :: drop (S i) ps)
    with ([(String ":" name, a)] ++ drop (S i) ps).
  rewrite bindingsOf_app.
  change (bindingsOf [(String ":" name, a)]) with [(name, a)].
  apply assignAll_lookup_last; [assumption|].
  intros Hin. apply bindingsOf_key_origin in Hin as [a' Hin].
  apply list_elem_of_lookup in Hin as [k Hk].
  rewrite lookup_drop in Hk.
  unfold ps in Hk. apply lookup_zip_with_Some in Hk as (r' & a'' & Heq & Hr' & _).
  injection Heq as <- <-.
  apply (Hlast (S i + k)%nat); [lia|assumption].
Qed.

Lemma matchPath_last_binding_wins_witness :
  bindsLast "/7/8" "/:id/:id" "id"
  ∧ params (matchPath "/7/8" "/:id/:id") !! "id" = Some "8".
Proof.
  split; [|reflexivity].
  apply matchPath_last_binding_wins; [discriminate| |discriminate].
  split; [reflexivity|].
  intros [|[|[|i]]] r a Hr Ha; simpl in Hr, Ha; try discriminate;
    injection Hr as <-; injection Ha as <-; intros Hp; try reflexivity;
    discriminate Hp.
Defined.

(** The claim fails on the fast path: a request path equal to the pattern
    string matches with no binding at all. *)
Lemma matchPath_equal_strings_bind_nothing :
  segmentsAgree "/:id/:id" "/:id/:id" ∧ ¬ lastBindingWins "/:id/:id" "/:id/:id".
Proof.
  split.
  - split; [reflexivity|]. intros i r a Hr Ha _. congruence.
  - intros H. destruct (H "id" 2%nat ":id") as [_ Hbound]; try reflexivity.
    + intros [|[|[|j]]] Hj; try lia; simpl; discriminate.
    + vm_compute in Hbound. discriminate Hbound.
Qed.

(** ** Route selection *)

Lemma findRoute_Some_iff (rs : list Route.t) (method path : string) k i route ps :
  findRoute k rs method path = Some (i, route, ps) ↔
  ∃ n, i = (k + n)%nat ∧ rs !! n = Some route ∧ fits method path route = true
       ∧ ps = params (matchPath path (Route.path route))
       ∧ ∀ j r, (j < n)%nat → rs !! j = Some r → fits method path r = false.
Proof.
  revert k. induction rs as [|r0 rs IH]; intros k; simpl.
  - split; [discriminate|]. intros (n & _ & Hn & _). discriminate Hn.
  - assert (Hfit : fits method path r0 =
              (String.eqb (methodName (Route.method r0)) method
               && matched (matchPath path (Route.path r0)))) by reflexivity.
    destruct (String.eqb (methodName (Route.method r0)) method) eqn:Hm;
      [destruct (matched (matchPath path (Route.path r0))) eqn:Hp|]; simpl in Hfit.
    + split.
      * intros [= <- <- <-]. exists 0%nat.
        repeat split; try assumption; try reflexivity; [lia|]. intros j r Hj. lia.
      * intros (n & -> & Hn & Hfn & -> & Hbefore).
        destruct n as [|n].
        -- simpl in Hn. injection Hn as <-. now rewrite Nat.add_0_r.
        -- specialize (Hbefore 0%nat r0 ltac:(lia) eq_refl). congruence.
    + rewrite IH. split.
      * intros (n & -> & Hn & Hfn & -> & Hbefore). exists (S n).
        repeat split; try assumption; [lia|].
        intros [|j] r Hj Hr; simpl in Hr; [congruence|].
        apply (Hbefore j); [lia|assumption].
      * intros (n & -> & Hn & Hfn & -> & Hbefore).
        destruct n as [|n]; simpl in Hn; [congruence|].
        exists n. repeat split; try assumption; [lia|].
        intros j r Hj Hr. apply (Hbefore (S j)); [lia|assumption].
    + rewrite IH. split.
      * intros (n & -> & Hn & Hfn & -> & Hbefore). exists (S n).
        repeat split; try assumption; [lia|].
        intros [|j] r Hj Hr; simpl in Hr; [congruence|].
        apply (Hbefore j); [lia|assumption].
      * intros (n & -> & Hn & Hfn & -> & Hbefore).
        destruct n as [|n]; simpl in Hn; [congruence|].
        exists n. repeat split; try assumption; [lia|].
        intros j r Hj Hr. apply (Hbefore (S j)); [lia|assumption].
Qed.

Lemma findRoute_None_iff (rs : list Route.t) (method path : string) k :
  findRoute k rs method path = None ↔ ∀ r, r ∈ rs → fits method path r = false.
Proof.
  revert k. induction rs as [|r0 rs IH]; intros k; simpl.
  - split; [|reflexivity]. intros _ r Hr. inversion Hr.
  - assert (Hfit : fits method path r0 =
              (String.eqb (methodName (Route.method r0)) method
               && matched (matchPath path (Route.path r0)))) by reflexivity.
    destruct (String.eqb (methodName (Route.method r0)) method) eqn:Hm;
      [destruct (matched (matchPath path (Route.path r0))) eqn:Hp|]; simpl in Hfit.
    + split; [discriminate|]. intros H.
      specialize (H r0 ltac:(left)). congruence.
    + rewrite IH. split.
      * intros H r Hr. apply elem_of_cons in Hr as [->|Hr]; auto.
      * intros H r Hr. apply H. now right.
    + rewrite IH. split.
      * intros H r Hr. apply elem_of_cons in Hr as [->|Hr]; auto.
      * intros H r Hr. apply H. now right.
Qed.

Lemma next_enters_route stack app method path fuel s i route ps :
  findRoute 0 (routes app) method path = Some (i, route, ps) →
  (depth s < stack)%nat →
  next stack app method path (S fuel) None s
  = runHandlers (next stack app method path fuel) i 0 (Route.handlers route)
      (enter (bindParams ps s)).
Proof.
  intros H Hroom. simpl. rewrite H.
  destruct (Nat.leb_spec stack (depth s)); [lia|reflexivity].
Qed.

Lemma next_overflows stack app method path fuel s i route ps :
  findRoute 0 (routes app) method path = Some (i, route, ps) →
  (stack ≤ depth s)%nat →
  next stack app method path fuel None s = Thrown stackOverflow (bindParams ps s).
Proof.
  intros H Hfull. destruct fuel; simpl; rewrite H;
    (destruct (Nat.leb_spec stack (depth s)); [reflexivity|lia]).
Qed.

Lemma next_out_of_fuel stack app method path s i route ps :
  findRoute 0 (routes app) method path = Some (i, route, ps) →
  (depth s < stack)%nat →
  next stack app method path 0 None s = Diverged (bindParams ps s).
Proof.
  intros H Hroom. simpl. rewrite H.
  destruct (Nat.leb_spec stack (depth s)); [lia|reflexivity].
Qed.

Lemma next_no_route stack app method path fuel s :
  findRoute 0 (routes app) method path = None →
  next stack app method path fuel None s = Returned s.
Proof. intros H. destruct fuel; simpl; now rewrite H. Qed.

Lemma next_error stack app method path fuel e s :
  next stack app method path fuel (Some e) s = errorPhase (errorHandlers app) path e s.
Proof. destruct fuel; reflexivity. Qed.

(** C5. The route phase takes the first route in registration order whose
    method is the method of the request and whose pattern matches the
    path, binds the parameters of that match onto the request and runs
    the handlers of that route, or, when the stack has no room for them,
    ends in the error of the engine with the parameters bound; no route
    fits exactly when the search finds none.  With [/users/:id]
    registered before [/users/me], a [GET] of [/users/me] is answered by
    the handler of [/users/:id], which sees [{id: "me"}]; the literal
    route is not invoked. *)
Theorem first_registered_route_wins :
  (∀ rs method path i route ps,
     findRoute 0 rs method path = Some (i, route, ps) ↔
     rs !! i = Some route ∧ fits method path route = true
     ∧ ps = params (matchPath path (Route.path route))
     ∧ ∀ j r, (j < i)%nat → rs !! j = Some r → fits method path r = false)
  ∧ (∀ rs method path,
       findRoute 0 rs method path = None ↔ ∀ r, r ∈ rs → fits method path r = false)
  ∧ (∀ stack app method path fuel s i route ps,
       findRoute 0 (routes app) method path = Some (i, route, ps) →
       ((depth s < stack)%nat →
        next stack app method path (S fuel) None s
        = runHandlers (next stack app method path fuel) i 0 (Route.handlers route)
            (enter (bindParams ps s)))
       ∧ ((stack ≤ depth s)%nat →
          next stack app method path fuel None s
          = Thrown stackOverflow (bindParams ps s)))
  ∧ (∃ r, findRoute 0 (routes usersApp) "GET" "/users/me" = Some (0%nat, r, {[ "id" := "me" ]})
          ∧ Route.path r = "/users/:id")
  ∧ (∀ stack fuel,
       journalOf (dispatch (S stack) (S fuel) usersApp (getRequest "/users/me"))
       = [InvokeRoute 0 0])
  ∧ (∀ stack fuel,
       handleRequest (S stack) (S fuel) usersApp (getRequest "/users/me")
       = Resolved (Response.mk 200 {[ "content-type" := textPlain ]} (BodyText "me"))).
Proof.
  split.
  { intros rs method path i route ps. rewrite findRoute_Some_iff. split.
    - intros (n & -> & H). exact H.
    - intros H. exists i. split; [reflexivity|exact H]. }
  split; [intros; apply findRoute_None_iff|].
  split.
  { intros stack app method path fuel s i route ps H. split; intros Hd.
    - now apply next_enters_route.
    - now apply next_overflows with i route. }
  split; [eexists; split; reflexivity|].
  split; intros stack fuel; reflexivity.
Qed.

Lemma first_registered_route_wins_witness :
  next 1 usersApp "GET" "/users/me" 1 None (initial (getRequest "/users/me"))
  = runHandlers (next 1 usersApp "GET" "/users/me" 0) 0 0 [echoParam "id"]
      (enter (bindParams {[ "id" := "me" ]} (initial (getRequest "/users/me")))).
Proof.
  destruct first_registered_route_wins as (_ & _ & H & _).
  apply (H 1%nat usersApp "GET" "/users/me" 0%nat _ 0%nat
           (Route.mk GET "/users/:id" [echoParam "id"]) {[ "id" := "me" ]} eq_refl).
  simpl. lia.
Defined.

(** ** The journal of a dispatch *)

Lemma appends_refl P s o s' :
  finalState o = Some s' → journal s' = journal s → appends P s o.
Proof.
  intros H Hj. unfold appends. rewrite H. exists [].
  split; [now rewrite app_nil_r|constructor].
Qed.

Lemma appends_mono (P Q : Event → Prop) s o :
  (∀ ev, P ev → Q ev) → appends P s o → appends Q s o.
Proof.
  intros HPQ. unfold appends. destruct (finalState o); [|trivial].
  intros (evs & Hj & Hall). exists evs. split; [assumption|].
  eapply Forall_impl; eassumption.
Qed.

Lemma appends_after P s s1 o evs :
  journal s1 = journal s ++ evs → Forall P evs →
  appends P s1 o → appends P s o.
Proof.
  intros Hj Hevs. unfold appends. destruct (finalState o); [|trivial].
  intros (evs' & Hj' & Hall). exists (evs ++ evs'). split.
  - rewrite Hj', Hj. now rewrite app_assoc.
  - apply Forall_app. split; assumption.
Qed.

Lemma appends_record P ev s o :
  P ev → appends P (record ev s) o → appends P s o.
Proof.
  intros Hev. apply (appends_after P s (record ev s) o [ev]); [reflexivity|].
  now constructor.
Qed.

Lemma appends_withRes P r s o : appends P (withRes r s) o → appends P s o.
Proof. intros H. exact H. Qed.

Lemma appends_from P s o s1 :
  finalState o = Some s1 → ∀ o', appends P s o → appends P s1 o' → appends P s o'.
Proof.
  intros Hfin o' Hfirst. unfold appends in Hfirst. rewrite Hfin in Hfirst.
  destruct Hfirst as (evs & Hj & Hall). eapply appends_after; eassumption.
Qed.

Lemma appends_returned P s s1 o :
  appends P s (Returned s1) → appends P s1 o → appends P s o.
Proof. apply (appends_from P s (Returned s1) s1 eq_refl). Qed.

Lemma appends_thrown P s e s1 o :
  appends P s (Thrown e s1) → appends P s1 o → appends P s o.
Proof. apply (appends_from P s (Thrown e s1) s1 eq_refl). Qed.

Lemma exec_appends (P : Event → Prop) nxt :
  (∀ err, P (Continue err)) →
  (∀ err s, appends P s (nxt err s)) →
  ∀ c s, appends P s (exec nxt c s).
Proof.
  intros HP Hnxt. induction c as [| | | | | |k IH|err k IHk onReject IHr]; intros s; simpl;
    try (eapply appends_refl; reflexivity);
    try (eapply appends_withRes; apply IHc).
  - apply IH.
  - pose proof (Hnxt err (record (Continue err) s)) as Hcall.
    apply (appends_record P (Continue err)); [apply HP|].
    destruct (nxt err (record (Continue err) s)) as [s'|e s'|s'] eqn:Hcalled.
    + eapply appends_returned; [exact Hcall|apply (IHk (unwind s'))].
    + eapply appends_thrown; [exact Hcall|apply (IHr e (unwind s'))].
    + exact Hcall.
Qed.

Lemma noop_appends P err s : appends P s (noop err s).
Proof. eapply appends_refl; reflexivity. Qed.

Lemma belowMiddleware_mono n m ev :
  (n ≤ m)%nat → belowMiddleware n ev → belowMiddleware m ev.
Proof. destruct ev; simpl; try trivial. lia. Qed.

Lemma errorPhaseEvent_below ev : errorPhaseEvent ev → belowMiddleware 0 ev.
Proof. destruct ev; simpl; tauto. Qed.

Lemma errorLoop_appends ehs : ∀ i path e s,
  match errorLoop i ehs path e s with
  | inl o => appends errorPhaseEvent s o
  | inr s' => appends errorPhaseEvent s (Returned s')
  end.
Proof.
  induction ehs as [|eh ehs IH]; intros i path e s; simpl.
  - eapply appends_refl; reflexivity.
  - destruct (prefixMatches (Middleware.path eh) path); [|apply IH].
    pose proof (exec_appends errorPhaseEvent noop (fun _ => I)
                  (noop_appends errorPhaseEvent)
                  (Middleware.handler eh e) (record (InvokeError i) s)) as Hrun.
    apply (appends_record errorPhaseEvent (InvokeError i) s) in Hrun; [|exact I].
    destruct (exec noop (Middleware.handler eh e) (record (InvokeError i) s))
      as [s'|e' s'|s'] eqn:Hexec; try exact Hrun.
    destruct (bodyIsNull s'); [|exact Hrun].
    specialize (IH (S i) path e s').
    destruct (errorLoop (S i) ehs path e s'); eapply appends_returned; eassumption.
Qed.

Lemma errorPhase_appends ehs path e s :
  appends errorPhaseEvent s (errorPhase ehs path e s).
Proof.
  unfold errorPhase. pose proof (errorLoop_appends ehs 0 path e s) as H.
  destruct (errorLoop 0 ehs path e s); exact H.
Qed.

Lemma runHandlers_appends (P : Event → Prop) nxt :
  (∀ err, P (Continue err)) → (∀ i j, P (InvokeRoute i j)) →
  (∀ err s, appends P s (nxt err s)) →
  ∀ hs i j s, appends P s (runHandlers nxt i j hs s).
Proof.
  intros HC HR Hnxt. induction hs as [|h hs IH]; intros i j s; simpl.
  - eapply appends_refl; reflexivity.
  - pose proof (exec_appends P nxt HC Hnxt h (record (InvokeRoute i j) s)) as Hrun.
    apply (appends_record P (InvokeRoute i j) s) in Hrun; [|apply HR].
    destruct (exec nxt h (record (InvokeRoute i j) s)) as [s'|e' s'|s']; try exact Hrun.
    destruct (bodyIsNull s'); [|exact Hrun].
    eapply appends_returned; [exact Hrun|apply IH].
Qed.

(** How a property of the outcome of [next()] is proved: for the three
    ways in which the call ends without running a handler, and for the
    handler chain of the matched route, run against a continuation that
    has the property. *)
Lemma next_none_ind (Q : Dispatch → Outcome → Prop) stack app method path :
  (findRoute 0 (routes app) method path = None → ∀ s, Q s (Returned s)) →
  (∀ i route ps,
     findRoute 0 (routes app) method path = Some (i, route, ps) →
     (∀ s, (stack ≤ depth s)%nat → Q s (Thrown stackOverflow (bindParams ps s)))
     ∧ (∀ s, (depth s < stack)%nat → Q s (Diverged (bindParams ps s)))
     ∧ (∀ fuel s,
          (∀ s', Q s' (next stack app method path fuel None s')) →
          (depth s < stack)%nat →
          Q s (runHandlers (next stack app method path fuel) i 0 (Route.handlers route)
                 (enter (bindParams ps s))))) →
  ∀ fuel s, Q s (next stack app method path fuel None s).
Proof.
  intros Hnone Hsome.
  destruct (findRoute 0 (routes app) method path) as [[[i route] ps]|] eqn:Hfind.
  - destruct (Hsome i route ps eq_refl) as (Hfull & Hcut & Hrun).
    induction fuel as [|fuel IH]; intros s;
      destruct (Nat.leb_spec stack (depth s)) as [Hd|Hd];
      try (rewrite (next_overflows _ _ _ _ _ _ _ _ _ Hfind Hd); now apply Hfull).
    + rewrite (next_out_of_fuel _ _ _ _ _ _ _ _ Hfind Hd). now apply Hcut.
    + rewrite (next_enters_route _ _ _ _ _ _ _ _ _ Hfind Hd). now apply Hrun.
  - intros fuel s. rewrite next_no_route by assumption. now apply Hnone.
Qed.

Lemma next_appends stack app method path fuel : ∀ err s,
  appends (belowMiddleware 0) s (next stack app method path fuel err s).
Proof.
  intros [e|].
  - intros s. rewrite next_error. eapply appends_mono;
      [exact errorPhaseEvent_below|apply errorPhase_appends].
  - revert fuel. apply next_none_ind.
    + intros _ s. eapply appends_refl; reflexivity.
    + intros i route ps Hfind.
      split; [intros s _; eapply appends_refl; reflexivity|].
      split; [intros s _; eapply appends_refl; reflexivity|].
      intros fuel s IH _.
      change (appends (belowMiddleware 0) (enter (bindParams ps s))
                (runHandlers (next stack app method path fuel) i 0 (Route.handlers route)
                   (enter (bindParams ps s)))).
      apply (runHandlers_appends (belowMiddleware 0)); try (intros; exact I).
      intros [e|] s'; [|apply IH].
      rewrite next_error. eapply appends_mono;
        [exact errorPhaseEvent_below|apply errorPhase_appends].
Qed.

Lemma runMiddleware_appends nxt path :
  (∀ err s, appends (belowMiddleware 0) s (nxt err s)) →
  ∀ mws i s, appends (belowMiddleware (i + length mws)) s (runMiddleware nxt i mws path s).
Proof.
  intros Hnxt. induction mws as [|mw mws IH]; intros i s; simpl.
  - eapply appends_refl; reflexivity.
  - assert (Hlater : ∀ s', appends (belowMiddleware (i + S (length mws))) s'
                              (runMiddleware nxt (S i) mws path s')).
    { intros s'. replace (i + S (length mws))%nat with (S i + length mws)%nat by lia.
      apply IH. }
    destruct (prefixMatches (Middleware.path mw) path); [|apply Hlater].
    assert (Hrun : appends (belowMiddleware (i + S (length mws))) s
                     (exec nxt (Middleware.handler mw) (record (InvokeMiddleware i) s))).
    { apply (appends_record _ (InvokeMiddleware i)); [simpl; lia|].
      apply exec_appends; [intros; exact I|].
      intros err s'. eapply appends_mono; [|apply Hnxt].
      intros ev. apply belowMiddleware_mono. lia. }
    destruct (exec nxt (Middleware.handler mw) (record (InvokeMiddleware i) s))
      as [s'|e' s'|s']; try exact Hrun.
    destruct (bodyIsNull s'); [|exact Hrun].
    eapply appends_returned; [exact Hrun|apply Hlater].
Qed.

(** ** The middleware loop *)

Lemma runMiddleware_app nxt path pre post : ∀ i s,
  bodyIsNull s = true →
  runMiddleware nxt i (pre ++ post) path s =
    match runMiddleware nxt i pre path s with
    | Returned s1 =>
        if bodyIsNull s1 then runMiddleware nxt (i + length pre) post path s1
        else Returned s1
    | other => other
    end.
Proof.
  induction pre as [|mw pre IH]; intros i s Hnull; simpl.
  - now rewrite Hnull, Nat.add_0_r.
  - replace (i + S (length pre))%nat with (S i + length pre)%nat by lia.
    destruct (prefixMatches (Middleware.path mw) path); [|now apply IH].
    destruct (exec nxt (Middleware.handler mw) (record (InvokeMiddleware i) s))
      as [s'|e' s'|s']; try reflexivity.
    destruct (bodyIsNull s') eqn:Hs'; [now apply IH|].
    now rewrite Hs'.
Qed.

Lemma dispatch_from_entry stack fuel app request pre mw post s1 s2 :
  invokedAt stack fuel app request pre mw post s1 s2 →
  dispatch stack fuel app request =
    let nxt := next stack app (Request.method request) (Request.pathname request) fuel in
    if bodyIsNull s2
    then match runMiddleware nxt (S (length pre)) post (Request.pathname request) s2 with
         | Returned s3 => routePhase nxt s3
         | other => other
         end
    else Returned s2.
Proof.
  intros (Hmws & Hpre & Hnull1 & Hmatch & Hexec). unfold dispatch. simpl.
  rewrite Hmws, runMiddleware_app by reflexivity.
  rewrite Hpre, Hnull1. simpl. rewrite Hmatch, Hexec.
  destruct (bodyIsNull s2) eqn:Hnull2; [reflexivity|].
  unfold routePhase. now rewrite Hnull2.
Qed.

Lemma dispatch_rejected stack fuel app request pre mw post s1 e s2 :
  rejectedAt stack fuel app request pre mw post s1 e s2 →
  dispatch stack fuel app request = Thrown e s2.
Proof.
  intros (Hmws & Hpre & Hnull1 & Hmatch & Hexec). unfold dispatch. simpl.
  rewrite Hmws, runMiddleware_app by reflexivity.
  rewrite Hpre, Hnull1. simpl. now rewrite Hmatch, Hexec.
Qed.

Lemma guarded_app evs1 evs2 : guarded evs1 → guarded evs2 → guarded (evs1 ++ evs2).
Proof.
  intros H1 H2 i j Hin. rewrite elem_of_app in Hin |- *.
  destruct Hin as [Hin|Hin]; [left; eapply H1|right; eapply H2]; exact Hin.
Qed.

Lemma guarded_error_phase evs : Forall errorPhaseEvent evs → guarded evs.
Proof.
  intros Hall i j Hin. rewrite Forall_forall in Hall. destruct (Hall _ Hin).
Qed.

Lemma guarded_continue evs : guarded (Continue None :: evs).
Proof. intros i j _. left. Qed.

Lemma guarded_single ev : (∀ i j, ev ≠ InvokeRoute i j) → guarded [ev].
Proof.
  intros Hev i j Hin. apply list_elem_of_singleton in Hin. symmetry in Hin.
  destruct (Hev _ _ Hin).
Qed.

Lemma guardedGrowth_refl s o s' :
  finalState o = Some s' → journal s' = journal s → guardedGrowth s o.
Proof.
  intros H Hj. unfold guardedGrowth. rewrite H. exists [].
  split; [now rewrite app_nil_r|]. intros i j Hin. inversion Hin.
Qed.

Lemma guardedGrowth_after s s1 o evs :
  journal s1 = journal s ++ evs → guarded evs →
  guardedGrowth s1 o → guardedGrowth s o.
Proof.
  intros Hj Hevs. unfold guardedGrowth. destruct (finalState o); [|trivial].
  intros (evs' & Hj' & Hg). exists (evs ++ evs'). split.
  - rewrite Hj', Hj. now rewrite app_assoc.
  - now apply guarded_app.
Qed.

Lemma exec_guarded nxt :
  (∀ e s, appends errorPhaseEvent s (nxt (Some e) s)) →
  (∀ s, appends (fun _ => True) s (nxt None s)) →
  ∀ c s, guardedGrowth s (exec nxt c s).
Proof.
  intros Herr Hnone.
  induction c as [| | | | | |k IH|err k IHk onReject IHr]; intros s; simpl;
    try (eapply guardedGrowth_refl; reflexivity); try apply (IHc (withRes _ s)).
  - apply IH.
  - assert (Hcall : ∀ s1, finalState (nxt err (record (Continue err) s)) = Some s1 →
                          ∃ evs, journal s1 = journal s ++ evs ∧ guarded evs).
    { intros s1 Hs1. destruct err as [e|].
      - pose proof (Herr e (record (Continue (Some e)) s)) as H.
        unfold appends in H. rewrite Hs1 in H. destruct H as (evs & Hj & Hall).
        exists (Continue (Some e) :: evs). split.
        + rewrite Hj. simpl. now rewrite <- app_assoc.
        + apply guarded_error_phase. constructor; [exact I|exact Hall].
      - pose proof (Hnone (record (Continue None) s)) as H.
        unfold appends in H. rewrite Hs1 in H. destruct H as (evs & Hj & _).
        exists (Continue None :: evs). split.
        + rewrite Hj. simpl. now rewrite <- app_assoc.
        + apply guarded_continue. }
    destruct (nxt err (record (Continue err) s)) as [s1|e1 s1|s1];
      destruct (Hcall s1 eq_refl) as (evs & Hj & Hg).
    + eapply guardedGrowth_after; [exact Hj|exact Hg|apply (IHk (unwind s1))].
    + eapply guardedGrowth_after; [exact Hj|exact Hg|apply (IHr e1 (unwind s1))].
    + exists evs. now split.
Qed.

Lemma runMiddleware_guarded nxt path :
  (∀ e s, appends errorPhaseEvent s (nxt (Some e) s)) →
  (∀ s, appends (fun _ => True) s (nxt None s)) →
  ∀ mws i s, guardedGrowth s (runMiddleware nxt i mws path s).
Proof.
  intros Herr Hnone. induction mws as [|mw mws IH]; intros i s; simpl.
  - eapply guardedGrowth_refl; reflexivity.
  - destruct (prefixMatches (Middleware.path mw) path); [|apply IH].
    assert (Hrun : guardedGrowth s (exec nxt (Middleware.handler mw)
                                      (record (InvokeMiddleware i) s))).
    { apply (guardedGrowth_after s (record (InvokeMiddleware i) s) _ [InvokeMiddleware i]);
        [reflexivity|apply guarded_single; discriminate|].
      now apply exec_guarded. }
    destruct (exec nxt (Middleware.handler mw) (record (InvokeMiddleware i) s))
      as [s'|e' s'|s']; try exact Hrun.
    destruct (bodyIsNull s'); [|exact Hrun].
    destruct Hrun as (evs & Hj & Hg). simpl in Hj.
    eapply guardedGrowth_after; [exact Hj|exact Hg|apply IH].
Qed.

Lemma next_error_appends stack app method path fuel e s :
  appends errorPhaseEvent s (next stack app method path fuel (Some e) s).
Proof. rewrite next_error. apply errorPhase_appends. Qed.

Lemma next_grows stack app method path fuel s :
  appends (fun _ => True) s (next stack app method path fuel None s).
Proof. eapply appends_mono; [|apply next_appends]. trivial. Qed.

(** C1, as the code has it. When the handler of a prefix-matching
    middleware entry returns and the response body is not null, the
    dispatch is over: its final state is the state at that return, so
    nothing is invoked afterwards, no middleware entry registered later
    has been invoked at all, and the promise resolves with the response
    built from the response object as it stands at that return.  A route
    handler has been invoked only if a middleware handler has itself
    called the continuation. *)
Theorem responder_ends_dispatch stack fuel app request pre mw post s1 s2 :
  invokedAt stack fuel app request pre mw post s1 s2 →
  bodyIsNull s2 = false →
  dispatch stack fuel app request = Returned s2
  ∧ handleRequest stack fuel app request = respond s2
  ∧ (∀ k, InvokeMiddleware k ∈ journal s2 → (k ≤ length pre)%nat)
  ∧ (∀ i j, InvokeRoute i j ∈ journal s2 → Continue None ∈ journal s2).
Proof.
  intros Hinv Hbody.
  pose proof (dispatch_from_entry _ _ _ _ _ _ _ _ _ Hinv) as Hd.
  simpl in Hd. rewrite Hbody in Hd.
  split; [exact Hd|]. split; [unfold handleRequest; now rewrite Hd|].
  destruct Hinv as (Hmws & Hpre & Hnull1 & Hmatch & Hexec).
  set (nxt := next stack app (Request.method request) (Request.pathname request) fuel) in *.
  split.
  - pose proof (runMiddleware_appends nxt (Request.pathname request)
                  (next_appends _ _ _ _ _) pre 0%nat (initial request)) as H1.
    rewrite Hpre in H1. simpl in H1.
    pose proof (exec_appends (belowMiddleware (S (length pre))) nxt (fun _ => I)) as H2.
    specialize (H2 (fun err s => appends_mono _ _ _ _
                     (fun ev => belowMiddleware_mono 0 _ ev ltac:(lia))
                     (next_appends _ _ _ _ _ err s))).
    specialize (H2 (Middleware.handler mw) (record (InvokeMiddleware (length pre)) s1)).
    rewrite Hexec in H2.
    destruct H1 as (evs1 & Hj1 & Hall1). destruct H2 as (evs2 & Hj2 & Hall2).
    simpl in Hj1, Hj2. rewrite Hj2, Hj1.
    intros k Hk. rewrite !elem_of_app in Hk.
    destruct Hk as [[Hk|Hk]|Hk].
    + rewrite Forall_forall in Hall1. apply Hall1 in Hk. simpl in Hk. lia.
    + apply list_elem_of_singleton in Hk. injection Hk as ->. lia.
    + rewrite Forall_forall in Hall2. apply Hall2 in Hk. simpl in Hk. lia.
  - pose proof (runMiddleware_guarded nxt (Request.pathname request)
                  (next_error_appends _ _ _ _ _) (next_grows _ _ _ _ _)
                  pre 0%nat (initial request)) as H1.
    rewrite Hpre in H1.
    pose proof (exec_guarded nxt (next_error_appends _ _ _ _ _) (next_grows _ _ _ _ _)
                  (Middleware.handler mw) (record (InvokeMiddleware (length pre)) s1)) as H2.
    rewrite Hexec in H2.
    destruct H1 as (evs1 & Hj1 & Hg1). destruct H2 as (evs2 & Hj2 & Hg2).
    simpl in Hj1, Hj2. rewrite Hj2, Hj1.
    rewrite <- app_assoc.
    apply guarded_app; [exact Hg1|].
    apply guarded_app; [apply guarded_single; discriminate|exact Hg2].
Qed.

Lemma responder_ends_dispatch_witness :
  ∃ s2, invokedAt 1 1 answerThenContinue (getRequest "/x") []
          (Middleware.mk "*" (Send (BodyText "A") (Await None Return Throw))) []
          (initial (getRequest "/x")) s2
        ∧ bodyIsNull s2 = false
        ∧ dispatch 1 1 answerThenContinue (getRequest "/x") = Returned s2
        ∧ handleRequest 1 1 answerThenContinue (getRequest "/x") = respond s2.
Proof.
  eexists. split; [repeat split; reflexivity|]. split; [reflexivity|].
  split; eapply (responder_ends_dispatch 1 1 answerThenContinue (getRequest "/x") []
                   (Middleware.mk "*" (Send (BodyText "A") (Await None Return Throw))) []
                   (initial (getRequest "/x")));
    try reflexivity; repeat split; reflexivity.
Defined.

(** The claim as worded fails when the entry that answers also calls the
    continuation: the handler of the route runs inside that call. *)
Lemma responder_may_reach_route :
  ¬ firstResponderWins 1 1 answerThenContinue (getRequest "/x").
Proof.
  intros H.
  edestruct (H [] (Middleware.mk "*" (Send (BodyText "A") (Await None Return Throw))) [])
    as (_ & Hroute & _).
  - repeat split; reflexivity.
  - reflexivity.
  - apply (Hroute 0%nat 0%nat).
    change (journalOf (dispatch 1 1 answerThenContinue (getRequest "/x")))
      with [InvokeMiddleware 0; Continue None; InvokeRoute 0 0].
    set_solver.
Qed.

(** C6, as the code has it. The dispatcher advances by itself: when the
    handler of a middleware entry returns and the body is still null,
    whether or not the handler has called the continuation, the loop goes
    on with the entries registered after it and, if the body is still
    null after the last of them, with the route phase; in the same way
    the loop over the handlers of the matched route goes on to the next
    handler while the body is null.  Calling the continuation runs the
    route phase, or the error phase, inside the calling handler. *)
Theorem dispatcher_advances_by_itself stack fuel app request pre mw post s1 s2 :
  invokedAt stack fuel app request pre mw post s1 s2 →
  bodyIsNull s2 = true →
  dispatch stack fuel app request =
    (let nxt := next stack app (Request.method request) (Request.pathname request) fuel in
     match runMiddleware nxt (S (length pre)) post (Request.pathname request) s2 with
     | Returned s3 => routePhase nxt s3
     | other => other
     end)
  ∧ (∀ nxt i j h hs s s',
       exec nxt h (record (InvokeRoute i j) s) = Returned s' →
       bodyIsNull s' = true →
       runHandlers nxt i j (h :: hs) s = runHandlers nxt i (S j) hs s').
Proof.
  intros Hinv Hnull. split.
  - rewrite (dispatch_from_entry _ _ _ _ _ _ _ _ _ Hinv). simpl. now rewrite Hnull.
  - intros nxt i j h hs s s' Hexec Hs'. simpl. now rewrite Hexec, Hs'.
Qed.

Lemma dispatcher_advances_by_itself_witness :
  invokedAt 1 0 idleThenAnswer (getRequest "/x") []
    (Middleware.mk "*" Return) [Middleware.mk "*" (Send (BodyText "B") Return)]
    (initial (getRequest "/x")) (record (InvokeMiddleware 0) (initial (getRequest "/x")))
  ∧ journalOf (dispatch 1 0 idleThenAnswer (getRequest "/x"))
    = [InvokeMiddleware 0; InvokeMiddleware 1]
  ∧ dispatch 1 0 idleThenAnswer (getRequest "/x") =
      match runMiddleware (next 1 idleThenAnswer "GET" "/x" 0) 1
              [Middleware.mk "*" (Send (BodyText "B") Return)] "/x"
              (record (InvokeMiddleware 0) (initial (getRequest "/x"))) with
      | Returned s3 => routePhase (next 1 idleThenAnswer "GET" "/x" 0) s3
      | other => other
      end.
Proof.
  split; [repeat split; reflexivity|]. split; [reflexivity|].
  apply (dispatcher_advances_by_itself 1 0 idleThenAnswer (getRequest "/x") []
           (Middleware.mk "*" Return) [Middleware.mk "*" (Send (BodyText "B") Return)]
           (initial (getRequest "/x")));
    [repeat split; reflexivity|reflexivity].
Defined.

(** The claim as worded fails: a middleware handler that returns at once
    is followed by the next entry. *)
Lemma idle_middleware_is_followed :
  ¬ continuationOnlyAdvance 1 0 idleThenAnswer (getRequest "/x").
Proof.
  intros H.
  specialize (H [] (Middleware.mk "*" Return)
                [Middleware.mk "*" (Send (BodyText "B") Return)]
                (initial (getRequest "/x"))
                (record (InvokeMiddleware 0) (initial (getRequest "/x")))).
  assert (Hfalse : journalOf (dispatch 1 0 idleThenAnswer (getRequest "/x"))
                   = [InvokeMiddleware 0]).
  { apply H; [repeat split; reflexivity|reflexivity|reflexivity]. }
  discriminate Hfalse.
Qed.

(** ** The response *)

Lemma newResponse_status b st hs r :
  newResponse b st hs = inl r → (200 ≤ Response.status r ≤ 599)%Z.
Proof.
  unfold newResponse.
  destruct (Z.ltb_spec (st mod 65536) 200); [discriminate|].
  destruct (Z.ltb_spec 599 (st mod 65536)); [discriminate|]. simpl.
  destruct (negb (isNull b) && nullBodyStatus (st mod 65536)); [discriminate|].
  intros [= <-]. simpl. lia.
Qed.

Lemma respond_null s : bodyIsNull s = true → respond s = Resolved notFound.
Proof. intros H. unfold respond. now rewrite H. Qed.

Lemma respond_resolves s :
  ∃ r, respond s = Resolved r ∧ (200 ≤ Response.status r ≤ 599)%Z.
Proof.
  unfold respond.
  destruct (if bodyIsNull s then _ else _) as [r|err] eqn:Hmade.
  - exists r. split; [reflexivity|].
    destruct (bodyIsNull s); eapply newResponse_status; exact Hmade.
  - exists serverError. split; [reflexivity|]. simpl. lia.
Qed.

Lemma handleRequest_thrown stack fuel app request e s :
  dispatch stack fuel app request = Thrown e s →
  handleRequest stack fuel app request = Resolved serverError.
Proof. intros Hd. unfold handleRequest. now rewrite Hd. Qed.

(** ** The error phase *)

Lemma settles_exec nxt :
  (∀ err s, settles (nxt err s)) → ∀ c s, settles (exec nxt c s).
Proof.
  intros Hnxt. induction c as [| | | | | |k IH|err k IHk onReject IHr]; intros s; simpl;
    try exact I; try apply IHc.
  - apply IH.
  - specialize (Hnxt err (record (Continue err) s)).
    destruct (nxt err (record (Continue err) s)); [apply IHk|apply IHr|exact Hnxt].
Qed.

Lemma exec_noop_settles c s : settles (exec noop c s).
Proof. apply settles_exec. intros err s'. exact I. Qed.

Lemma exec_noop_continues c s : appends continueEvent s (exec noop c s).
Proof.
  apply exec_appends; [intros; exact I|]. intros. apply noop_appends.
Qed.

Lemma invokedErrors_app evs1 evs2 :
  invokedErrors (evs1 ++ evs2) = invokedErrors evs1 ++ invokedErrors evs2.
Proof. unfold invokedErrors. apply omap_app. Qed.

Lemma invokedErrors_continue evs : Forall continueEvent evs → invokedErrors evs = [].
Proof.
  induction 1 as [|ev evs Hev _ IH]; [reflexivity|].
  destruct ev; try contradiction. exact IH.
Qed.

Lemma continueEvent_errorPhase evs : Forall continueEvent evs → Forall errorPhaseEvent evs.
Proof. intros H. eapply Forall_impl; [exact H|]. intros []; simpl; tauto. Qed.

(** What one invocation of an error handler adds to the journal. *)
Lemma invokeError_journal (h : ErrorHandler) i e s s' :
  finalState (exec noop (h e) (record (InvokeError i) s)) = Some s' →
  ∃ evs, journal s' = journal s ++ evs ∧ Forall errorPhaseEvent evs
         ∧ invokedErrors evs = [i].
Proof.
  intros Hfin. pose proof (exec_noop_continues (h e) (record (InvokeError i) s)) as Happ.
  unfold appends in Happ. rewrite Hfin in Happ. destruct Happ as (evs & Hj & Hall).
  exists (InvokeError i :: evs). simpl in Hj. split; [|split].
  - rewrite Hj. now rewrite <- app_assoc.
  - constructor; [exact I|now apply continueEvent_errorPhase].
  - change (i :: invokedErrors evs = [i]). now rewrite invokedErrors_continue.
Qed.

Lemma errorLoop_journal ehs : ∀ i path e s,
  match errorLoop i ehs path e s with
  | inr s' =>
      ∃ evs, journal s' = journal s ++ evs ∧ Forall errorPhaseEvent evs
             ∧ invokedErrors evs = matchingErrorHandlers i ehs path
  | inl o =>
      settles o
      ∧ (∀ s', o = Returned s' → bodyIsNull s' = false)
      ∧ ∃ s' evs, finalState o = Some s' ∧ journal s' = journal s ++ evs
                  ∧ Forall errorPhaseEvent evs
                  ∧ invokedErrors evs `prefix_of` matchingErrorHandlers i ehs path
  end.
Proof.
  induction ehs as [|eh ehs IH]; intros i path e s; simpl.
  - exists []. split; [now rewrite app_nil_r|]. split; [constructor|reflexivity].
  - destruct (prefixMatches (Middleware.path eh) path); [|apply IH].
    pose proof (invokeError_journal (Middleware.handler eh) i e s) as Hone.
    pose proof (exec_noop_settles (Middleware.handler eh e) (record (InvokeError i) s))
      as Hsettles.
    destruct (exec noop (Middleware.handler eh e) (record (InvokeError i) s))
      as [s1|e1 s1|s1]; [| |contradiction].
    + destruct (Hone s1 eq_refl) as (evs1 & Hj1 & Hall1 & Hinv1).
      destruct (bodyIsNull s1) eqn:Hnull.
      * specialize (IH (S i) path e s1).
        destruct (errorLoop (S i) ehs path e s1) as [o|s2].
        -- destruct IH as (Hset & Hbody & s' & evs & Hfin & Hj & Hall & Hpre).
           split; [exact Hset|]. split; [exact Hbody|]. exists s', (evs1 ++ evs).
           split; [exact Hfin|]. split; [rewrite Hj, Hj1; now rewrite app_assoc|].
           split; [apply Forall_app; now split|].
           rewrite invokedErrors_app, Hinv1. now apply prefix_cons.
        -- destruct IH as (evs & Hj & Hall & Hinv).
           exists (evs1 ++ evs). split; [rewrite Hj, Hj1; now rewrite app_assoc|].
           split; [apply Forall_app; now split|].
           rewrite invokedErrors_app, Hinv1, Hinv. reflexivity.
      * split; [exact I|]. split; [intros s' [= <-]; exact Hnull|].
        exists s1, evs1. repeat split; try assumption.
        rewrite Hinv1. apply prefix_cons, prefix_nil.
    + destruct (Hone s1 eq_refl) as (evs1 & Hj1 & Hall1 & Hinv1).
      split; [exact I|]. split; [discriminate|].
      exists s1, evs1. repeat split; try assumption.
      rewrite Hinv1. apply prefix_cons, prefix_nil.
Qed.

Lemma errorLoop_app pre post path e : ∀ i s,
  errorLoop i (pre ++ post) path e s =
    match errorLoop i pre path e s with
    | inr s1 => errorLoop (i + length pre) post path e s1
    | inl o => inl o
    end.
Proof.
  induction pre as [|eh pre IH]; intros i s; simpl.
  - now rewrite Nat.add_0_r.
  - replace (i + S (length pre))%nat with (S i + length pre)%nat by lia.
    destruct (prefixMatches (Middleware.path eh) path); [|apply IH].
    destruct (exec noop (Middleware.handler eh e) (record (InvokeError i) s))
      as [s'|e' s'|s']; try reflexivity.
    destruct (bodyIsNull s'); [apply IH|reflexivity].
Qed.

Lemma errorPhase_settles ehs path e s : settles (errorPhase ehs path e s).
Proof.
  unfold errorPhase. pose proof (errorLoop_journal ehs 0 path e s) as H.
  destruct (errorLoop 0 ehs path e s) as [o|s']; [exact (proj1 H)|exact I].
Qed.

Lemma next_error_settles stack app method path fuel e s :
  settles (next stack app method path fuel (Some e) s).
Proof. rewrite next_error. apply errorPhase_settles. Qed.

(** C2, as the code has it. A call of the continuation with an error
    runs the error phase and nothing else, whatever the stack and the
    fuel: the call settles; the handlers it invokes are error handlers
    whose filter is ["*"] or a prefix of the path, taken in registration
    order without skipping one, each run against the no-op continuation;
    the scan ends behind the first of them that returns with a body which
    is not null, and the call then returns to the calling handler; when
    the loop runs to its end, every matching error handler has been
    invoked and the error is thrown again into the calling handler.  No
    middleware entry and no route handler is invoked by the call; what
    runs after it is decided by the handlers that wait for it.  The
    dispatcher itself goes no further when the handler of a middleware
    entry ends in an exception, which is answered by the generic 500
    response, or returns with a body which is not null. *)
Theorem error_phase_contract stack app method path fuel e s :
  let o := next stack app method path fuel (Some e) s in
  settles o
  ∧ (∃ s' evs, finalState o = Some s' ∧ journal s' = journal s ++ evs
               ∧ Forall errorPhaseEvent evs
               ∧ invokedErrors evs `prefix_of` matchingErrorHandlers 0 (errorHandlers app) path)
  ∧ (∀ s', o = Returned s' → bodyIsNull s' = false)
  ∧ (∀ pre eh post s1 s2,
       errorHandlers app = pre ++ eh :: post →
       errorLoop 0 pre path e s = inr s1 →
       prefixMatches (Middleware.path eh) path = true →
       exec noop (Middleware.handler eh e) (record (InvokeError (length pre)) s1)
         = Returned s2 →
       bodyIsNull s2 = false →
       o = Returned s2)
  ∧ (∀ s', errorLoop 0 (errorHandlers app) path e s = inr s' →
       o = Thrown e s'
       ∧ ∃ evs, journal s' = journal s ++ evs
                ∧ invokedErrors evs = matchingErrorHandlers 0 (errorHandlers app) path)
  ∧ (∀ request pre mw post s1 e' s2,
       rejectedAt stack fuel app request pre mw post s1 e' s2 →
       dispatch stack fuel app request = Thrown e' s2
       ∧ handleRequest stack fuel app request = Resolved serverError)
  ∧ (∀ request pre mw post s1 s2,
       invokedAt stack fuel app request pre mw post s1 s2 →
       bodyIsNull s2 = false →
       dispatch stack fuel app request = Returned s2).
Proof.
  simpl. split; [apply next_error_settles|].
  rewrite next_error. unfold errorPhase.
  pose proof (errorLoop_journal (errorHandlers app) 0 path e s) as Hj.
  split; [|split; [|split; [|split; [|split]]]];
    [| | | |intros request pre mw post s1 e' s2 Hrej;
            pose proof (dispatch_rejected _ _ _ _ _ _ _ _ _ _ Hrej) as Hd;
            split; [exact Hd|now apply handleRequest_thrown with e' s2]
     |intros request pre mw post s1 s2 Hinv Hbody;
      rewrite (dispatch_from_entry _ _ _ _ _ _ _ _ _ Hinv); simpl; now rewrite Hbody].
  - destruct (errorLoop 0 (errorHandlers app) path e s) as [o|s'].
    + destruct Hj as (_ & _ & s' & evs & Hfin & Hrest). exists s', evs. now split.
    + destruct Hj as (evs & Hjs & Hall & Hinv). exists s', evs.
      repeat split; try assumption. now rewrite Hinv.
  - destruct (errorLoop 0 (errorHandlers app) path e s) as [o|s'];
      [exact (proj1 (proj2 Hj))|discriminate].
  - intros pre eh post s1 s2 Hehs Hpre Hmatch Hexec Hbody.
    rewrite Hehs, errorLoop_app, Hpre. simpl.
    now rewrite Hmatch, Hexec, Hbody.
  - intros s' Hend. rewrite Hend in Hj |- *. split; [reflexivity|].
    destruct Hj as (evs & Hjs & _ & Hinv). now exists evs.
Qed.

Lemma error_phase_contract_witness :
  let o := next 1 threeErrorHandlers "GET" "/x" 0 (Some "boom") (initial (getRequest "/x")) in
  journalOf o = [InvokeError 0; Continue None; InvokeError 1]
  ∧ (∀ s', o = Returned s' → bodyIsNull s' = false)
  ∧ (∃ s2, o = Returned s2)
  ∧ ∃ s2, rejectedAt 1 1 signalInRoute (getRequest "/x") []
            (Middleware.mk "*" (Await None Return Throw)) []
            (initial (getRequest "/x")) "boom" s2
          ∧ dispatch 1 1 signalInRoute (getRequest "/x") = Thrown "boom" s2
          ∧ handleRequest 1 1 signalInRoute (getRequest "/x") = Resolved serverError.
Proof.
  split; [reflexivity|]. split; [|split].
  - exact (proj1 (proj2 (proj2 (error_phase_contract 1 threeErrorHandlers "GET" "/x" 0 "boom"
                                  (initial (getRequest "/x")))))).
  - eexists.
    refine (proj1 (proj2 (proj2 (proj2 (error_phase_contract 1 threeErrorHandlers "GET" "/x"
                                          0 "boom" (initial (getRequest "/x"))))))
              [Middleware.mk "*" (fun _ => Await None Return Throw)]
              (Middleware.mk "*" (fun _ => Status 500 (Json "{}" Return)))
              [Middleware.mk "*" (fun _ => Send (BodyText "late") Return)]
              _ _ eq_refl eq_refl eq_refl eq_refl eq_refl).
  - eexists. split; [repeat split; reflexivity|].
    apply (proj1 (proj2 (proj2 (proj2 (proj2 (proj2
             (error_phase_contract 1 signalInRoute "GET" "/x" 1 "boom"
                (initial (getRequest "/x"))))))))
             (getRequest "/x") [] (Middleware.mk "*" (Await None Return Throw)) []
             (initial (getRequest "/x"))).
    repeat split; reflexivity.
Defined.

(** The claim as worded fails when the calling handler does not let the
    rejection of the continuation through: the next middleware entry runs. *)
Lemma chain_resumes_after_swallowed_error :
  ¬ errorStopsChain 1 0 swallowThenAnswer (getRequest "/x").
Proof.
  intros H.
  specialize (H [InvokeMiddleware 0] "boom" [InvokeMiddleware 1] eq_refl).
  inversion H as [|ev evs Hev _]. exact Hev.
Qed.

(** ** Errors at the dispatch boundary *)

Lemma raises_never_returns nxt c :
  raises c → ∀ s s', exec nxt c s ≠ Returned s'.
Proof.
  induction 1 as [e|code k _ IH|b k _ IH|text k _ IH|data k _ IH|k _ IH
                 |err k onReject _ IHk _ IHr]; intros s s'; simpl;
    try discriminate; try apply IH.
  destruct (nxt err (record (Continue err) s)); [apply IHk|apply IHr|discriminate].
Qed.

(** Code that does not call the continuation ends by itself, and adds
    nothing to the journal. *)
Lemma exec_settled nxt c :
  settled c → ∀ s,
  ∃ s', (exec nxt c s = Returned s' ∨ ∃ e, exec nxt c s = Thrown e s')
        ∧ journal s' = journal s.
Proof.
  induction 1 as [|e|code k _ IH|b k _ IH|text k _ IH|data k _ IH|k _ IH]; intros s; simpl.
  - eexists. split; [left; reflexivity|reflexivity].
  - eexists. split; [right; eexists; reflexivity|reflexivity].
  - apply (IH (withRes _ s)).
  - apply (IH (withRes _ s)).
  - apply (IH (withRes _ s)).
  - apply (IH (withRes _ s)).
  - apply IH.
Qed.

Lemma exec_raises_settled nxt c s :
  raises c → settled c → ∃ e s', exec nxt c s = Thrown e s' ∧ journal s' = journal s.
Proof.
  intros Hr Hs. destruct (exec_settled nxt c Hs s) as (s' & [Hret|[e Hthrown]] & Hj).
  - destruct (raises_never_returns nxt c Hr s s' Hret).
  - now exists e, s'.
Qed.

(** *** Code that sets no body *)

Lemma exec_bodyless nxt :
  (∀ err s s', finalState (nxt err s) = Some s' → bodyIsNull s = true →
               bodyIsNull s' = true) →
  ∀ c, bodyless c →
  ∀ s s', finalState (exec nxt c s) = Some s' → bodyIsNull s = true → bodyIsNull s' = true.
Proof.
  intros Hnxt c Hc.
  induction Hc as [|e|code k _ IH|k _ IH|k _ IH|err k onReject _ IHk _ IHr];
    intros s s'; simpl.
  - intros [= <-]. trivial.
  - intros [= <-]. trivial.
  - intros Hfin Hnull. exact (IH _ _ Hfin Hnull).
  - intros Hfin Hnull. exact (IH _ _ Hfin Hnull).
  - apply IH.
  - specialize (Hnxt err (record (Continue err) s)).
    destruct (nxt err (record (Continue err) s)) as [s1|e1 s1|s1]; intros Hfin Hnull.
    + apply (IHk (unwind s1) s' Hfin). now apply (Hnxt s1 eq_refl).
    + apply (IHr e1 (unwind s1) s' Hfin). now apply (Hnxt s1 eq_refl).
    + injection Hfin as <-. now apply (Hnxt s1 eq_refl).
Qed.

Lemma noop_keeps_null err s s' :
  finalState (noop err s) = Some s' → bodyIsNull s = true → bodyIsNull s' = true.
Proof. intros [= <-]. trivial. Qed.

(** Error handlers that set no body leave the error unhandled: with the
    body null, the loop runs to its end or is left by an exception. *)
Lemma errorLoop_bodyless path e ehs : ∀ i s,
  (∀ eh, eh ∈ ehs → prefixMatches (Middleware.path eh) path = true →
         bodyless (Middleware.handler eh e)) →
  bodyIsNull s = true →
  match errorLoop i ehs path e s with
  | inl o => ∃ e' s', o = Thrown e' s' ∧ bodyIsNull s' = true
  | inr s' => bodyIsNull s' = true
  end.
Proof.
  induction ehs as [|eh ehs IH]; intros i s Hehs Hnull; simpl; [exact Hnull|].
  assert (Hrest : ∀ eh', eh' ∈ ehs → prefixMatches (Middleware.path eh') path = true →
                         bodyless (Middleware.handler eh' e))
    by (intros eh' Hin; apply Hehs; now right).
  destruct (prefixMatches (Middleware.path eh) path) eqn:Hmatch; [|now apply IH].
  pose proof (exec_bodyless noop noop_keeps_null (Middleware.handler eh e)
                (Hehs eh ltac:(left) Hmatch) (record (InvokeError i) s)) as Hkeep.
  pose proof (exec_noop_settles (Middleware.handler eh e) (record (InvokeError i) s))
    as Hsettles.
  destruct (exec noop (Middleware.handler eh e) (record (InvokeError i) s))
    as [s1|e1 s1|s1]; [| |contradiction].
  - rewrite (Hkeep s1 eq_refl Hnull). apply IH; [exact Hrest|]. now apply (Hkeep s1 eq_refl).
  - exists e1, s1. split; [reflexivity|]. now apply (Hkeep s1 eq_refl).
Qed.

Lemma errorPhase_unhandled app path e s :
  errorHandlersSetNoBody app path →
  bodyIsNull s = true →
  ∃ e' s', errorPhase (errorHandlers app) path e s = Thrown e' s' ∧ bodyIsNull s' = true.
Proof.
  intros Hehs Hnull. unfold errorPhase.
  pose proof (errorLoop_bodyless path e (errorHandlers app) 0 s
                (fun eh Hin Hm => Hehs eh e Hin Hm) Hnull) as H.
  destruct (errorLoop 0 (errorHandlers app) path e s) as [o|s'].
  - destruct H as (e' & s' & -> & Hs'). now exists e', s'.
  - now exists e, s'.
Qed.

(** *** A signalled error that no handler takes up *)

Lemma quietReturn_thrown s e s' : quietReturn s (Thrown e s').
Proof. intros s1 [H|H]; discriminate H. Qed.

Lemma quietReturn_same s o s' :
  finalState o = Some s' → journal s' = journal s → quietReturn s o.
Proof.
  intros Hfin Hj s1 Hs1. exists []. split; [|constructor].
  rewrite app_nil_r, <- Hj. destruct Hs1 as [->| ->]; now injection Hfin as ->.
Qed.

Lemma quietReturn_after s s1 o evs :
  journal s1 = journal s ++ evs → Forall calm evs →
  quietReturn s1 o → quietReturn s o.
Proof.
  intros Hj Hevs Hq s' Hs'. destruct (Hq s' Hs') as (evs' & Hj' & Hall').
  exists (evs ++ evs'). split; [rewrite Hj', Hj; now rewrite app_assoc|].
  apply Forall_app. now split.
Qed.

Lemma quietReturn_returned s s1 o :
  quietReturn s (Returned s1) → quietReturn s1 o → quietReturn s o.
Proof.
  intros Hq. destruct (Hq s1 (or_introl eq_refl)) as (evs & Hj & Hall).
  eapply quietReturn_after; eassumption.
Qed.

Lemma exec_settled_quiet nxt c s :
  settled c → quietReturn s (exec nxt c s).
Proof.
  intros Hc. destruct (exec_settled nxt c Hc s) as (s' & [Hret|[e Hthrown]] & Hj).
  - rewrite Hret. now apply (quietReturn_same s _ s').
  - rewrite Hthrown. apply quietReturn_thrown.
Qed.

Lemma exec_quiet nxt :
  (∀ e s, bodyIsNull s = true → ∃ e' s', nxt (Some e) s = Thrown e' s') →
  (∀ s, bodyIsNull s = true → quietReturn s (nxt None s)) →
  ∀ c, forwards c → ∀ s, bodyIsNull s = true → quietReturn s (exec nxt c s).
Proof.
  intros Herr Hnone c Hc.
  induction Hc as [|e|code k _ IH|b k Hk|text k Hk|b k Hk|k _ IH|k _ IH
                  |err k onReject Hk Hrej]; intros s Hnull; simpl.
  - now apply (quietReturn_same s _ (unwind s)).
  - apply quietReturn_thrown.
  - now apply (IH (withRes _ s)).
  - now apply (exec_settled_quiet nxt k (withRes _ s)).
  - now apply (exec_settled_quiet nxt k (withRes _ s)).
  - now apply (exec_settled_quiet nxt k (withRes _ s)).
  - now apply (IH (withRes _ s)).
  - now apply IH.
  - assert (Hrejects : ∀ e1 s1, quietReturn s (exec nxt (onReject e1) s1)).
    { intros e1 s1. destruct (Hrej e1) as [Hr Hs].
      destruct (exec_raises_settled nxt (onReject e1) s1 Hr Hs) as (e2 & s2 & -> & _).
      apply quietReturn_thrown. }
    destruct err as [e|].
    + destruct (Herr e (record (Continue (Some e)) s) Hnull) as (e' & s' & ->).
      apply Hrejects.
    + pose proof (Hnone (record (Continue None) s) Hnull) as Hcall.
      destruct (nxt None (record (Continue None) s)) as [s1|e1 s1|s1].
      * apply (quietReturn_after s (record (Continue None) s) _ [Continue None]);
          [reflexivity|repeat constructor|].
        eapply quietReturn_returned; [exact Hcall|].
        apply (exec_settled_quiet nxt k (unwind s1) Hk).
      * apply Hrejects.
      * apply (quietReturn_after s (record (Continue None) s) _ [Continue None]);
          [reflexivity|repeat constructor|exact Hcall].
Qed.

Lemma runHandlers_quiet nxt :
  (∀ e s, bodyIsNull s = true → ∃ e' s', nxt (Some e) s = Thrown e' s') →
  (∀ s, bodyIsNull s = true → quietReturn s (nxt None s)) →
  ∀ hs, (∀ h, h ∈ hs → forwards h) →
  ∀ i j s, bodyIsNull s = true → quietReturn s (runHandlers nxt i j hs s).
Proof.
  intros Herr Hnone. induction hs as [|h hs IH]; intros Hhs i j s Hnull; simpl.
  - now apply (quietReturn_same s _ s).
  - assert (Hrun : quietReturn s (exec nxt h (record (InvokeRoute i j) s))).
    { apply (quietReturn_after s (record (InvokeRoute i j) s) _ [InvokeRoute i j]);
        [reflexivity|repeat constructor|].
      apply exec_quiet; try assumption. apply Hhs. left. }
    destruct (exec nxt h (record (InvokeRoute i j) s)) as [s1|e1 s1|s1]; try exact Hrun.
    destruct (bodyIsNull s1) eqn:Hs1; [|exact Hrun].
    eapply quietReturn_returned; [exact Hrun|].
    apply IH; [|exact Hs1]. intros h' Hh'. apply Hhs. now right.
Qed.

Lemma findRoute_elem rs method path k i route ps :
  findRoute k rs method path = Some (i, route, ps) → route ∈ rs.
Proof.
  rewrite findRoute_Some_iff. intros (n & _ & Hn & _).
  apply list_elem_of_lookup. now exists n.
Qed.

Lemma next_error_unhandled stack app method path fuel e s :
  errorHandlersSetNoBody app path →
  bodyIsNull s = true →
  ∃ e' s', next stack app method path fuel (Some e) s = Thrown e' s'.
Proof.
  intros Hehs Hnull. rewrite next_error.
  destruct (errorPhase_unhandled app path e s Hehs Hnull) as (e' & s' & H & _).
  now exists e', s'.
Qed.

Lemma next_quiet stack app method path :
  allForward app →
  errorHandlersSetNoBody app path →
  ∀ fuel s, bodyIsNull s = true → quietReturn s (next stack app method path fuel None s).
Proof.
  intros [_ Hroutes] Hehs.
  apply (next_none_ind (fun s o => bodyIsNull s = true → quietReturn s o)).
  - intros _ s _. now apply (quietReturn_same s _ s).
  - intros i route ps Hfind.
    split; [intros s _ _; apply quietReturn_thrown|].
    split; [intros s _ _; now apply (quietReturn_same s _ (bindParams ps s))|].
    intros fuel s IH _ Hnull.
    apply (quietReturn_after s (enter (bindParams ps s)) _ []);
      [symmetry; apply app_nil_r|constructor|].
    apply runHandlers_quiet.
    + intros e s1 Hs1. now apply next_error_unhandled.
    + exact IH.
    + intros h Hh. eapply Hroutes; [|exact Hh]. eapply findRoute_elem. exact Hfind.
    + exact Hnull.
Qed.

Lemma runMiddleware_quiet nxt path :
  (∀ e s, bodyIsNull s = true → ∃ e' s', nxt (Some e) s = Thrown e' s') →
  (∀ s, bodyIsNull s = true → quietReturn s (nxt None s)) →
  ∀ mws, (∀ mw, mw ∈ mws → forwards (Middleware.handler mw)) →
  ∀ i s, bodyIsNull s = true → quietReturn s (runMiddleware nxt i mws path s).
Proof.
  intros Herr Hnone. induction mws as [|mw mws IH]; intros Hmws i s Hnull; simpl.
  - now apply (quietReturn_same s _ s).
  - assert (Hlater : ∀ s1, bodyIsNull s1 = true →
                           quietReturn s1 (runMiddleware nxt (S i) mws path s1)).
    { intros s1. apply IH. intros mw' Hmw'. apply Hmws. now right. }
    destruct (prefixMatches (Middleware.path mw) path); [|now apply Hlater].
    assert (Hrun : quietReturn s (exec nxt (Middleware.handler mw)
                                    (record (InvokeMiddleware i) s))).
    { apply (quietReturn_after s (record (InvokeMiddleware i) s) _ [InvokeMiddleware i]);
        [reflexivity|repeat constructor|].
      apply exec_quiet; try assumption. apply Hmws. left. }
    destruct (exec nxt (Middleware.handler mw) (record (InvokeMiddleware i) s))
      as [s1|e1 s1|s1]; try exact Hrun.
    destruct (bodyIsNull s1) eqn:Hs1; [|exact Hrun].
    eapply quietReturn_returned; [exact Hrun|now apply Hlater].
Qed.

Lemma dispatch_quiet stack fuel app request :
  allForward app →
  errorHandlersSetNoBody app (Request.pathname request) →
  quietReturn (initial request) (dispatch stack fuel app request).
Proof.
  intros Hfwd Hehs.
  set (nxt := next stack app (Request.method request) (Request.pathname request) fuel).
  assert (Herr : ∀ e s, bodyIsNull s = true → ∃ e' s', nxt (Some e) s = Thrown e' s')
    by (intros e s Hs; now apply next_error_unhandled).
  assert (Hq : ∀ s, bodyIsNull s = true → quietReturn s (nxt None s))
    by (apply next_quiet; assumption).
  unfold dispatch. simpl. fold nxt.
  pose proof (runMiddleware_quiet nxt (Request.pathname request) Herr Hq
                (middleware app) (proj1 Hfwd) 0%nat (initial request) eq_refl) as Hmw.
  destruct (runMiddleware nxt 0 (middleware app) (Request.pathname request)
              (initial request)) as [s1|e1 s1|s1]; try exact Hmw.
  eapply quietReturn_returned; [exact Hmw|].
  unfold routePhase. destruct (bodyIsNull s1) eqn:Hs1;
    [now apply Hq|now apply (quietReturn_same s1 _ s1)].
Qed.

(** *** When the handler chain settles *)

Lemma exec_leavesChain_settles nxt :
  (∀ e s, settles (nxt (Some e) s)) →
  ∀ c, leavesChain c → ∀ s, settles (exec nxt c s).
Proof.
  intros Hnxt c Hc.
  induction Hc as [|e|code k _ IH|b k _ IH|text k _ IH|data k _ IH|k _ IH
                  |e k onReject _ IHk _ IHr]; intros s; simpl;
    try exact I; try apply IH.
  specialize (Hnxt e (record (Continue (Some e)) s)).
  destruct (nxt (Some e) (record (Continue (Some e)) s));
    [apply IHk|apply IHr|exact Hnxt].
Qed.

Lemma exec_entersOnce_settles nxt d :
  (∀ e s, settles (nxt (Some e) s)) →
  (∀ s, depth s = d → settles (nxt None s)) →
  ∀ c, entersOnce c → ∀ s, depth s = d → settles (exec nxt c s).
Proof.
  intros Herr Hnone c Hc.
  induction Hc as [|e|code k _ IH|b k _ IH|text k _ IH|data k _ IH|k _ IH
                  |err k onReject Hk Hrej]; intros s Hd; simpl;
    try exact I; try (now apply (IH (withRes _ s))).
  - now apply IH.
  - assert (Hcall : settles (nxt err (record (Continue err) s)))
      by (destruct err; [apply Herr|now apply Hnone]).
    destruct (nxt err (record (Continue err) s));
      [now apply exec_leavesChain_settles|now apply exec_leavesChain_settles|exact Hcall].
Qed.

Lemma runHandlers_leavesChain_settles nxt :
  (∀ e s, settles (nxt (Some e) s)) →
  ∀ hs, (∀ h, h ∈ hs → leavesChain h) →
  ∀ i j s, settles (runHandlers nxt i j hs s).
Proof.
  intros Hnxt. induction hs as [|h hs IH]; intros Hhs i j s; simpl; [exact I|].
  pose proof (exec_leavesChain_settles nxt Hnxt h (Hhs h ltac:(left))
                (record (InvokeRoute i j) s)) as Hrun.
  destruct (exec nxt h (record (InvokeRoute i j) s)) as [s1|e1 s1|s1];
    [|exact I|exact Hrun].
  destruct (bodyIsNull s1); [|exact I].
  apply IH. intros h' Hh'. apply Hhs. now right.
Qed.

Lemma next_settles stack app method path :
  reentersOnStack app →
  ∀ fuel s, (stack - depth s ≤ fuel)%nat → settles (next stack app method path fuel None s).
Proof.
  intros Hroutes. induction fuel as [|fuel IH]; intros s Hroom;
    destruct (findRoute 0 (routes app) method path) as [[[i route] ps]|] eqn:Hfind;
    try (rewrite next_no_route by assumption; exact I);
    destruct (Nat.leb_spec stack (depth s)) as [Hd|Hd];
    try (rewrite (next_overflows _ _ _ _ _ _ _ _ _ Hfind Hd); exact I);
    [lia|].
  rewrite (next_enters_route _ _ _ _ _ _ _ _ _ Hfind Hd).
  destruct (Route.handlers route) as [|h hs] eqn:Hhs; [exact I|].
  destruct (Hroutes route h hs (findRoute_elem _ _ _ _ _ _ _ Hfind) Hhs) as [Hh Hrest].
  assert (Herr : ∀ e s', settles (next stack app method path fuel (Some e) s'))
    by (intros; apply next_error_settles).
  cbn [runHandlers].
  pose proof (exec_entersOnce_settles (next stack app method path fuel) (S (depth s))
                Herr (fun s' Hs' => IH s' ltac:(lia)) h Hh
                (record (InvokeRoute i 0) (enter (bindParams ps s))) eq_refl) as Hrun.
  destruct (exec (next stack app method path fuel) h
              (record (InvokeRoute i 0) (enter (bindParams ps s)))) as [s1|e1 s1|s1];
    [|exact I|exact Hrun].
  destruct (bodyIsNull s1); [|exact I].
  now apply runHandlers_leavesChain_settles.
Qed.

(** What a handler leaves behind is on an empty stack. *)
Lemma exec_unwinds nxt c : ∀ s s', exec nxt c s = Returned s' → depth s' = 0%nat.
Proof.
  induction c as [| | | | | |k IH|err k IHk onReject IHr]; intros s s'; simpl;
    try discriminate; try apply IHc.
  - intros [= <-]. reflexivity.
  - apply IH.
  - destruct (nxt err (record (Continue err) s)); [apply IHk|apply IHr|discriminate].
Qed.

Lemma exec_fresh_settles nxt :
  (∀ err s, depth s = 0%nat → settles (nxt err s)) →
  ∀ c s, depth s = 0%nat → settles (exec nxt c s).
Proof.
  intros Hnxt. induction c as [| | | | | |k IH|err k IHk onReject IHr]; intros s Hd; simpl;
    try exact I; try (now apply (IHc (withRes _ s))).
  - now apply IH.
  - specialize (Hnxt err (record (Continue err) s) Hd).
    destruct (nxt err (record (Continue err) s));
      [now apply IHk|now apply IHr|exact Hnxt].
Qed.

Lemma runMiddleware_fresh_settles nxt path :
  (∀ err s, depth s = 0%nat → settles (nxt err s)) →
  ∀ mws i s, depth s = 0%nat →
    settles (runMiddleware nxt i mws path s)
    ∧ ∀ s', runMiddleware nxt i mws path s = Returned s' → depth s' = 0%nat.
Proof.
  intros Hnxt. induction mws as [|mw mws IH]; intros i s Hd; simpl.
  - split; [exact I|]. now intros s' [= <-].
  - destruct (prefixMatches (Middleware.path mw) path); [|now apply IH].
    pose proof (exec_fresh_settles nxt Hnxt (Middleware.handler mw)
                  (record (InvokeMiddleware i) s) Hd) as Hrun.
    pose proof (exec_unwinds nxt (Middleware.handler mw) (record (InvokeMiddleware i) s))
      as Hfresh.
    destruct (exec nxt (Middleware.handler mw) (record (InvokeMiddleware i) s))
      as [s1|e1 s1|s1]; [|split; [exact I|discriminate]|contradiction].
    destruct (bodyIsNull s1); [apply IH; now apply Hfresh|].
    split; [exact I|]. intros s' [= <-]. now apply Hfresh.
Qed.

Lemma dispatch_settles stack fuel app request :
  reentersOnStack app → (stack ≤ fuel)%nat → settles (dispatch stack fuel app request).
Proof.
  intros Hroutes Hfuel. unfold dispatch.
  set (nxt := next stack app (Request.method request) (Request.pathname request) fuel).
  assert (Hnxt : ∀ err s, depth s = 0%nat → settles (nxt err s)).
  { intros [e|] s Hd; [apply next_error_settles|].
    apply next_settles; [assumption|lia]. }
  destruct (runMiddleware_fresh_settles nxt (Request.pathname request) Hnxt
              (middleware app) 0%nat (initial request) eq_refl) as [Hmw Hfresh].
  destruct (runMiddleware nxt 0 (middleware app) (Request.pathname request)
              (initial request)) as [s1|e1 s1|s1]; [|exact I|contradiction].
  unfold routePhase. destruct (bodyIsNull s1); [|exact I].
  apply Hnxt. now apply Hfresh.
Qed.

(** A route handler that calls [next()] at once enters the handler chain
    of its own route again on the stack, until the stack is full: the
    dispatch ends in the error of the engine. *)
Lemma callsItself_overflows stack : ∀ fuel s,
  (stack - depth s ≤ fuel)%nat →
  ∃ s', next stack callsItself "GET" "/x" fuel None s = Thrown stackOverflow s'.
Proof.
  assert (Hfind : findRoute 0 (routes callsItself) "GET" "/x"
                  = Some (0%nat, Route.mk GET "/x" [Await None Return Throw], ∅))
    by reflexivity.
  induction fuel as [|fuel IH]; intros s Hroom;
    destruct (Nat.leb_spec stack (depth s)) as [Hd|Hd];
    try (rewrite (next_overflows _ _ _ _ _ _ _ _ _ Hfind Hd); now eexists);
    [lia|].
  rewrite (next_enters_route _ _ _ _ _ _ _ _ _ Hfind Hd). cbn [Route.handlers].
  cbn [runHandlers exec].
  destruct (IH (record (Continue None) (record (InvokeRoute 0 0) (enter (bindParams ∅ s))))
              ltac:(simpl; lia)) as [s' ->].
  now eexists.
Qed.

(** A route handler that calls [next()] from behind an [await] enters
    the handler chain again on an empty stack, and so on without end. *)
Lemma idleThenAgain_never_settles stack : ∀ fuel s,
  depth s = 0%nat → bodyIsNull s = true →
  ∃ s', next (S stack) idleThenAgain "GET" "/x" fuel None s = Diverged s'.
Proof.
  assert (Hfind : findRoute 0 (routes idleThenAgain) "GET" "/x"
                  = Some (0%nat, Route.mk GET "/x" [Return; Await None Return Throw], ∅))
    by reflexivity.
  induction fuel as [|fuel IH]; intros s Hd Hnull.
  - rewrite (next_out_of_fuel _ _ _ _ _ _ _ _ Hfind) by lia. now eexists.
  - rewrite (next_enters_route _ _ _ _ _ _ _ _ _ Hfind) by lia. cbn [Route.handlers].
    cbn [runHandlers exec].
    change (bodyIsNull (unwind (record (InvokeRoute 0 0) (enter (bindParams ∅ s)))))
      with (bodyIsNull s).
    rewrite Hnull.
    destruct (IH (record (Continue None)
                    (record (InvokeRoute 0 1)
                       (unwind (record (InvokeRoute 0 0) (enter (bindParams ∅ s))))))
                eq_refl Hnull) as [s' ->].
    now eexists.
Qed.

(** C3, as the code has it. [handleRequest] never rejects.  Whenever the
    handler chain settles, it resolves with a response whose status lies
    in 200..599; the chain settles whenever the route handlers call
    [next()] only as the first handler of their route and before they
    have waited for anything, or not at all: the chains nested on the
    stack end at the latest when the stack is full.  An error that
    reaches the dispatcher, the error of the full stack among them, gives
    the generic [Internal Server Error] response of status 500.  The
    error a handler has signalled reaches the dispatcher when no error
    handler whose filter applies sets a body, in particular when none is
    registered, and every middleware and route handler calls the
    continuation at most once, before it sets a body, and throws when
    the continuation rejects. *)
Theorem dispatch_always_answers stack fuel app request :
  (∀ e, handleRequest stack fuel app request ≠ Rejected e)
  ∧ (settles (dispatch stack fuel app request) →
     ∃ r, handleRequest stack fuel app request = Resolved r
          ∧ (200 ≤ Response.status r ≤ 599)%Z)
  ∧ (reentersOnStack app → (stack ≤ fuel)%nat →
     settles (dispatch stack fuel app request))
  ∧ (∀ e s, dispatch stack fuel app request = Thrown e s →
            handleRequest stack fuel app request = Resolved serverError)
  ∧ ((stack ≤ fuel)%nat →
     (∃ s, dispatch stack fuel callsItself (getRequest "/x") = Thrown stackOverflow s)
     ∧ handleRequest stack fuel callsItself (getRequest "/x") = Resolved serverError)
  ∧ (allForward app →
     errorHandlersSetNoBody app (Request.pathname request) →
     (∃ e, Continue (Some e) ∈ journalOf (dispatch stack fuel app request)) →
     handleRequest stack fuel app request = Resolved serverError).
Proof.
  split; [|split; [|split; [|split; [|split]]]].
  - intros e. unfold handleRequest.
    destruct (dispatch stack fuel app request) as [s| |]; try discriminate.
    destruct (respond_resolves s) as (r & -> & _). discriminate.
  - intros Hsettles. unfold handleRequest.
    destruct (dispatch stack fuel app request) as [s| |];
      [apply respond_resolves| |contradiction].
    exists serverError. split; [reflexivity|]. simpl. lia.
  - apply dispatch_settles.
  - intros e s Hd. unfold handleRequest. now rewrite Hd.
  - intros Hfuel.
    destruct (callsItself_overflows stack fuel (initial (getRequest "/x"))
                ltac:(simpl; lia)) as [s Hs].
    assert (Hd : dispatch stack fuel callsItself (getRequest "/x") = Thrown stackOverflow s)
      by exact Hs.
    split; [now exists s|]. unfold handleRequest. now rewrite Hd.
  - intros Hfwd Hehs [e He]. unfold handleRequest.
    pose proof (dispatch_quiet stack fuel app request Hfwd Hehs) as Hquiet.
    destruct (dispatch stack fuel app request) as [s|e' s|s]; [|reflexivity|].
    + destruct (Hquiet s (or_introl eq_refl)) as (evs & Hj & Hcalm).
      unfold journalOf in He. simpl in Hj, He. rewrite Hj in He.
      rewrite Forall_forall in Hcalm.
      destruct (Hcalm _ He).
    + destruct (Hquiet s (or_intror eq_refl)) as (evs & Hj & Hcalm).
      unfold journalOf in He. simpl in Hj, He. rewrite Hj in He.
      rewrite Forall_forall in Hcalm.
      destruct (Hcalm _ He).
Qed.

Lemma forwards_pass err : forwards (Await err Return Throw).
Proof. constructor; [constructor|]. intros e. split; constructor. Qed.

Lemma dispatch_always_answers_witness :
  journalOf (dispatch 2 2 signalInRoute (getRequest "/x"))
    = [InvokeMiddleware 0; Continue None; InvokeRoute 0 0; Continue (Some "boom")]
  ∧ handleRequest 2 2 signalInRoute (getRequest "/x") = Resolved serverError
  ∧ journalOf (dispatch 2 2 statusOnlyErrorHandler (getRequest "/x"))
    = [InvokeRoute 0 0; Continue (Some "boom"); InvokeError 0]
  ∧ handleRequest 2 2 statusOnlyErrorHandler (getRequest "/x") = Resolved serverError
  ∧ settles (dispatch 2 2 signalInRoute (getRequest "/x"))
  ∧ handleRequest 2 2 callsItself (getRequest "/x") = Resolved serverError.
Proof.
  pose proof (dispatch_always_answers 2 2 signalInRoute (getRequest "/x"))
    as (_ & _ & Hsettles & _ & Hself & H500).
  pose proof (dispatch_always_answers 2 2 statusOnlyErrorHandler (getRequest "/x"))
    as (_ & _ & _ & _ & _ & H500').
  split; [reflexivity|]. split; [|split; [reflexivity|split; [|split]]].
  - apply H500.
    + split.
      * intros mw Hmw. apply list_elem_of_singleton in Hmw. subst mw. apply forwards_pass.
      * intros r h Hr Hh. apply list_elem_of_singleton in Hr. subst r.
        apply list_elem_of_singleton in Hh. subst h. apply forwards_pass.
    + intros eh e Heh. inversion Heh.
    + exists "boom". unfold journalOf. simpl. do 3 right. left.
  - apply H500'.
    + split.
      * intros mw Hmw. inversion Hmw.
      * intros r h Hr Hh. apply list_elem_of_singleton in Hr. subst r.
        apply list_elem_of_singleton in Hh. subst h. apply forwards_pass.
    + intros eh e Heh _. apply list_elem_of_singleton in Heh. subst eh.
      repeat constructor.
    + exists "boom". unfold journalOf. simpl. right. left.
  - apply Hsettles; [|lia].
    intros r h hs Hr Hhs. apply list_elem_of_singleton in Hr. subst r.
    injection Hhs as <- <-. split; [repeat constructor|].
    intros h' Hh'. inversion Hh'.
  - apply Hself. lia.
Defined.

(** The claim as worded fails in two ways.  A signalled error does not
    reach the dispatcher, and the response is not the 500 one, when the
    handler that signals it does not let the rejection through, and when
    the body is set by the time the error is signalled, so that the error
    phase returns behind the first matching error handler: the answers
    are the 404 response, ["A"] and ["B"].  And a handler chain that is
    entered again from behind an [await] does not come to an end: there
    is no response at all. *)
Lemma total_response_has_exceptions :
  ¬ unhandledErrorIs500 1 0 swallowOnly (getRequest "/x")
  ∧ ¬ unhandledErrorIs500 1 0 answerThenSignal (getRequest "/x")
  ∧ ¬ unhandledErrorIs500 1 1 signalAfterRoute (getRequest "/x")
  ∧ ∀ stack, ¬ answers (S stack) idleThenAgain (getRequest "/x").
Proof.
  split; [|split; [|split]].
  - intros H. destruct H as (r & Hr & Hst).
    + intros eh e Heh. inversion Heh.
    + exists "boom". unfold journalOf. simpl. right. left.
    + injection Hr as <-. discriminate Hst.
  - intros H. destruct H as (r & Hr & Hst).
    + intros eh e Heh _. apply list_elem_of_singleton in Heh. subst eh. constructor.
    + exists "boom". unfold journalOf. simpl. right. left.
    + injection Hr as <-. discriminate Hst.
  - intros H. destruct H as (r & Hr & Hst).
    + intros eh e Heh _. apply list_elem_of_singleton in Heh. subst eh. constructor.
    + exists "late". unfold journalOf. simpl. do 3 right. left.
    + injection Hr as <-. discriminate Hst.
  - intros stack (fuel & r & Hr). unfold handleRequest, dispatch in Hr.
    cbn [runMiddleware middleware idleThenAgain get addRoute Router] in Hr.
    unfold routePhase in Hr.
    change (bodyIsNull (initial (getRequest "/x"))) with true in Hr. cbv iota in Hr.
    destruct (idleThenAgain_never_settles stack fuel (initial (getRequest "/x"))
                eq_refl eq_refl) as [s' Hs'].
    change (Request.method (getRequest "/x")) with "GET" in Hr.
    change (Request.pathname (getRequest "/x")) with "/x" in Hr.
    rewrite Hs' in Hr. discriminate Hr.
Qed.

(** ** Requests that no handler answers *)

Lemma next_settles_without_route stack app method path fuel :
  findRoute 0 (routes app) method path = None →
  ∀ err s, settles (next stack app method path fuel err s).
Proof.
  intros Hnone [e|] s; [apply next_error_settles|].
  now rewrite next_no_route.
Qed.

Lemma runMiddleware_settles nxt path :
  (∀ err s, settles (nxt err s)) →
  ∀ mws i s, settles (runMiddleware nxt i mws path s).
Proof.
  intros Hnxt. induction mws as [|mw mws IH]; intros i s; simpl; [exact I|].
  destruct (prefixMatches (Middleware.path mw) path); [|apply IH].
  pose proof (settles_exec nxt Hnxt (Middleware.handler mw)
                (record (InvokeMiddleware i) s)) as Hrun.
  destruct (exec nxt (Middleware.handler mw) (record (InvokeMiddleware i) s))
    as [s1|e1 s1|s1]; [|exact I|exact Hrun].
  destruct (bodyIsNull s1); [apply IH|exact I].
Qed.

(** C8, as the code has it. When no registered route has the method of
    the request and a pattern matching its path, the handler chain always
    settles.  When the middleware loop has run to its end without an
    error and the body is still null, the handler chain completes without
    an error and [handleRequest] resolves with the generic [Not Found]
    response of status 404; when the handler of a middleware entry ends
    in an exception, thrown by itself or passed on from a rejected
    continuation, the exception reaches the dispatcher and the response
    is the generic one of status 500. *)
Theorem route_not_found_is_404 stack fuel app request :
  (∀ r, r ∈ routes app →
        fits (Request.method request) (Request.pathname request) r = false) →
  let loop := runMiddleware
                (next stack app (Request.method request) (Request.pathname request) fuel) 0
                (middleware app) (Request.pathname request) (initial request) in
  settles (dispatch stack fuel app request)
  ∧ (∀ s1, loop = Returned s1 → bodyIsNull s1 = true →
           dispatch stack fuel app request = Returned s1
           ∧ handleRequest stack fuel app request = Resolved notFound)
  ∧ (∀ e s1, loop = Thrown e s1 →
             dispatch stack fuel app request = Thrown e s1
             ∧ handleRequest stack fuel app request = Resolved serverError)
  ∧ Response.status notFound = 404%Z
  ∧ Response.body notFound = BodyText "Not Found"
  ∧ Response.status serverError = 500%Z.
Proof.
  intros Hnone loop.
  apply (findRoute_None_iff _ _ _ 0%nat) in Hnone.
  assert (Hnext : ∀ s, next stack app (Request.method request) (Request.pathname request)
                         fuel None s = Returned s)
    by (intros s; now apply next_no_route).
  split; [|split; [|split; [|repeat split]]].
  - unfold dispatch. fold loop.
    pose proof (runMiddleware_settles _ (Request.pathname request)
                  (next_settles_without_route stack app _ _ fuel Hnone)
                  (middleware app) 0%nat (initial request)) as Hloop.
    fold loop in Hloop.
    destruct loop as [s1|e1 s1|s1]; [|exact I|exact Hloop].
    unfold routePhase. destruct (bodyIsNull s1); [now rewrite Hnext|exact I].
  - intros s1 Hloop Hnull.
    assert (Hd : dispatch stack fuel app request = Returned s1).
    { unfold dispatch. fold loop. rewrite Hloop. unfold routePhase.
      now rewrite Hnull, Hnext. }
    split; [exact Hd|]. unfold handleRequest. rewrite Hd. now apply respond_null.
  - intros e s1 Hloop.
    assert (Hd : dispatch stack fuel app request = Thrown e s1)
      by (unfold dispatch; fold loop; now rewrite Hloop).
    split; [exact Hd|]. now apply handleRequest_thrown with e s1.
Qed.

Lemma route_not_found_is_404_witness :
  ∃ s1, runMiddleware (next 1 loggedUsers "GET" "/users" 1) 0 (middleware loggedUsers)
          "/users" (initial (getRequest "/users")) = Returned s1
        ∧ journal s1 = [InvokeMiddleware 0; Continue None]
        ∧ dispatch 1 1 loggedUsers (getRequest "/users") = Returned s1
        ∧ handleRequest 1 1 loggedUsers (getRequest "/users") = Resolved notFound.
Proof.
  eexists. split; [reflexivity|]. split; [reflexivity|].
  refine (proj1 (proj2 (route_not_found_is_404 1 1 loggedUsers (getRequest "/users") _))
            _ eq_refl eq_refl).
  intros r Hr. apply list_elem_of_singleton in Hr. subst r. reflexivity.
Defined.

(** The claim as worded fails when a middleware handler throws: no body
    is set and no route fits, and the response is the 500 one. *)
Lemma throwing_middleware_is_not_404 :
  ¬ unansweredIs404 1 0 throwingOnly (getRequest "/x").
Proof.
  intros H. destruct H as [[s Hs] _].
  - intros r Hr. inversion Hr.
  - intros s [= <-]. reflexivity.
  - discriminate Hs.
Qed.










(** ** Mounting a router *)

Lemma mountRoutes_distinct this router path child :
  this ≠ router →
  ∀ fuel i (σ : gmap Ref Slop) parent,
    σ !! router = Some child → σ !! this = Some parent →
    (length (routes child) - i < fuel)%nat →
    mountRoutes fuel i this path router σ =
      Some (<[this := {| routes := routes parent
                                   ++ map (mountedRoute path) (drop i (routes child));
                         middleware := middleware parent;
                         errorHandlers := errorHandlers parent |}]> σ).
Proof.
  intros Hne. induction fuel as [|fuel IH]; intros i σ parent Hrouter Hthis Hfuel;
    [lia|].
  simpl. rewrite Hrouter. simpl.
  destruct (routes child !! i) as [route|] eqn:Hi.
  - rewrite (IH (S i) _ (pushRoute (mountedRoute path route) parent)).
    + rewrite insert_alter_eq. simpl.
      rewrite (drop_S _ _ _ Hi). simpl. now rewrite <- app_assoc.
    + now rewrite lookup_alter_ne.
    + rewrite lookup_alter_eq, Hthis. reflexivity.
    + apply lookup_lt_Some in Hi. lia.
  - apply lookup_ge_None_1 in Hi. rewrite drop_ge by assumption. simpl.
    rewrite app_nil_r. destruct parent. now rewrite insert_id.
Qed.

Lemma mountMiddleware_distinct this router path child :
  this ≠ router →
  ∀ fuel i (σ : gmap Ref Slop) parent,
    σ !! router = Some child → σ !! this = Some parent →
    (length (middleware child) - i < fuel)%nat →
    mountMiddleware fuel i this path router σ =
      Some (<[this := {| routes := routes parent;
                         middleware := middleware parent
                                       ++ map (mountedMiddleware path)
                                            (drop i (middleware child));
                         errorHandlers := errorHandlers parent |}]> σ).
Proof.
  intros Hne. induction fuel as [|fuel IH]; intros i σ parent Hrouter Hthis Hfuel;
    [lia|].
  simpl. rewrite Hrouter. simpl.
  destruct (middleware child !! i) as [mw|] eqn:Hi.
  - rewrite (IH (S i) _ (pushMiddleware (mountedMiddleware path mw) parent)).
    + rewrite insert_alter_eq. simpl.
      rewrite (drop_S _ _ _ Hi). simpl. now rewrite <- app_assoc.
    + now rewrite lookup_alter_ne.
    + rewrite lookup_alter_eq, Hthis. reflexivity.
    + apply lookup_lt_Some in Hi. lia.
  - apply lookup_ge_None_1 in Hi. rewrite drop_ge by assumption. simpl.
    rewrite app_nil_r. destruct parent. now rewrite insert_id.
Qed.

Lemma mountRoutes_self this path : ∀ fuel i (σ : gmap Ref Slop) engine,
  σ !! this = Some engine → (i < length (routes engine))%nat →
  mountRoutes fuel i this path this σ = None.
Proof.
  induction fuel as [|fuel IH]; intros i σ engine Hthis Hi; [reflexivity|].
  simpl. rewrite Hthis. simpl.
  destruct (lookup_lt_is_Some_2 _ _ Hi) as [route Hroute]. rewrite Hroute.
  eapply IH.
  - rewrite lookup_alter_eq, Hthis. reflexivity.
  - simpl. rewrite length_app. simpl. lia.
Qed.

(** C7, as the code has it. For a parent engine and a child engine that
    is another object, [useRouter(prefix, child)] returns and leaves in
    the parent its own routes and middleware followed by a copy of every
    route and of every middleware entry of the child, in the order of
    the child, with the path [prefix + path], or the path unchanged when
    the prefix is ["/"], and with the same method and handlers; the error
    handlers of the parent, the child and every other engine are what
    they were, and a route registered on the child afterwards does not
    show in the parent. *)
Theorem useRouter_appends_copies (σ : gmap Ref Slop) this router path parent child fuel :
  this ≠ router →
  σ !! this = Some parent →
  σ !! router = Some child →
  (length (routes child) < fuel)%nat →
  (length (middleware child) < fuel)%nat →
  useRouter fuel this path router σ = Some (<[this := mounted path parent child]> σ)
  ∧ <[this := mounted path parent child]> σ !! router = Some child
  ∧ (∀ other, other ≠ this → <[this := mounted path parent child]> σ !! other = σ !! other)
  ∧ (∀ method p hs,
       addRouteAt router method p hs (<[this := mounted path parent child]> σ) !! this
       = Some (mounted path parent child))
  ∧ (∀ r, mountedRoute path r
          = Route.mk (Route.method r)
              (if decide (path = "/") then Route.path r else (path ++ Route.path r)%string)
              (Route.handlers r))
  ∧ (∀ mw, mountedMiddleware path mw
           = Middleware.mk
               (if decide (path = "/") then Middleware.path mw
                else (path ++ Middleware.path mw)%string)
               (Middleware.handler mw)).
Proof.
  intros Hne Hthis Hrouter Hfr Hfm.
  split; [|split; [|split; [|split; [|split]]]].
  - unfold useRouter.
    rewrite (mountRoutes_distinct this router path child Hne fuel 0 σ parent)
      by (try assumption; lia).
    simpl.
    rewrite (mountMiddleware_distinct this router path child Hne fuel 0 _
               {| routes := routes parent ++ map (mountedRoute path) (routes child);
                  middleware := middleware parent;
                  errorHandlers := errorHandlers parent |}).
    + rewrite insert_insert_eq. reflexivity.
    + now rewrite lookup_insert_ne.
    + now rewrite lookup_insert_eq.
    + lia.
  - now rewrite lookup_insert_ne.
  - intros other Hother. now rewrite lookup_insert_ne.
  - intros method p hs. unfold addRouteAt.
    rewrite lookup_alter_ne by congruence. apply lookup_insert_eq.
  - intros r. unfold mountedRoute, fullPath.
    destruct (String.eqb_spec path "/") as [->|Hp];
      [now rewrite decide_True|now rewrite decide_False].
  - intros mw. unfold mountedMiddleware, fullPath.
    destruct (String.eqb_spec path "/") as [->|Hp];
      [now rewrite decide_True|now rewrite decide_False].
Qed.

Lemma useRouter_appends_copies_witness :
  useRouter 2 0%nat "/api" 1%nat {[ 0%nat := Router; 1%nat := pingRouter ]}
    = Some {[ 0%nat := get "/api/ping" [Send (BodyText "pong") Return] Router;
              1%nat := pingRouter ]}.
Proof.
  rewrite (proj1 (useRouter_appends_copies {[ 0%nat := Router; 1%nat := pingRouter ]}
                    0%nat 1%nat "/api" Router pingRouter 2
                    ltac:(discriminate) eq_refl eq_refl ltac:(simpl; lia) ltac:(simpl; lia))).
  reflexivity.
Defined.

(** The claim as worded fails for an engine mounted on itself: the loop
    reads the array it is pushing onto and does not come to an end. *)
Lemma self_mount_never_returns :
  ¬ mountAppends {[ 0%nat := pingRouter ]} 0%nat "/api" 0%nat.
Proof.
  intros H. destruct (H pingRouter pingRouter eq_refl eq_refl) as (fuel & σ' & Hrun & _).
  unfold useRouter in Hrun.
  rewrite (mountRoutes_self 0%nat "/api" fuel 0%nat {[ 0%nat := pingRouter ]} pingRouter)
    in Hrun; [discriminate Hrun|reflexivity|simpl; lia].
Qed.

(** * Properties beyond the claims *)

(** ** More on the path matcher *)

Lemma split_slash_app (x y : string) :
  JsString.split_slash (x ++ String "/" y)
  = JsString.split_slash x ++ JsString.split_slash y.
Proof.
  induction x as [|c x IH]; simpl; [reflexivity|].
  destruct (Ascii.eqb c "/"); [now rewrite IH|].
  rewrite IH. pose proof (split_slash_nonempty x) as Hne.
  destruct (JsString.split_slash x); [contradiction|reflexivity].
Qed.

Lemma join_slash_cons c seg segs :
  join_slash (String c seg :: segs) = String c (join_slash (seg :: segs)).
Proof. simpl. destruct segs; reflexivity. Qed.

Lemma join_split_slash (s : string) : join_slash (JsString.split_slash s) = s.
Proof.
  induction s as [|c s IH]; [reflexivity|].
  change (JsString.split_slash (String c s))
    with (if Ascii.eqb c "/" then EmptyString :: JsString.split_slash s
          else match JsString.split_slash s with
               | [] => [String c EmptyString]
               | seg :: segs => String c seg :: segs
               end).
  pose proof (split_slash_nonempty s) as Hne.
  destruct (Ascii.eqb_spec c "/") as [->|_].
  - destruct (JsString.split_slash s) as [|seg segs] eqn:Hs; [contradiction|].
    change (join_slash (EmptyString :: seg :: segs))
      with (String "/" (join_slash (seg :: segs))).
    now rewrite IH.
  - destruct (JsString.split_slash s) as [|seg segs] eqn:Hs; [contradiction|].
    rewrite join_slash_cons. now rewrite IH.
Qed.

Lemma split_slash_inj (a b : string) :
  JsString.split_slash a = JsString.split_slash b → a = b.
Proof.
  intros H. rewrite <- (join_split_slash a), <- (join_split_slash b). now rewrite H.
Qed.

Lemma split_slash_no_slash (s : string) :
  Forall (fun seg => containsSlash seg = false) (JsString.split_slash s).
Proof.
  induction s as [|c s IH]; simpl; [repeat constructor|].
  destruct (Ascii.eqb c "/") eqn:Hc; [constructor; [reflexivity|exact IH]|].
  destruct (JsString.split_slash s) as [|seg segs]; [repeat constructor; simpl; now rewrite Hc|].
  inversion IH as [|? ? Hseg Hsegs]; subst.
  constructor; [simpl; now rewrite Hc, Hseg|exact Hsegs].
Qed.

Lemma forallb_segmentAgrees_inv routeParts actualParts :
  length routeParts = length actualParts →
  forallb segmentAgrees (zip routeParts actualParts) = true →
  ∀ i r a, routeParts !! i = Some r → actualParts !! i = Some a →
           isParamSegment r = false → r = a.
Proof.
  intros _ Hall i r a Hr Ha Hp.
  rewrite forallb_forall in Hall.
  assert (Hin : In (r, a) (zip routeParts actualParts)).
  { apply list_elem_of_In, list_elem_of_lookup. exists i.
    apply lookup_zip_with_Some. eauto. }
  specialize (Hall _ Hin). unfold segmentAgrees in Hall. simpl in Hall.
  rewrite Hp in Hall. simpl in Hall. now apply String.eqb_eq.
Qed.

Lemma matchPath_matched_when_differ actualPath routePath :
  actualPath ≠ routePath →
  matched (matchPath actualPath routePath) = true →
  length (JsString.split_slash routePath) = length (JsString.split_slash actualPath)
  ∧ forallb segmentAgrees
      (zip (JsString.split_slash routePath) (JsString.split_slash actualPath)) = true
  ∧ params (matchPath actualPath routePath)
    = assignAll ∅ (bindingsOf (zip (JsString.split_slash routePath)
                                 (JsString.split_slash actualPath))).
Proof.
  intros Hne. unfold matchPath.
  destruct (String.eqb_spec routePath actualPath) as [->|_]; [contradiction|].
  destruct (Nat.eqb_spec (length (JsString.split_slash routePath))
              (length (JsString.split_slash actualPath))) as [Hlen|Hlen]; simpl;
    [|discriminate].
  rewrite matchSegments_fold by assumption.
  destruct (forallb _ _); simpl; [auto|discriminate].
Qed.

Lemma matched_segmentsAgree (actualPath routePath : string) :
  matched (matchPath actualPath routePath) = true → segmentsAgree actualPath routePath.
Proof.
  intros Hm. destruct (decide (actualPath = routePath)) as [->|Hne].
  - split; [reflexivity|]. intros i r a Hr Ha _. congruence.
  - destruct (matchPath_matched_when_differ _ _ Hne Hm) as (Hlen & Hall & _).
    split; [exact Hlen|]. now apply forallb_segmentAgrees_inv.
Qed.

(** X1. A path matches a pattern exactly when both have the same number
    of segments and every segment of the pattern that does not start with
    [:] equals the segment of the path at its position. *)
Theorem matchPath_matches_iff_segments_agree (actualPath routePath : string) :
  matched (matchPath actualPath routePath) = true ↔ segmentsAgree actualPath routePath.
Proof.
  split; [apply matched_segmentsAgree|].
  - intros Hagree. pose proof (segmentsAgree_forallb _ _ Hagree) as Hall.
    destruct Hagree as [Hlen _]. unfold matchPath.
    destruct (String.eqb routePath actualPath); [reflexivity|].
    rewrite Hlen, Nat.eqb_refl. simpl.
    rewrite matchSegments_fold by assumption. now rewrite Hall.
Qed.

(** X2. A pattern without a parameter segment matches one path only, the
    pattern string itself: no normalisation, a trailing slash or another
    letter case is a different path. *)
Theorem matchPath_literal_pattern_matches_itself_only (actualPath routePath : string) :
  (∀ seg, seg ∈ JsString.split_slash routePath → isParamSegment seg = false) →
  (matched (matchPath actualPath routePath) = true ↔ actualPath = routePath).
Proof.
  intros Hlit. split.
  - intros Hm. apply matched_segmentsAgree in Hm as [Hlen Hseg].
    apply split_slash_inj. apply list_eq_same_length with (length (JsString.split_slash actualPath));
      [exact Hlen|reflexivity|].
    intros i a r _ Ha Hr. symmetry. apply (Hseg i r a Hr Ha).
    apply Hlit. apply list_elem_of_lookup. now exists i.
  - intros ->. unfold matchPath. now rewrite String.eqb_refl.
Qed.

Lemma matchPath_literal_pattern_matches_itself_only_witness :
  matched (matchPath "/users/" "/users") = false
  ∧ matched (matchPath "/Users" "/users") = false
  ∧ matched (matchPath "/users" "/users") = true.
Proof.
  assert (Hlit : ∀ seg, seg ∈ JsString.split_slash "/users" → isParamSegment seg = false).
  { intros seg Hseg.
    change (JsString.split_slash "/users") with [""; "users"]%string in Hseg.
    repeat (apply elem_of_cons in Hseg as [->|Hseg]; [reflexivity|]).
    inversion Hseg. }
  split; [|split; [|reflexivity]];
    destruct (matched (matchPath _ "/users")) eqn:Hm; try reflexivity;
    apply (matchPath_literal_pattern_matches_itself_only _ "/users" Hlit) in Hm;
    discriminate Hm.
Defined.

Lemma bindingsOf_origin ps name v :
  (name, v) ∈ bindingsOf ps → (String ":" name, v) ∈ ps.
Proof.
  induction ps as [|[r a] ps IH]; unfold bindingsOf; simpl.
  - intros H. inversion H.
  - rewrite elem_of_app. intros [H|H].
    + unfold segmentBinding in H. simpl in H.
      destruct (isParamSegment r) eqn:Hr; [|inversion H].
      apply list_elem_of_singleton in H. injection H as -> ->.
      rewrite <- (isParamSegment_shape r Hr). left.
    + right. now apply IH.
Qed.

Lemma assignAll_lookup (bs : list (string * string)) name v : ∀ acc,
  assignAll acc bs !! name = Some v → acc !! name = Some v ∨ (name, v) ∈ bs.
Proof.
  induction bs as [|[k w] bs IH]; intros acc; [now left|].
  unfold assignAll in *. simpl. intros H. apply IH in H as [H|H]; [|right; now right].
  unfold assign in H. simpl in H.
  destruct (String.eqb k "__proto__"); [now left|].
  destruct (decide (k = name)) as [->|Hk].
  - rewrite lookup_insert_eq in H. injection H as ->. right. left.
  - rewrite lookup_insert_ne in H by assumption. now left.
Qed.

(** X3. Every binding of the parameter map of a match comes from one
    position of the pattern: the name is what follows [:] in a segment of
    the pattern and the value is the segment of the path at that position,
    taken as it is; a value never contains a slash. *)
Theorem matchPath_params_come_from_segments (actualPath routePath name v : string) :
  params (matchPath actualPath routePath) !! name = Some v →
  ∃ i, JsString.split_slash routePath !! i = Some (String ":" name)
       ∧ JsString.split_slash actualPath !! i = Some v
       ∧ containsSlash v = false.
Proof.
  intros Hv.
  assert (Hne : actualPath ≠ routePath).
  { intros ->. unfold matchPath in Hv. rewrite String.eqb_refl in Hv.
    simpl in Hv. rewrite lookup_empty in Hv. discriminate Hv. }
  destruct (matched (matchPath actualPath routePath)) eqn:Hm.
  2: { rewrite (matchPath_unmatched_params _ _ Hm), lookup_empty in Hv. discriminate Hv. }
  destruct (matchPath_matched_when_differ _ _ Hne Hm) as (_ & _ & Hps).
  rewrite Hps in Hv. apply assignAll_lookup in Hv as [Hv|Hv];
    [rewrite lookup_empty in Hv; discriminate Hv|].
  apply bindingsOf_origin, list_elem_of_lookup in Hv as [i Hi].
  apply lookup_zip_with_Some in Hi as (r & a & Heq & Hr & Ha).
  injection Heq as <- <-. exists i. split; [exact Hr|]. split; [exact Ha|].
  pose proof (split_slash_no_slash actualPath) as Hno.
  rewrite Forall_forall in Hno. apply Hno. apply list_elem_of_lookup. now exists i.
Qed.

Lemma matchPath_params_come_from_segments_witness :
  params (matchPath "/users/42" "/users/:id") !! "id" = Some "42"
  ∧ ∃ i, JsString.split_slash "/users/:id" !! i = Some ":id"
         ∧ JsString.split_slash "/users/42" !! i = Some "42"
         ∧ containsSlash "42" = false.
Proof.
  split; [reflexivity|].
  apply (matchPath_params_come_from_segments "/users/42" "/users/:id" "id" "42").
  reflexivity.
Defined.

(** ** Prefix filters *)

Lemma startsWith_iff (p s : string) :
  JsString.startsWith p s = true ↔ ∃ rest, s = (p ++ rest)%string.
Proof.
  revert s. induction p as [|a p IH]; intros s.
  - split; [intros _; now exists s|reflexivity].
  - destruct s as [|b s].
    + split; [discriminate|]. intros [rest Hrest]. discriminate Hrest.
    + change (JsString.startsWith (String a p) (String b s))
        with (if Ascii.eqb a b then JsString.startsWith p s else false).
      destruct (Ascii.eqb_spec a b) as [->|Hab].
      * rewrite IH. split; intros [rest Hrest]; exists rest.
        -- simpl. now rewrite Hrest.
        -- simpl in Hrest. now injection Hrest.
      * split; [discriminate|]. intros [rest Hrest]. simpl in Hrest.
        injection Hrest as Hb _. congruence.
Qed.

(** X4. A middleware or error handler filter applies to a path exactly
    when it is the string ["*"] or the path begins with it character by
    character: the test knows nothing of segments, so the filter [/user]
    applies to [/users/5], and the empty filter applies to every path. *)
Theorem prefixMatches_iff_star_or_string_prefix (filter path : string) :
  (prefixMatches filter path = true ↔
   filter = "*" ∨ ∃ rest, path = (filter ++ rest)%string)
  ∧ prefixMatches "" path = true
  ∧ prefixMatches "/user" ("/users/" ++ path) = true.
Proof.
  split; [|split; reflexivity].
  unfold prefixMatches. rewrite orb_true_iff, String.eqb_eq, startsWith_iff.
  reflexivity.
Qed.

(** ** Registration *)

Lemma fold_useOne path hs : ∀ this,
  fold_left (useOne path) hs this
  = {| routes := routes this;
       middleware := middleware this ++ normalEntries path hs;
       errorHandlers := errorHandlers this ++ errorEntries path hs |}.
Proof.
  induction hs as [|h hs IH]; intros this; simpl.
  - rewrite !app_nil_r. now destruct this.
  - rewrite IH. destruct h; simpl; unfold normalEntries, errorEntries; simpl;
      now rewrite <- app_assoc.
Qed.

(** X5. [use] sorts the functions it is given by their arity and keeps
    their order: the functions of three parameters are appended to the
    middleware list and those of four parameters to the error handler
    list, each under the path given, or under ["*"] when the first
    argument is itself a function; the routes are not touched. *)
Theorem use_appends_by_arity pathOrHandler handlers this :
  routes (use pathOrHandler handlers this) = routes this
  ∧ middleware (use pathOrHandler handlers this)
    = middleware this
      ++ normalEntries (useFilter pathOrHandler) (useHandlers pathOrHandler handlers)
  ∧ errorHandlers (use pathOrHandler handlers this)
    = errorHandlers this
      ++ errorEntries (useFilter pathOrHandler) (useHandlers pathOrHandler handlers)
  ∧ length (normalEntries (useFilter pathOrHandler) (useHandlers pathOrHandler handlers))
    + length (errorEntries (useFilter pathOrHandler) (useHandlers pathOrHandler handlers))
    = length (useHandlers pathOrHandler handlers).
Proof.
  unfold use. destruct pathOrHandler as [path|h]; rewrite fold_useOne; simpl;
    (split; [reflexivity|split; [reflexivity|split; [reflexivity|]]]).
  - induction handlers as [|[rh|eh] hs IH]; simpl in *; lia.
  - assert (H : ∀ hs, (length (normalEntries "*" hs) + length (errorEntries "*" hs)
                       = length hs)%nat).
    { induction hs as [|[rh|eh] hs IH]; simpl in *; lia. }
    apply (H (h :: handlers)).
Qed.

Lemma findRoute_app_Some rs rs' method path x : ∀ k,
  findRoute k rs method path = Some x →
  findRoute k (rs ++ rs') method path = Some x.
Proof.
  induction rs as [|r rs IH]; intros k; simpl; [discriminate|].
  destruct (String.eqb (methodName (Route.method r)) method); [|apply IH].
  destruct (matched (matchPath path (Route.path r))); [trivial|apply IH].
Qed.

Lemma findRoute_app_None rs rs' method path : ∀ k,
  findRoute k rs method path = None →
  findRoute k (rs ++ rs') method path = findRoute (k + length rs) rs' method path.
Proof.
  induction rs as [|r rs IH]; intros k; simpl.
  - intros _. now rewrite Nat.add_0_r.
  - replace (k + S (length rs))%nat with (S k + length rs)%nat by lia.
    destruct (String.eqb (methodName (Route.method r)) method); [|apply IH].
    destruct (matched (matchPath path (Route.path r))); [discriminate|apply IH].
Qed.

Lemma exec_ext nxt1 nxt2 :
  (∀ err s, nxt1 err s = nxt2 err s) → ∀ c s, exec nxt1 c s = exec nxt2 c s.
Proof.
  intros Hext. induction c as [| | | | | |k IH|err k IHk onReject IHr]; intros s; simpl;
    try reflexivity; try apply IHc.
  - apply IH.
  - rewrite Hext. destruct (nxt2 err (record (Continue err) s)); auto.
Qed.

Lemma runHandlers_ext nxt1 nxt2 :
  (∀ err s, nxt1 err s = nxt2 err s) →
  ∀ hs i j s, runHandlers nxt1 i j hs s = runHandlers nxt2 i j hs s.
Proof.
  intros Hext. induction hs as [|h hs IH]; intros i j s; simpl; [reflexivity|].
  rewrite (exec_ext _ _ Hext).
  destruct (exec nxt2 h (record (InvokeRoute i j) s)); try reflexivity.
  destruct (bodyIsNull s0); [apply IH|reflexivity].
Qed.

Lemma runMiddleware_ext nxt1 nxt2 path :
  (∀ err s, nxt1 err s = nxt2 err s) →
  ∀ mws i s, runMiddleware nxt1 i mws path s = runMiddleware nxt2 i mws path s.
Proof.
  intros Hext. induction mws as [|mw mws IH]; intros i s; simpl; [reflexivity|].
  destruct (prefixMatches (Middleware.path mw) path); [|apply IH].
  rewrite (exec_ext _ _ Hext).
  destruct (exec nxt2 (Middleware.handler mw) (record (InvokeMiddleware i) s));
    try reflexivity.
  destruct (bodyIsNull s0); [apply IH|reflexivity].
Qed.

Lemma next_addRoute stack app method' path' hs method path x :
  findRoute 0 (routes app) method path = Some x →
  ∀ fuel err s,
    next stack (addRoute method' path' hs app) method path fuel err s
    = next stack app method path fuel err s.
Proof.
  intros Hfind.
  assert (Hfind' : findRoute 0 (routes (addRoute method' path' hs app)) method path = Some x)
    by (simpl; now apply findRoute_app_Some).
  destruct x as [[i route] ps].
  induction fuel as [|fuel IH]; intros [e|] s; try reflexivity;
    destruct (Nat.leb_spec stack (depth s)) as [Hd|Hd];
    try (rewrite (next_overflows _ _ _ _ _ _ _ _ _ Hfind' Hd),
                 (next_overflows _ _ _ _ _ _ _ _ _ Hfind Hd); reflexivity).
  - now rewrite (next_out_of_fuel _ _ _ _ _ _ _ _ Hfind' Hd),
                (next_out_of_fuel _ _ _ _ _ _ _ _ Hfind Hd).
  - rewrite (next_enters_route _ _ _ _ _ _ _ _ _ Hfind' Hd),
            (next_enters_route _ _ _ _ _ _ _ _ _ Hfind Hd).
    now apply runHandlers_ext.
Qed.

(** X6. Registering one more route never changes how a request is
    dispatched when a route registered before already fits it, and when
    none does the new route is taken exactly if it fits: later
    registrations do not shadow earlier ones. *)
Theorem later_route_never_shadows stack app method' path' hs fuel request :
  (∀ x,
     findRoute 0 (routes app) (Request.method request) (Request.pathname request) = Some x →
     dispatch stack fuel (addRoute method' path' hs app) request
     = dispatch stack fuel app request
     ∧ handleRequest stack fuel (addRoute method' path' hs app) request
       = handleRequest stack fuel app request)
  ∧ (findRoute 0 (routes app) (Request.method request) (Request.pathname request) = None →
     findRoute 0 (routes (addRoute method' path' hs app))
       (Request.method request) (Request.pathname request)
     = if fits (Request.method request) (Request.pathname request)
            (Route.mk method' path' hs)
       then Some (length (routes app), Route.mk method' path' hs,
                  params (matchPath (Request.pathname request) path'))
       else None).
Proof.
  split.
  - intros x Hfind.
    assert (Hd : dispatch stack fuel (addRoute method' path' hs app) request
                 = dispatch stack fuel app request).
    { unfold dispatch. cbn [middleware addRoute].
      rewrite (runMiddleware_ext _ _ _
                 (next_addRoute stack app method' path' hs _ _ x Hfind fuel)).
      destruct (runMiddleware _ 0 (middleware app) _ _); try reflexivity.
      unfold routePhase. destruct (bodyIsNull s); [|reflexivity].
      now apply next_addRoute with x. }
    split; [exact Hd|]. unfold handleRequest. now rewrite Hd.
  - intros Hnone. cbn [routes addRoute].
    rewrite (findRoute_app_None _ _ _ _ 0%nat Hnone). simpl. unfold fits. simpl.
    destruct (String.eqb (methodName method') (Request.method request)); [|reflexivity].
    simpl. destruct (matched (matchPath (Request.pathname request) path')); reflexivity.
Qed.

Lemma later_route_never_shadows_witness :
  dispatch 1 1 (get "/users/me" [Send (BodyText "late") Return] usersApp)
    (getRequest "/users/me")
  = dispatch 1 1 usersApp (getRequest "/users/me")
  ∧ handleRequest 1 1 usersApp (getRequest "/users/me")
    = Resolved (Response.mk 200 {[ "content-type" := textPlain ]} (BodyText "me")).
Proof.
  split; [|reflexivity].
  refine (proj1 (proj1 (later_route_never_shadows 1 usersApp GET "/users/me"
                          [Send (BodyText "late") Return] 1 (getRequest "/users/me"))
                   _ _)).
  reflexivity.
Defined.

(** ** Mounted routes and filters *)

Lemma matchSegments_literal_prefix pre routeParts actualParts acc :
  (∀ seg, seg ∈ pre → isParamSegment seg = false) →
  matchSegments (pre ++ routeParts) (pre ++ actualParts) acc
  = matchSegments routeParts actualParts acc.
Proof.
  induction pre as [|seg pre IH]; intros Hlit; [reflexivity|].
  simpl. pose proof (Hlit seg ltac:(left)) as Hseg. unfold isParamSegment in Hseg.
  rewrite Hseg, String.eqb_refl. simpl. apply IH. intros seg' Hseg'. apply Hlit. now right.
Qed.

Lemma string_eqb_app (x y z : string) :
  String.eqb (x ++ y) (x ++ z) = String.eqb y z.
Proof.
  induction x as [|c x IH]; [reflexivity|].
  change (String.eqb (String c x ++ y) (String c x ++ z))
    with (if Ascii.eqb c c then String.eqb (x ++ y) (x ++ z) else false).
  now rewrite Ascii.eqb_refl.
Qed.

Lemma fullPath_not_root (prefix p : string) :
  prefix ≠ "/" → fullPath prefix p = (prefix ++ p)%string.
Proof.
  intros Hne. unfold fullPath.
  destruct (String.eqb_spec prefix "/"); [contradiction|reflexivity].
Qed.

(** X7. A route mounted under a prefix answers the prefixed paths as the
    child answers the bare ones: when the prefix is not ["/"] and none of
    its segments starts with [:], the mounted copy of a route whose
    pattern begins with a slash matches [prefix + path] exactly when the
    route matches [path], with the same parameters. *)
Theorem mounted_route_matches_prefixed_path (prefix a p : string) (route : Route.t) :
  prefix ≠ "/" →
  (∀ seg, seg ∈ JsString.split_slash prefix → isParamSegment seg = false) →
  Route.path route = String "/" p →
  matchPath (prefix ++ String "/" a) (Route.path (mountedRoute prefix route))
  = matchPath (String "/" a) (Route.path route).
Proof.
  intros Hroot Hlit Hpath. cbn [mountedRoute Route.path].
  rewrite Hpath, (fullPath_not_root _ _ Hroot). unfold matchPath.
  rewrite string_eqb_app, !split_slash_app, !length_app.
  change (JsString.split_slash (String "/" p)) with (EmptyString :: JsString.split_slash p).
  change (JsString.split_slash (String "/" a)) with (EmptyString :: JsString.split_slash a).
  destruct (String.eqb (String "/" p) (String "/" a)); [reflexivity|].
  cbn [length].
  destruct (Nat.eqb_spec (length (JsString.split_slash p)) (length (JsString.split_slash a)))
    as [Hlen|Hlen].
  - rewrite Hlen, !Nat.eqb_refl. simpl negb. cbv iota.
    rewrite (matchSegments_literal_prefix _ _ _ _ Hlit). reflexivity.
  - replace (_ =? _)%nat with false by (symmetry; apply Nat.eqb_neq; lia).
    replace (_ =? _)%nat with false by (symmetry; apply Nat.eqb_neq; lia).
    reflexivity.
Qed.

Lemma mounted_route_matches_prefixed_path_witness :
  matchPath "/api/users/7" (Route.path (mountedRoute "/api" (Route.mk GET "/users/:id" [])))
  = {| matched := true; params := {[ "id" := "7" ]} |}.
Proof.
  refine (eq_trans (mounted_route_matches_prefixed_path "/api" "users/7" "users/:id"
                      (Route.mk GET "/users/:id" []) _ _ eq_refl) eq_refl);
    [discriminate|].
  intros seg Hseg.
  change (JsString.split_slash "/api") with [""; "api"]%string in Hseg.
  repeat (apply elem_of_cons in Hseg as [->|Hseg]; [reflexivity|]).
  inversion Hseg.
Defined.

Lemma startsWith_app (x f y : string) :
  JsString.startsWith (x ++ f) (x ++ y) = JsString.startsWith f y.
Proof.
  induction x as [|c x IH]; [reflexivity|].
  change (JsString.startsWith (String c x ++ f) (String c x ++ y))
    with (if Ascii.eqb c c then JsString.startsWith (x ++ f) (x ++ y) else false).
  now rewrite Ascii.eqb_refl.
Qed.

(** X8. Mounting rewrites the filter of a child middleware entry like a
    path.  Under a prefix that begins with a slash and is not ["/"], an
    entry the child registered for every path (filter ["*"]) gets the
    filter [prefix + "*"] and is not invoked for any path
    [prefix + "/" + rest]; an entry with another filter is invoked for
    [prefix + path] exactly when the child would invoke it for [path]. *)
Theorem mounted_filter_is_prefixed (prefix : string) :
  JsString.startsWith "/" prefix = true →
  prefix ≠ "/" →
  (∀ h rest,
     prefixMatches (Middleware.path (mountedMiddleware prefix (Middleware.mk "*" h)))
       (prefix ++ String "/" rest) = false)
  ∧ (∀ filter h path,
       filter ≠ "*" →
       prefixMatches (Middleware.path (mountedMiddleware prefix (Middleware.mk filter h)))
         (prefix ++ path)
       = prefixMatches filter path).
Proof.
  intros Hslash Hroot.
  assert (Hstar : ∀ f, String.eqb (prefix ++ f) "*" = false).
  { intros f. destruct prefix as [|c prefix]; [discriminate Hslash|].
    unfold JsString.startsWith in Hslash.
    destruct (Ascii.eqb_spec "/" c) as [<-|]; [reflexivity|discriminate Hslash]. }
  split.
  - intros h rest. cbn [mountedMiddleware Middleware.path].
    rewrite (fullPath_not_root _ _ Hroot). unfold prefixMatches.
    rewrite Hstar, startsWith_app. reflexivity.
  - intros filter h path Hfilter. cbn [mountedMiddleware Middleware.path].
    rewrite (fullPath_not_root _ _ Hroot). unfold prefixMatches.
    rewrite Hstar, startsWith_app.
    now destruct (String.eqb_spec filter "*").
Qed.

Lemma mounted_filter_is_prefixed_witness :
  prefixMatches (Middleware.path (mountedMiddleware "/api" (Middleware.mk "*" Return)))
    "/api/ping" = false
  ∧ prefixMatches "*" "/ping" = true.
Proof.
  split; [|reflexivity].
  apply (proj1 (mounted_filter_is_prefixed "/api" eq_refl ltac:(discriminate)) Return "ping").
Defined.

(** ** What a dispatch invokes *)

Lemma invokedMiddleware_app evs1 evs2 :
  invokedMiddleware (evs1 ++ evs2) = invokedMiddleware evs1 ++ invokedMiddleware evs2.
Proof. unfold invokedMiddleware. apply omap_app. Qed.

Lemma invokedMiddleware_below evs :
  Forall (belowMiddleware 0) evs → invokedMiddleware evs = [].
Proof.
  induction 1 as [|ev evs Hev _ IH]; [reflexivity|].
  destruct ev; simpl in Hev; try lia; exact IH.
Qed.

Lemma runMiddleware_journal nxt path :
  (∀ err s, appends (belowMiddleware 0) s (nxt err s)) →
  ∀ mws i s s',
    finalState (runMiddleware nxt i mws path s) = Some s' →
    ∃ evs, journal s' = journal s ++ evs
           ∧ invokedMiddleware evs `prefix_of` matchingMiddleware i mws path
           ∧ (runMiddleware nxt i mws path s = Returned s' → bodyIsNull s' = true →
              invokedMiddleware evs = matchingMiddleware i mws path).
Proof.
  intros Hnxt. induction mws as [|mw mws IH]; intros i s s'; simpl.
  - intros [= <-]. exists []. split; [now rewrite app_nil_r|]. split; reflexivity.
  - destruct (prefixMatches (Middleware.path mw) path); [|apply IH].
    pose proof (exec_appends (belowMiddleware 0) nxt (fun _ => I) Hnxt
                  (Middleware.handler mw) (record (InvokeMiddleware i) s)) as Hrun.
    assert (Hone : ∀ s1, finalState (exec nxt (Middleware.handler mw)
                                       (record (InvokeMiddleware i) s)) = Some s1 →
              ∃ evs1, journal s1 = journal s ++ InvokeMiddleware i :: evs1
                      ∧ invokedMiddleware (InvokeMiddleware i :: evs1) = [i]).
    { intros s1 Hs1. unfold appends in Hrun. rewrite Hs1 in Hrun.
      destruct Hrun as (evs1 & Hj1 & Hall1). simpl in Hj1. exists evs1.
      split; [rewrite Hj1; now rewrite <- app_assoc|].
      change (invokedMiddleware (InvokeMiddleware i :: evs1))
        with (i :: invokedMiddleware evs1).
      now rewrite (invokedMiddleware_below _ Hall1). }
    destruct (exec nxt (Middleware.handler mw) (record (InvokeMiddleware i) s))
      as [s1|e1 s1|s1] eqn:Hexec;
      destruct (Hone s1 eq_refl) as (evs1 & Hj1 & Hinv1).
    + destruct (bodyIsNull s1) eqn:Hnull.
      * intros Hfin. destruct (IH (S i) s1 s' Hfin) as (evs & Hj & Hpre & Hall).
        exists ((InvokeMiddleware i :: evs1) ++ evs).
        split; [rewrite Hj, Hj1; now rewrite <- !app_assoc|].
        rewrite invokedMiddleware_app, Hinv1. simpl.
        split; [now apply prefix_cons|].
        intros Hret Hs'. now rewrite (Hall Hret Hs').
      * intros [= <-]. exists (InvokeMiddleware i :: evs1).
        split; [exact Hj1|]. rewrite Hinv1.
        split; [apply prefix_cons, prefix_nil|]. intros _ Hs'. congruence.
    + intros [= <-]. exists (InvokeMiddleware i :: evs1).
      split; [exact Hj1|]. rewrite Hinv1.
      split; [apply prefix_cons, prefix_nil|]. discriminate.
    + intros [= <-]. exists (InvokeMiddleware i :: evs1).
      split; [exact Hj1|]. rewrite Hinv1.
      split; [apply prefix_cons, prefix_nil|]. discriminate.
Qed.

(** X9. In one dispatch the middleware entries that are invoked are
    entries whose filter applies to the path, each of them once, in
    registration order and without skipping one; when the handler chain
    completes with the body still null, every such entry has been
    invoked. *)
Theorem middleware_runs_once_in_order stack fuel app request :
  invokedMiddleware (journalOf (dispatch stack fuel app request))
    `prefix_of` matchingMiddleware 0 (middleware app) (Request.pathname request)
  ∧ (∀ s, dispatch stack fuel app request = Returned s → bodyIsNull s = true →
          invokedMiddleware (journal s)
          = matchingMiddleware 0 (middleware app) (Request.pathname request)).
Proof.
  set (nxt := next stack app (Request.method request) (Request.pathname request) fuel).
  pose proof (runMiddleware_journal nxt (Request.pathname request) (next_appends _ _ _ _ _)
                (middleware app) 0%nat (initial request)) as Hmw.
  unfold dispatch. fold nxt.
  destruct (runMiddleware nxt 0 (middleware app) (Request.pathname request) (initial request))
    as [s1|e1 s1|s1] eqn:Hrun.
  - destruct (Hmw s1 eq_refl) as (evs & Hj & Hpre & Hall). simpl in Hj.
    unfold routePhase. destruct (bodyIsNull s1) eqn:Hnull.
    + pose proof (next_appends stack app (Request.method request) (Request.pathname request)
                    fuel None s1) as Hnext. fold nxt in Hnext.
      unfold journalOf. unfold appends in Hnext.
      destruct (finalState (nxt None s1)) as [s2|] eqn:Hfin.
      * destruct Hnext as (evs2 & Hj2 & Hall2).
        assert (Hinv : invokedMiddleware (journal s2) = invokedMiddleware evs).
        { rewrite Hj2, Hj, invokedMiddleware_app, (invokedMiddleware_below _ Hall2).
          now rewrite app_nil_r. }
        split; [now rewrite Hinv|].
        intros s Hs _. rewrite Hs in Hfin. injection Hfin as ->.
        rewrite Hinv. now apply Hall.
      * split; [apply prefix_nil|]. intros s Hs. rewrite Hs in Hfin. discriminate Hfin.
    + unfold journalOf. simpl. rewrite Hj. split; [exact Hpre|].
      intros s [= <-] Hs. congruence.
  - destruct (Hmw s1 eq_refl) as (evs & Hj & Hpre & _). simpl in Hj.
    unfold journalOf. simpl. rewrite Hj. split; [exact Hpre|]. discriminate.
  - destruct (Hmw s1 eq_refl) as (evs & Hj & Hpre & _). simpl in Hj.
    unfold journalOf. simpl. rewrite Hj. split; [exact Hpre|]. discriminate.
Qed.

Lemma middleware_runs_once_in_order_witness :
  invokedMiddleware (journalOf (dispatch 1 0 idleThenAnswer (getRequest "/x"))) = [0; 1]%nat
  ∧ invokedMiddleware (journalOf (dispatch 1 1 loggedUsers (getRequest "/users")))
    = matchingMiddleware 0 (middleware loggedUsers) "/users".
Proof.
  split; [reflexivity|].
  refine (proj2 (middleware_runs_once_in_order 1 1 loggedUsers (getRequest "/users"))
            _ eq_refl eq_refl).
Defined.

Lemma runHandlers_appends_bounded (P : Event → Prop) nxt :
  (∀ err, P (Continue err)) →
  (∀ err s, appends P s (nxt err s)) →
  ∀ hs i j s,
    (∀ j', (j ≤ j' < j + length hs)%nat → P (InvokeRoute i j')) →
    appends P s (runHandlers nxt i j hs s).
Proof.
  intros HC Hnxt. induction hs as [|h hs IH]; intros i j s Hroute; simpl.
  - eapply appends_refl; reflexivity.
  - pose proof (exec_appends P nxt HC Hnxt h (record (InvokeRoute i j) s)) as Hrun.
    apply (appends_record P (InvokeRoute i j) s) in Hrun;
      [|apply Hroute; simpl; lia].
    destruct (exec nxt h (record (InvokeRoute i j) s)) as [s'|e' s'|s']; try exact Hrun.
    destruct (bodyIsNull s'); [|exact Hrun].
    eapply appends_returned; [exact Hrun|]. apply IH.
    intros j' Hj'. apply Hroute. simpl. lia.
Qed.

Lemma errorPhaseEvent_ofSelectedRoute app method path ev :
  errorPhaseEvent ev → ofSelectedRoute app method path ev.
Proof. destruct ev; simpl; tauto. Qed.

Lemma next_appends_selected stack app method path fuel : ∀ err s,
  appends (ofSelectedRoute app method path) s (next stack app method path fuel err s).
Proof.
  assert (Herr : ∀ fuel' e s,
            appends (ofSelectedRoute app method path) s
              (next stack app method path fuel' (Some e) s)).
  { intros fuel' e s. eapply appends_mono;
      [apply errorPhaseEvent_ofSelectedRoute|apply next_error_appends]. }
  intros [e|]; [apply Herr|]. revert fuel. apply next_none_ind.
  - intros _ s. eapply appends_refl; reflexivity.
  - intros i route ps Hfind.
    split; [intros s _; eapply appends_refl; reflexivity|].
    split; [intros s _; eapply appends_refl; reflexivity|].
    intros fuel s IH _.
    change (appends (ofSelectedRoute app method path) (enter (bindParams ps s))
              (runHandlers (next stack app method path fuel) i 0 (Route.handlers route)
                 (enter (bindParams ps s)))).
    apply runHandlers_appends_bounded; [intros; exact I| |].
    + intros [e|] s'; [apply Herr|apply IH].
    + intros j' Hj'. simpl. rewrite Hfind. exists route, ps. split; [reflexivity|lia].
Qed.

Lemma runMiddleware_appends_class (P : Event → Prop) nxt path :
  (∀ err, P (Continue err)) → (∀ i, P (InvokeMiddleware i)) →
  (∀ err s, appends P s (nxt err s)) →
  ∀ mws i s, appends P s (runMiddleware nxt i mws path s).
Proof.
  intros HC HM Hnxt. induction mws as [|mw mws IH]; intros i s; simpl.
  - eapply appends_refl; reflexivity.
  - destruct (prefixMatches (Middleware.path mw) path); [|apply IH].
    pose proof (exec_appends P nxt HC Hnxt (Middleware.handler mw)
                  (record (InvokeMiddleware i) s)) as Hrun.
    apply (appends_record P (InvokeMiddleware i) s) in Hrun; [|apply HM].
    destruct (exec nxt (Middleware.handler mw) (record (InvokeMiddleware i) s))
      as [s'|e' s'|s']; try exact Hrun.
    destruct (bodyIsNull s'); [|exact Hrun].
    eapply appends_returned; [exact Hrun|apply IH].
Qed.

Lemma dispatch_appends_class (P : Event → Prop) stack fuel app request :
  (∀ err, P (Continue err)) → (∀ i, P (InvokeMiddleware i)) →
  (∀ err s, appends P s (next stack app (Request.method request)
                           (Request.pathname request) fuel err s)) →
  Forall P (journalOf (dispatch stack fuel app request)).
Proof.
  intros HC HM Hnxt.
  assert (H : appends P (initial request) (dispatch stack fuel app request)).
  { unfold dispatch.
    pose proof (runMiddleware_appends_class P _ (Request.pathname request) HC HM Hnxt
                  (middleware app) 0%nat (initial request)) as Hmw.
    destruct (runMiddleware _ 0 (middleware app) _ _) as [s1|e1 s1|s1]; try exact Hmw.
    eapply appends_returned; [exact Hmw|].
    unfold routePhase. destruct (bodyIsNull s1);
      [apply Hnxt|eapply appends_refl; reflexivity]. }
  unfold appends, journalOf in *.
  destruct (finalState (dispatch stack fuel app request)); [|constructor].
  destruct H as (evs & Hj & Hall). simpl in Hj. now rewrite Hj.
Qed.

Lemma findRoute_unknown_method rs method path k :
  (∀ m, methodName m ≠ method) → findRoute k rs method path = None.
Proof.
  intros Hm. apply findRoute_None_iff. intros r _. unfold fits.
  destruct (String.eqb_spec (methodName (Route.method r)) method) as [Heq|]; [|reflexivity].
  destruct (Hm _ Heq).
Qed.

(** X10. Every route handler invoked in one dispatch is a handler of one
    and the same route, the first registered route that fits the method
    and the path of the request, also when handlers call the continuation
    again, whether the dispatch comes to an end, be it the error of the
    full stack, or is cut off; when no route fits, in particular when the
    method is none of GET, POST, PUT, DELETE and PATCH, no route handler
    is invoked. *)
Theorem one_route_serves_a_dispatch stack fuel app request :
  (∀ i j, InvokeRoute i j ∈ journalOf (dispatch stack fuel app request) →
     ∃ route ps,
       findRoute 0 (routes app) (Request.method request) (Request.pathname request)
       = Some (i, route, ps)
       ∧ routes app !! i = Some route
       ∧ (j < length (Route.handlers route))%nat)
  ∧ ((∀ m, methodName m ≠ Request.method request) →
     ∀ i j, InvokeRoute i j ∉ journalOf (dispatch stack fuel app request)).
Proof.
  assert (Hall : Forall (ofSelectedRoute app (Request.method request)
                           (Request.pathname request))
                   (journalOf (dispatch stack fuel app request))).
  { apply dispatch_appends_class; try (intros; exact I). apply next_appends_selected. }
  rewrite Forall_forall in Hall.
  assert (Hsel : ∀ i j, InvokeRoute i j ∈ journalOf (dispatch stack fuel app request) →
            ∃ route ps,
              findRoute 0 (routes app) (Request.method request) (Request.pathname request)
              = Some (i, route, ps)
              ∧ routes app !! i = Some route
              ∧ (j < length (Route.handlers route))%nat).
  { intros i j Hin. destruct (Hall _ Hin) as (route & ps & Hfind & Hj).
    exists route, ps. split; [exact Hfind|]. split; [|exact Hj].
    apply findRoute_Some_iff in Hfind as (n & -> & Hn & _). exact Hn. }
  split; [exact Hsel|].
  intros Hm i j Hin. destruct (Hsel i j Hin) as (route & ps & Hfind & _).
  rewrite (findRoute_unknown_method _ _ _ _ Hm) in Hfind. discriminate Hfind.
Qed.

Lemma one_route_serves_a_dispatch_witness :
  journalOf (dispatch 2 2 callsItself (getRequest "/x"))
  = [InvokeRoute 0 0; Continue None; InvokeRoute 0 0; Continue None]
  ∧ (∃ route ps, findRoute 0 (routes callsItself) "GET" "/x" = Some (0%nat, route, ps)
                 ∧ routes callsItself !! 0%nat = Some route
                 ∧ (0 < length (Route.handlers route))%nat)
  ∧ ∀ i j, InvokeRoute i j ∉
           journalOf (dispatch 1 1 usersApp (Request.mk "HEAD" "http://localhost/users/me" ∅
                                               "/users/me" ∅ BodyNull)).
Proof.
  split; [reflexivity|]. split.
  - apply (proj1 (one_route_serves_a_dispatch 2 2 callsItself (getRequest "/x")) 0%nat 0%nat).
    change (journalOf (dispatch 2 2 callsItself (getRequest "/x")))
      with [InvokeRoute 0 0; Continue None; InvokeRoute 0 0; Continue None].
    left.
  - apply (proj2 (one_route_serves_a_dispatch 1 1 usersApp
                    (Request.mk "HEAD" "http://localhost/users/me" ∅ "/users/me" ∅ BodyNull))).
    intros []; discriminate.
Defined.

Lemma signalled_app evs1 evs2 : signalled evs1 → signalled evs2 → signalled (evs1 ++ evs2).
Proof.
  intros H1 H2 k Hin. apply elem_of_app in Hin as [Hin|Hin].
  - destruct (H1 k Hin) as [e He]. exists e. apply elem_of_app. now left.
  - destruct (H2 k Hin) as [e He]. exists e. apply elem_of_app. now right.
Qed.

Lemma signalled_after_signal e evs : signalled (Continue (Some e) :: evs).
Proof. intros k _. exists e. left. Qed.

Lemma signalled_single ev : (∀ k, ev ≠ InvokeError k) → signalled [ev].
Proof.
  intros Hev k Hin. apply list_elem_of_singleton in Hin. symmetry in Hin.
  destruct (Hev _ Hin).
Qed.

Lemma signalledGrowth_refl s o s' :
  finalState o = Some s' → journal s' = journal s → signalledGrowth s o.
Proof.
  intros H Hj. unfold signalledGrowth. rewrite H. exists [].
  split; [now rewrite app_nil_r|]. intros k Hin. inversion Hin.
Qed.

Lemma signalledGrowth_after s s1 o evs :
  journal s1 = journal s ++ evs → signalled evs →
  signalledGrowth s1 o → signalledGrowth s o.
Proof.
  intros Hj Hevs. unfold signalledGrowth. destruct (finalState o); [|trivial].
  intros (evs' & Hj' & Hg). exists (evs ++ evs'). split.
  - rewrite Hj', Hj. now rewrite app_assoc.
  - now apply signalled_app.
Qed.

Lemma signalledGrowth_returned s s1 o :
  signalledGrowth s (Returned s1) → signalledGrowth s1 o → signalledGrowth s o.
Proof.
  intros (evs & Hj & Hg). simpl in Hj. eapply signalledGrowth_after; eassumption.
Qed.

Lemma exec_signalled nxt :
  (∀ e s, appends (fun _ => True) s (nxt (Some e) s)) →
  (∀ s, signalledGrowth s (nxt None s)) →
  ∀ c s, signalledGrowth s (exec nxt c s).
Proof.
  intros Herr Hnone.
  induction c as [| | | | | |k IH|err k IHk onReject IHr]; intros s; simpl;
    try (eapply signalledGrowth_refl; reflexivity); try apply (IHc (withRes _ s)).
  - apply IH.
  - assert (Hcall : ∀ s1, finalState (nxt err (record (Continue err) s)) = Some s1 →
                          ∃ evs, journal s1 = journal s ++ evs ∧ signalled evs).
    { intros s1 Hs1. destruct err as [e|].
      - pose proof (Herr e (record (Continue (Some e)) s)) as H.
        unfold appends in H. rewrite Hs1 in H. destruct H as (evs & Hj & _).
        exists (Continue (Some e) :: evs). split.
        + rewrite Hj. simpl. now rewrite <- app_assoc.
        + apply signalled_after_signal.
      - pose proof (Hnone (record (Continue None) s)) as H.
        unfold signalledGrowth in H. rewrite Hs1 in H. destruct H as (evs & Hj & Hg).
        exists ([Continue None] ++ evs). split.
        + rewrite Hj. simpl. now rewrite <- app_assoc.
        + apply signalled_app; [apply signalled_single; discriminate|exact Hg]. }
    destruct (nxt err (record (Continue err) s)) as [s1|e1 s1|s1];
      destruct (Hcall s1 eq_refl) as (evs & Hj & Hg).
    + eapply signalledGrowth_after; [exact Hj|exact Hg|apply (IHk (unwind s1))].
    + eapply signalledGrowth_after; [exact Hj|exact Hg|apply (IHr e1 (unwind s1))].
    + exists evs. now split.
Qed.

Lemma runHandlers_signalled nxt :
  (∀ e s, appends (fun _ => True) s (nxt (Some e) s)) →
  (∀ s, signalledGrowth s (nxt None s)) →
  ∀ hs i j s, signalledGrowth s (runHandlers nxt i j hs s).
Proof.
  intros Herr Hnone. induction hs as [|h hs IH]; intros i j s; simpl.
  - eapply signalledGrowth_refl; reflexivity.
  - assert (Hrun : signalledGrowth s (exec nxt h (record (InvokeRoute i j) s))).
    { apply (signalledGrowth_after s (record (InvokeRoute i j) s) _ [InvokeRoute i j]);
        [reflexivity|apply signalled_single; discriminate|].
      now apply exec_signalled. }
    destruct (exec nxt h (record (InvokeRoute i j) s)) as [s'|e' s'|s']; try exact Hrun.
    destruct (bodyIsNull s'); [|exact Hrun].
    eapply signalledGrowth_returned; [exact Hrun|apply IH].
Qed.

Lemma next_error_grows stack app method path fuel e s :
  appends (fun _ => True) s (next stack app method path fuel (Some e) s).
Proof. eapply appends_mono; [|apply next_error_appends]. trivial. Qed.

Lemma next_signalled stack app method path : ∀ fuel s,
  signalledGrowth s (next stack app method path fuel None s).
Proof.
  apply next_none_ind.
  - intros _ s. eapply signalledGrowth_refl; reflexivity.
  - intros i route ps Hfind.
    split; [intros s _; eapply signalledGrowth_refl; reflexivity|].
    split; [intros s _; eapply signalledGrowth_refl; reflexivity|].
    intros fuel s IH _.
    change (signalledGrowth (enter (bindParams ps s))
              (runHandlers (next stack app method path fuel) i 0 (Route.handlers route)
                 (enter (bindParams ps s)))).
    apply runHandlers_signalled; [intros; apply next_error_grows|exact IH].
Qed.

Lemma runMiddleware_signalled nxt path :
  (∀ e s, appends (fun _ => True) s (nxt (Some e) s)) →
  (∀ s, signalledGrowth s (nxt None s)) →
  ∀ mws i s, signalledGrowth s (runMiddleware nxt i mws path s).
Proof.
  intros Herr Hnone. induction mws as [|mw mws IH]; intros i s; simpl.
  - eapply signalledGrowth_refl; reflexivity.
  - destruct (prefixMatches (Middleware.path mw) path); [|apply IH].
    assert (Hrun : signalledGrowth s (exec nxt (Middleware.handler mw)
                                        (record (InvokeMiddleware i) s))).
    { apply (signalledGrowth_after s (record (InvokeMiddleware i) s) _ [InvokeMiddleware i]);
        [reflexivity|apply signalled_single; discriminate|].
      now apply exec_signalled. }
    destruct (exec nxt (Middleware.handler mw) (record (InvokeMiddleware i) s))
      as [s'|e' s'|s']; try exact Hrun.
    destruct (bodyIsNull s'); [|exact Hrun].
    eapply signalledGrowth_returned; [exact Hrun|apply IH].
Qed.

(** X11. Error handlers are invoked only in a dispatch in which some
    handler has called the continuation with an error, so an exception
    that a handler throws is not offered to them: when an exception
    reaches the dispatcher in a dispatch without such a call, no error
    handler has been invoked, and the response is the generic one of
    status 500. *)
Theorem error_handlers_need_a_signal stack fuel app request :
  (∀ k, InvokeError k ∈ journalOf (dispatch stack fuel app request) →
        ∃ e, Continue (Some e) ∈ journalOf (dispatch stack fuel app request))
  ∧ (∀ e s, dispatch stack fuel app request = Thrown e s →
            (∀ e', Continue (Some e') ∉ journal s) →
            (∀ k, InvokeError k ∉ journal s)
            ∧ handleRequest stack fuel app request = Resolved serverError).
Proof.
  set (nxt := next stack app (Request.method request) (Request.pathname request) fuel).
  assert (Hgrow : signalledGrowth (initial request) (dispatch stack fuel app request)).
  { unfold dispatch. fold nxt.
    pose proof (runMiddleware_signalled nxt (Request.pathname request)
                  (next_error_grows _ _ _ _ _) (next_signalled _ _ _ _ _)
                  (middleware app) 0%nat (initial request)) as Hmw.
    destruct (runMiddleware nxt 0 (middleware app) (Request.pathname request)
                (initial request)) as [s1|e1 s1|s1]; try exact Hmw.
    eapply signalledGrowth_returned; [exact Hmw|].
    unfold routePhase. destruct (bodyIsNull s1);
      [apply next_signalled|eapply signalledGrowth_refl; reflexivity]. }
  assert (Hsig : ∀ k, InvokeError k ∈ journalOf (dispatch stack fuel app request) →
                      ∃ e, Continue (Some e) ∈ journalOf (dispatch stack fuel app request)).
  { unfold signalledGrowth, journalOf in *.
    destruct (finalState (dispatch stack fuel app request)) as [s|];
      [|intros k Hk; inversion Hk].
    destruct Hgrow as (evs & Hj & Hg). simpl in Hj. rewrite Hj. exact Hg. }
  split; [exact Hsig|].
  intros e s Hd Hnone. split.
  - intros k Hk. unfold journalOf in Hsig. rewrite Hd in Hsig. simpl in Hsig.
    destruct (Hsig k Hk) as [e' He']. exact (Hnone e' He').
  - now apply handleRequest_thrown with e s.
Qed.

Lemma error_handlers_need_a_signal_witness :
  journalOf (dispatch 1 0 throwingMiddleware (getRequest "/x")) = [InvokeMiddleware 0]
  ∧ handleRequest 1 0 throwingMiddleware (getRequest "/x") = Resolved serverError
  ∧ journalOf (dispatch 1 0 signallingMiddleware (getRequest "/x"))
    = [InvokeMiddleware 0; Continue (Some "boom"); InvokeError 0]
  ∧ ∃ e, Continue (Some e) ∈ journalOf (dispatch 1 0 signallingMiddleware (getRequest "/x")).
Proof.
  split; [reflexivity|]. split.
  - eapply (proj2 (error_handlers_need_a_signal 1 0 throwingMiddleware (getRequest "/x")));
      [reflexivity|].
    intros e' He'. simpl in He'. apply list_elem_of_singleton in He'. discriminate He'.
  - split; [reflexivity|].
    apply (proj1 (error_handlers_need_a_signal 1 0 signallingMiddleware (getRequest "/x"))
             0%nat).
    change (journalOf (dispatch 1 0 signallingMiddleware (getRequest "/x")))
      with [InvokeMiddleware 0; Continue (Some "boom"); InvokeError 0].
    right. right. left.
Defined.

(** X12. In the handler chain of the matched route the first handler is
    invoked whatever the response body holds, each further handler is
    invoked only while the body is null, and when a handler returns with
    a body the handlers after it are not invoked and the call of the
    continuation returns. *)
Theorem route_chain_stops_at_first_body nxt i pre h post : ∀ j s s1 s2,
  runHandlers nxt i j pre s = Returned s1 →
  (pre = [] ∨ bodyIsNull s1 = true) →
  exec nxt h (record (InvokeRoute i (j + length pre)) s1) = Returned s2 →
  bodyIsNull s2 = false →
  runHandlers nxt i j (pre ++ h :: post) s = Returned s2.
Proof.
  induction pre as [|h0 pre IH]; intros j s s1 s2 Hpre Hnull Hexec Hbody.
  - simpl in *. injection Hpre as <-. rewrite Nat.add_0_r in Hexec.
    now rewrite Hexec, Hbody.
  - destruct Hnull as [Hnil|Hnull]; [discriminate Hnil|].
    simpl in *.
    destruct (exec nxt h0 (record (InvokeRoute i j) s)) as [s'|e' s'|s'];
      try discriminate Hpre.
    destruct (bodyIsNull s') eqn:Hs'.
    + apply (IH (S j) s' s1 s2 Hpre); [now right| |exact Hbody].
      now replace (S j + length pre)%nat with (j + S (length pre))%nat by lia.
    + injection Hpre as <-. congruence.
Qed.

Lemma route_chain_stops_at_first_body_witness :
  ∃ s2, runHandlers noop 0 0
          ([Status 201 Return] ++ Send (BodyText "first") Return
                                  :: [Send (BodyText "second") Return])
          (initial (getRequest "/x")) = Returned s2
        ∧ SlopResponse.body (res s2) = BodyText "first"
        ∧ journal s2 = [InvokeRoute 0 0; InvokeRoute 0 1].
Proof.
  eexists. split.
  - eapply (route_chain_stops_at_first_body noop 0 [Status 201 Return]
              (Send (BodyText "first") Return) [Send (BodyText "second") Return] 0%nat);
      [reflexivity|now right|reflexivity|reflexivity].
  - split; reflexivity.
Defined.

(** ** Static files *)

Lemma startsWith_slash_cons c rest :
  JsString.startsWith "/" (String c rest) = Ascii.eqb "/" c.
Proof.
  change (JsString.startsWith "/" (String c rest))
    with (if Ascii.eqb "/" c then true else false).
  now destruct (Ascii.eqb "/" c).
Qed.

Lemma normalizePath_startsWith_slash (path : string) :
  JsString.startsWith "/" (normalizePath path) = JsString.startsWith "/" path.
Proof.
  induction path as [|c rest IH]; [reflexivity|].
  cbn [normalizePath].
  destruct (Ascii.eqb c "/" && JsString.startsWith "/" rest) eqn:Hdrop.
  - apply andb_true_iff in Hdrop as [Hc Hrest]. rewrite IH, Hrest.
    rewrite startsWith_slash_cons. apply Ascii.eqb_eq in Hc. subst c. reflexivity.
  - now rewrite !startsWith_slash_cons.
Qed.

Lemma normalizePath_id (path : string) :
  hasDoubleSlash path = false → normalizePath path = path.
Proof.
  induction path as [|c rest IH]; [reflexivity|].
  cbn [hasDoubleSlash normalizePath]. intros H.
  apply orb_false_iff in H as [Hdrop Hrest]. rewrite Hdrop. now rewrite IH.
Qed.

(** X13. The path normalisation of the static file middleware leaves no
    two slashes next to each other, and a path without such a pair is
    left as it is. *)
Theorem normalizePath_removes_double_slashes (path : string) :
  hasDoubleSlash (normalizePath path) = false
  ∧ (hasDoubleSlash path = false → normalizePath path = path)
  ∧ normalizePath (normalizePath path) = normalizePath path.
Proof.
  assert (Hnone : ∀ p, hasDoubleSlash (normalizePath p) = false).
  { induction p as [|c rest IH]; [reflexivity|].
    cbn [normalizePath].
    destruct (Ascii.eqb c "/" && JsString.startsWith "/" rest) eqn:Hdrop; [exact IH|].
    cbn [hasDoubleSlash]. now rewrite normalizePath_startsWith_slash, Hdrop, IH. }
  split; [apply Hnone|]. split; [apply normalizePath_id|]. apply normalizePath_id, Hnone.
Qed.

Lemma normalizePath_removes_double_slashes_witness :
  normalizePath "/srv//web///a.js" = "/srv/web/a.js"
  ∧ normalizePath "/srv/web/a.js" = "/srv/web/a.js".
Proof.
  split; [reflexivity|].
  apply (proj1 (proj2 (normalizePath_removes_double_slashes "/srv/web/a.js"))). reflexivity.
Defined.

Lemma sendFile_body read contentTypeOf filePath r :
  isNull (SlopResponse.body (sendFile read contentTypeOf filePath r)) = false.
Proof. unfold sendFile. destruct (read filePath); reflexivity. Qed.

Lemma sendFile_keeps_404 read contentTypeOf filePath r :
  SlopResponse.statusCode r = 404%Z →
  SlopResponse.statusCode (sendFile read contentTypeOf filePath r) = 404%Z.
Proof. intros H. unfold sendFile. destruct (read filePath); [exact H|reflexivity]. Qed.

Lemma tryPaths_after_404 read contentTypeOf paths : ∀ r,
  SlopResponse.statusCode r = 404%Z →
  tryPaths read contentTypeOf paths r
  = Continues (fold_left (fun r' p => sendFile read contentTypeOf p r') paths r)
  ∧ SlopResponse.statusCode
      (fold_left (fun r' p => sendFile read contentTypeOf p r') paths r) = 404%Z.
Proof.
  induction paths as [|p paths IH]; intros r Hr; simpl; [now split|].
  pose proof (sendFile_keeps_404 read contentTypeOf p r Hr) as Hp.
  rewrite Hp. simpl. now apply IH.
Qed.

Lemma fold_sendFile_body read contentTypeOf paths : ∀ r,
  isNull (SlopResponse.body r) = false →
  isNull (SlopResponse.body
            (fold_left (fun r' p => sendFile read contentTypeOf p r') paths r)) = false.
Proof.
  induction paths as [|p paths IH]; intros r Hr; simpl; [exact Hr|].
  apply IH, sendFile_body.
Qed.

Lemma fold_sendFile_last read contentTypeOf paths p text r :
  read p = Some text →
  SlopResponse.body
    (fold_left (fun r' p' => sendFile read contentTypeOf p' r') (paths ++ [p]) r)
  = BodyText text.
Proof.
  intros Hp. rewrite fold_left_app. simpl. unfold sendFile at 1. now rewrite Hp.
Qed.

(** X14. The static file middleware with options passes a request on
    untouched when its method is not GET.  For a GET request whose file
    cannot be read it always ends by calling the continuation, with
    status 404 and a body that is not null on the response; the directory
    index and the single page fallback are still read, but they do not
    end the request: in single page mode, for a path that is not an asset
    request and with an index file that can be read, the continuation
    runs with the text of the index file as body and with status 404;
    for a path with an extension that gets no fallback, the body is
    ["File not found"]. *)
Theorem staticFiles_miss_always_continues read contentTypeOf absDirectory indexFile
    spaMode req r :
  (SlopRequest.method req ≠ "GET" →
   staticFiles read contentTypeOf absDirectory indexFile spaMode req r = Continues r)
  ∧ (SlopRequest.method req = "GET" →
     read (normalizePath (absDirectory ++ "/" ++ cleanPath indexFile req)) = None →
     ∃ r', staticFiles read contentTypeOf absDirectory indexFile spaMode req r = Continues r'
           ∧ SlopResponse.statusCode r' = 404%Z
           ∧ isNull (SlopResponse.body r') = false
           ∧ (spaMode = true → isAssetRequest (cleanPath indexFile req) = false →
              ∀ text, read (normalizePath (absDirectory ++ "/" ++ indexFile)) = Some text →
                      SlopResponse.body r' = BodyText text)
           ∧ (hasExtension (cleanPath indexFile req) = true →
              spaMode && negb (isAssetRequest (cleanPath indexFile req)) = false →
              SlopResponse.body r' = BodyText "File not found")).
Proof.
  split.
  { intros Hother. unfold staticFiles.
    destruct (String.eqb_spec (SlopRequest.method req) "GET"); [contradiction|reflexivity]. }
  intros Hget Hmiss. unfold staticFiles. rewrite Hget. simpl negb. cbv iota.
  unfold pathsToTry.
  set (clean := cleanPath indexFile req) in *.
  set (rest := (if negb (hasExtension clean) then _ else []) ++ _).
  change ([normalizePath (absDirectory ++ "/" ++ clean)] ++ rest)
    with (normalizePath (absDirectory ++ "/" ++ clean) :: rest).
  set (r404 := SlopResponse.mk 404 (SlopResponse.headers r) (BodyText "File not found")).
  assert (Hsend : sendFile read contentTypeOf
                    (normalizePath (absDirectory ++ "/" ++ clean)) r = r404)
    by (unfold sendFile; now rewrite Hmiss).
  cbn [tryPaths]. rewrite Hsend. simpl negb. cbv iota.
  destruct (tryPaths_after_404 read contentTypeOf rest r404 eq_refl) as [Hrun Hst].
  eexists. split; [exact Hrun|]. split; [exact Hst|].
  split; [now apply fold_sendFile_body|]. split.
  - intros Hspa Hasset text Hindex. unfold rest. rewrite Hspa, Hasset. simpl andb. cbv iota.
    now apply fold_sendFile_last.
  - intros Hext Hnofallback. unfold rest. rewrite Hext, Hnofallback. reflexivity.
Qed.

Lemma staticFiles_miss_always_continues_witness :
  (∃ r', staticFiles webDirectory (fun _ => "text/html") "/srv/web" "index.html" true
           (getOf "/dashboard") freshResponse = Continues r'
         ∧ SlopResponse.statusCode r' = 404%Z
         ∧ SlopResponse.body r' = BodyText "<html>")
  ∧ (∃ r', staticFiles webDirectory (fun _ => "text/html") "/srv/web" "index.html" true
             (getOf "/missing.js") freshResponse = Continues r'
           ∧ SlopResponse.body r' = BodyText "File not found")
  ∧ staticFiles webDirectory (fun _ => "text/html") "/srv/web" "index.html" true
      (SlopRequest.mk "POST" "http://localhost/nope.txt" ∅ "/nope.txt" ∅ ∅ BodyNull)
      freshResponse
    = Continues freshResponse.
Proof.
  split; [|split].
  - destruct (proj2 (staticFiles_miss_always_continues webDirectory (fun _ => "text/html")
                       "/srv/web" "index.html" true (getOf "/dashboard") freshResponse)
                eq_refl eq_refl) as (r' & Hrun & Hst & _ & Hbody & _).
    exists r'. split; [exact Hrun|]. split; [exact Hst|].
    apply (Hbody eq_refl eq_refl "<html>"). reflexivity.
  - destruct (proj2 (staticFiles_miss_always_continues webDirectory (fun _ => "text/html")
                       "/srv/web" "index.html" true (getOf "/missing.js") freshResponse)
                eq_refl eq_refl) as (r' & Hrun & _ & _ & _ & Hbody).
    exists r'. split; [exact Hrun|]. apply Hbody; reflexivity.
  - apply (proj1 (staticFiles_miss_always_continues webDirectory (fun _ => "text/html")
                    "/srv/web" "index.html" true
                    (SlopRequest.mk "POST" "http://localhost/nope.txt" ∅ "/nope.txt" ∅ ∅
                       BodyNull) freshResponse)).
    discriminate.
Defined.

(** X15. For a GET request for a file that can be read, the static file
    middleware with options ends the handler with the text of the file
    as body, its content type in the headers and the status it found;
    but when the response already carries status 404 on entry the
    middleware never ends the handler itself: it calls the continuation,
    also when the file exists. *)
Theorem staticFiles_hit_unless_stale_404 read contentTypeOf absDirectory indexFile
    spaMode req r :
  SlopRequest.method req = "GET" →
  (SlopResponse.statusCode r ≠ 404%Z →
   ∀ text,
     read (normalizePath (absDirectory ++ "/" ++ cleanPath indexFile req)) = Some text →
     staticFiles read contentTypeOf absDirectory indexFile spaMode req r
     = Finished (SlopResponse.mk (SlopResponse.statusCode r)
                   (<["content-type" :=
                        contentTypeOf
                          (normalizePath (absDirectory ++ "/" ++ cleanPath indexFile req))]>
                      (SlopResponse.headers r))
                   (BodyText text)))
  ∧ (SlopResponse.statusCode r = 404%Z →
     ∃ r', staticFiles read contentTypeOf absDirectory indexFile spaMode req r
           = Continues r'
           ∧ SlopResponse.statusCode r' = 404%Z).
Proof.
  intros Hget. unfold staticFiles. rewrite Hget. simpl negb. cbv iota. split.
  - intros Hst text Hread. unfold pathsToTry.
    set (rest := (if negb (hasExtension _) then _ else []) ++ _).
    change ([?p] ++ rest) with (p :: rest).
    cbn [app tryPaths]. unfold sendFile. rewrite Hread. cbn [SlopResponse.statusCode].
    destruct (Z.eqb_spec (SlopResponse.statusCode r) 404); [contradiction|reflexivity].
  - intros Hst.
    destruct (tryPaths_after_404 read contentTypeOf
                (pathsToTry absDirectory indexFile spaMode (cleanPath indexFile req)) r Hst)
      as [Hrun Hst'].
    eexists. split; [exact Hrun|exact Hst'].
Qed.

Lemma staticFiles_hit_unless_stale_404_witness :
  staticFiles webDirectory (fun _ => "text/javascript") "/srv/web" "index.html" true
    (getOf "/app.js") freshResponse
  = Finished (SlopResponse.mk 200 {[ "content-type" := "text/javascript" ]} (BodyText "js()"))
  ∧ ∃ r', staticFiles webDirectory (fun _ => "text/javascript") "/srv/web" "index.html" true
            (getOf "/app.js") (SlopResponse.mk 404 ∅ BodyNull) = Continues r'
          ∧ SlopResponse.statusCode r' = 404%Z.
Proof.
  pose proof (staticFiles_hit_unless_stale_404 webDirectory (fun _ => "text/javascript")
                "/srv/web" "index.html" true (getOf "/app.js")) as H.
  split.
  - refine (eq_trans (proj1 (H freshResponse eq_refl) _ "js()" eq_refl) eq_refl).
    discriminate.
  - apply (proj2 (H (SlopResponse.mk 404 ∅ BodyNull) eq_refl)). reflexivity.
Defined.

(** X16. The two variants of the static file middleware agree on a
    request for a path with an extension: without single page mode, and
    when the joined path has no double slash, the variant with options
    does what the plain variant does. *)
Theorem staticFiles_variants_agree read contentTypeOf absDirectory indexFile req r :
  hasExtension (cleanPath indexFile req) = true →
  hasDoubleSlash (absDirectory ++ "/" ++ cleanPath indexFile req) = false →
  staticFiles read contentTypeOf absDirectory indexFile false req r
  = staticFilesPlain read contentTypeOf absDirectory indexFile req r.
Proof.
  intros Hext Hslash. unfold staticFiles, staticFilesPlain.
  destruct (negb (String.eqb (SlopRequest.method req) "GET")); [reflexivity|].
  unfold pathsToTry. rewrite Hext. simpl.
  rewrite (normalizePath_id _ Hslash).
  now destruct (SlopResponse.statusCode (sendFile read contentTypeOf _ r) =? 404)%Z.
Qed.

Lemma staticFiles_variants_agree_witness :
  staticFilesPlain webDirectory (fun _ => "text/javascript") "/srv/web" "index.html"
    (getOf "/app.js") freshResponse
  = Finished (SlopResponse.mk 200 {[ "content-type" := "text/javascript" ]} (BodyText "js()")).
Proof.
  rewrite <- (staticFiles_variants_agree webDirectory (fun _ => "text/javascript")
                "/srv/web" "index.html" (getOf "/app.js") freshResponse eq_refl eq_refl).
  reflexivity.
Defined.

(** ** The request object of a dispatch *)

Lemma exec_request (I : SlopRequest.t → Prop) nxt :
  (∀ err s s', finalState (nxt err s) = Some s' → I (req s) → I (req s')) →
  ∀ c s s', finalState (exec nxt c s) = Some s' → I (req s) → I (req s').
Proof.
  intros Hnxt. induction c as [| | | | | |k IH|err k IHk onReject IHr]; intros s s'; simpl;
    try (intros [= <-]; trivial); try apply (IHc (withRes _ s)).
  - apply IH.
  - specialize (Hnxt err (record (Continue err) s)).
    destruct (nxt err (record (Continue err) s)) as [s1|e1 s1|s1]; intros Hfin Hs.
    + apply (IHk (unwind s1) s' Hfin). now apply (Hnxt s1 eq_refl).
    + apply (IHr e1 (unwind s1) s' Hfin). now apply (Hnxt s1 eq_refl).
    + injection Hfin as <-. now apply (Hnxt s1 eq_refl).
Qed.

Lemma runHandlers_request (I : SlopRequest.t → Prop) nxt :
  (∀ err s s', finalState (nxt err s) = Some s' → I (req s) → I (req s')) →
  ∀ hs i j s s', finalState (runHandlers nxt i j hs s) = Some s' → I (req s) → I (req s').
Proof.
  intros Hnxt. induction hs as [|h hs IH]; intros i j s s'; simpl.
  - intros [= <-]. trivial.
  - pose proof (exec_request I nxt Hnxt h (record (InvokeRoute i j) s)) as Hrun.
    destruct (exec nxt h (record (InvokeRoute i j) s)) as [s1|e1 s1|s1].
    + destruct (bodyIsNull s1).
      * intros Hfin Hs. eapply IH; [exact Hfin|]. now apply (Hrun s1 eq_refl).
      * intros [= <-] Hs. now apply (Hrun s1 eq_refl).
    + intros [= <-] Hs. now apply (Hrun s1 eq_refl).
    + intros [= <-] Hs. now apply (Hrun s1 eq_refl).
Qed.

Lemma noop_request (I : SlopRequest.t → Prop) err s s' :
  finalState (noop err s) = Some s' → I (req s) → I (req s').
Proof. intros [= <-]. trivial. Qed.

Lemma errorLoop_request (I : SlopRequest.t → Prop) ehs : ∀ i path e s,
  I (req s) →
  match errorLoop i ehs path e s with
  | inl o => ∀ s', finalState o = Some s' → I (req s')
  | inr s' => I (req s')
  end.
Proof.
  induction ehs as [|eh ehs IH]; intros i path e s Hs; simpl; [exact Hs|].
  destruct (prefixMatches (Middleware.path eh) path); [|now apply IH].
  pose proof (exec_request I noop (noop_request I)
                (Middleware.handler eh e) (record (InvokeError i) s)) as Hrun.
  destruct (exec noop (Middleware.handler eh e) (record (InvokeError i) s))
    as [s1|e1 s1|s1].
  - destruct (bodyIsNull s1).
    + apply IH. now apply (Hrun s1 eq_refl).
    + intros s' [= <-]. now apply (Hrun s1 eq_refl).
  - intros s' [= <-]. now apply (Hrun s1 eq_refl).
  - intros s' [= <-]. now apply (Hrun s1 eq_refl).
Qed.

Lemma next_request stack app request fuel : ∀ err s s',
  finalState (next stack app (Request.method request) (Request.pathname request) fuel err s)
  = Some s' →
  requestOf app request (req s) → requestOf app request (req s').
Proof.
  assert (Herr : ∀ fuel' e s s',
            finalState (next stack app (Request.method request) (Request.pathname request)
                          fuel' (Some e) s) = Some s' →
            requestOf app request (req s) → requestOf app request (req s')).
  { intros fuel' e s s' Hfin Hs. rewrite next_error in Hfin. unfold errorPhase in Hfin.
    pose proof (errorLoop_request (requestOf app request) (errorHandlers app) 0
                  (Request.pathname request) e s Hs) as Hloop.
    destruct (errorLoop 0 (errorHandlers app) (Request.pathname request) e s);
      [now apply Hloop|]. injection Hfin as <-. exact Hloop. }
  intros [e|]; [apply Herr|]. revert fuel.
  assert (Hbound : ∀ i route ps s,
            findRoute 0 (routes app) (Request.method request) (Request.pathname request)
            = Some (i, route, ps) →
            requestOf app request (req s) →
            requestOf app request (req (bindParams ps s))).
  { intros i route ps s Hfind Hs. right. exists i, route, ps. split; [exact Hfind|].
    change (withParams ps (req s) = withParams ps (req (initial request))).
    destruct Hs as [Hq|(i' & route' & ps' & _ & Hq)]; rewrite Hq; reflexivity. }
  apply (next_none_ind (fun s o => ∀ s', finalState o = Some s' →
                                         requestOf app request (req s) →
                                         requestOf app request (req s'))).
  - intros _ s s' [= <-]. trivial.
  - intros i route ps Hfind.
    split; [intros s _ s' [= <-]; now apply Hbound with i route|].
    split; [intros s _ s' [= <-]; now apply Hbound with i route|].
    intros fuel s IH _ s' Hfin Hs.
    eapply (runHandlers_request (requestOf app request)); [|exact Hfin|].
    + intros [e|]; [apply Herr|apply IH].
    + now apply (Hbound i route ps s).
Qed.

Lemma runMiddleware_request (I : SlopRequest.t → Prop) nxt path :
  (∀ err s s', finalState (nxt err s) = Some s' → I (req s) → I (req s')) →
  ∀ mws i s s', finalState (runMiddleware nxt i mws path s) = Some s' →
                I (req s) → I (req s').
Proof.
  intros Hnxt. induction mws as [|mw mws IH]; intros i s s'; simpl.
  - intros [= <-]. trivial.
  - destruct (prefixMatches (Middleware.path mw) path); [|apply IH].
    pose proof (exec_request I nxt Hnxt (Middleware.handler mw)
                  (record (InvokeMiddleware i) s)) as Hrun.
    destruct (exec nxt (Middleware.handler mw) (record (InvokeMiddleware i) s))
      as [s1|e1 s1|s1].
    + destruct (bodyIsNull s1).
      * intros Hfin Hs. eapply IH; [exact Hfin|]. now apply (Hrun s1 eq_refl).
      * intros [= <-] Hs. now apply (Hrun s1 eq_refl).
    + intros [= <-] Hs. now apply (Hrun s1 eq_refl).
    + intros [= <-] Hs. now apply (Hrun s1 eq_refl).
Qed.

(** X17. The dispatcher writes nothing into the request object but the
    parameters of the route it selects: at the end of a dispatch the
    request object is the one built at the start, with [params] either
    still empty or equal to the parameters of the first registered route
    that fits, never those of another route. *)
Theorem request_params_are_of_selected_route stack fuel app request s :
  finalState (dispatch stack fuel app request) = Some s →
  requestOf app request (req s)
  ∧ (SlopRequest.params (req s) = ∅
     ∨ ∃ i route,
         findRoute 0 (routes app) (Request.method request) (Request.pathname request)
         = Some (i, route, SlopRequest.params (req s))).
Proof.
  intros Hfin.
  assert (Hreq : requestOf app request (req s)).
  { set (nxt := next stack app (Request.method request) (Request.pathname request) fuel).
    assert (Hnxt : ∀ err s0 s', finalState (nxt err s0) = Some s' →
                     requestOf app request (req s0) → requestOf app request (req s'))
      by (intros; eapply next_request; eassumption).
    unfold dispatch in Hfin. fold nxt in Hfin.
    pose proof (runMiddleware_request (requestOf app request) nxt (Request.pathname request)
                  Hnxt (middleware app) 0%nat (initial request)) as Hmw.
    destruct (runMiddleware nxt 0 (middleware app) (Request.pathname request)
                (initial request)) as [s1|e1 s1|s1].
    - assert (Hs1 : requestOf app request (req s1)) by (apply (Hmw s1 eq_refl); now left).
      unfold routePhase in Hfin. destruct (bodyIsNull s1).
      + eapply Hnxt; eassumption.
      + injection Hfin as <-. exact Hs1.
    - injection Hfin as <-. apply (Hmw s1 eq_refl). now left.
    - injection Hfin as <-. apply (Hmw s1 eq_refl). now left. }
  split; [exact Hreq|].
  destruct Hreq as [->|(i & route & ps & Hfind & ->)]; [now left|].
  right. exists i, route. exact Hfind.
Qed.

Lemma request_params_are_of_selected_route_witness :
  ∃ s, finalState (dispatch 1 1 usersApp (getRequest "/users/me")) = Some s
       ∧ SlopRequest.params (req s) = {[ "id" := "me" ]}
       ∧ requestOf usersApp (getRequest "/users/me") (req s).
Proof.
  eexists. split; [reflexivity|]. split; [reflexivity|].
  apply (request_params_are_of_selected_route 1 1 usersApp (getRequest "/users/me")).
  reflexivity.
Defined.

(** ** Runtime selection *)


